(** * Black_Scholes.py: the pricer, the payoff calculator and the driver script

    The script mixes Python floats (the literals [1.0], [0.05], [0.20]),
    NumPy float64 scalars (the elements of [np.linspace], every result of
    [np.log], [np.sqrt], [np.exp] and [norm.cdf]) and one NumPy array.  The
    embedding keeps that distinction, because Python and NumPy disagree on
    what a division by zero or an overflowing power does: Python raises,
    NumPy returns an infinity or a NaN.

    The arithmetic itself is an interface, [Arith], with two instances:
    - [binary64]: IEEE 754 double precision, from the Standard Library's
      executable specification of floating-point numbers; the functions of
      libm and SciPy ([log], [exp], [pow], [norm.cdf]) are parameters;
    - [exact]: the real numbers, the arithmetic the formulas are written for.

    Integer arguments ([K = 100], the [0] of [np.maximum], the bounds of
    [np.linspace]) are identified with the float of the same value: each of
    them meets a float operand before it is used, and the conversion is exact
    below 2^53.

    What is decided by the code alone (exceptions, defaults, the payoff, the
    run of the script) is proved in binary64, for every libm.  The reference
    price and put-call parity are proved in binary64 as well, for every
    library that is accurate where the calls use it, with the rounding of
    the operations of the last line bounded; parity is also proved as an
    identity of exact arithmetic.  The no-arbitrage bound is an inequality
    of exact arithmetic, proved there for the normal distribution function
    characterised by its density.  Where d1 is not a number both prices are
    NaN, and rounding can take a price below the no-arbitrage bound: these
    failures are proved too. *)

From Stdlib Require Import ZArith QArith Qabs Reals Lra Lia String Ascii Bool List.
From Stdlib Require Import Floats.SpecFloat.
Import ListNotations.


(** ** Exceptions and results *)

Inductive exn : Type :=
| ValueError (msg : string)
| ZeroDivisionError
| OverflowError.

Inductive result (A : Type) : Type :=
| Return (a : A)
| Raise (e : exn).

Arguments Return {A} a.
Arguments Raise {A} e.

Definition bind {A B : Type} (c : result A) (k : A -> result B) : result B :=
  match c with
  | Return a => k a
  | Raise e => Raise e
  end.

Declare Scope py_scope.
Delimit Scope py_scope with py.
Notation "x <- c ;; k" := (bind c (fun x => k))
  (at level 61, c at next level, right associativity) : py_scope.

(** ** The arithmetic interface *)

Class Arith (num : Type) : Type := {
  num_add : num -> num -> num;
  num_sub : num -> num -> num;
  num_mul : num -> num -> num;
  num_div : num -> num -> num;
  num_neg : num -> num;
  num_sqrt : num -> num;
  (** libm and SciPy *)
  num_log : num -> num;
  num_exp : num -> num;
  num_sq : num -> num;            (* C's pow(x, 2.0) *)
  num_cdf : num -> num;           (* scipy.stats.norm.cdf *)
  (** the value of a numeric literal *)
  num_lit : Q -> num;
  (** tests *)
  num_is_zero : num -> bool;      (* x == 0 *)
  num_is_inf : num -> bool;       (* x is +inf or -inf *)
  num_is_nan : num -> bool;
  num_leb : num -> num -> bool;   (* x <= y *)
  num_ltb : num -> num -> bool    (* x < y *)
}.

(** ** IEEE 754 binary64 *)

Module B64.

Definition prec : Z := 53.
Definition emax : Z := 1024.

Definition float : Type := spec_float.

Definition add : float -> float -> float := SFadd prec emax.
Definition sub : float -> float -> float := SFsub prec emax.
Definition mul : float -> float -> float := SFmul prec emax.
Definition div : float -> float -> float := SFdiv prec emax.
Definition sqrt : float -> float := SFsqrt prec emax.
Definition neg : float -> float := SFopp.

Definition of_Z (z : Z) : float := binary_normalize prec emax z 0 false.

(** A decimal literal denotes the double nearest to it; the correctly
    rounded quotient of numerator and denominator is that double as long as
    both are below 2^53. *)
Definition lit (q : Q) : float := div (of_Z (Qnum q)) (of_Z (Zpos (Qden q))).

Definition is_zero (x : float) : bool :=
  match x with S754_zero _ => true | _ => false end.

Definition is_inf (x : float) : bool :=
  match x with S754_infinity _ => true | _ => false end.

Definition is_nan (x : float) : bool :=
  match x with S754_nan => true | _ => false end.

Definition is_finite (x : float) : bool :=
  match x with S754_zero _ | S754_finite _ _ _ => true | _ => false end.

Definition leb : float -> float -> bool := SFleb.
Definition ltb : float -> float -> bool := SFltb.

(** A zero without its sign: -0.0 becomes 0.0, and every other value, the
    NaN included, is left as it is. *)
Definition positive_zero (x : float) : float :=
  match x with S754_zero _ => S754_zero false | _ => x end.

(** The exact rational value of a finite float. *)
Definition to_Q (x : float) : Q :=
  match x with
  | S754_finite s m e =>
      let v := match e with
               | Zneg p => Qmake (Zpos m) (2 ^ p)
               | _ => inject_Z (Zpos m * 2 ^ e)
               end in
      if s then Qopp v else v
  | _ => 0%Q
  end.

(** The real number a finite float stands for. *)
Definition to_R (x : float) : R := Q2R (to_Q x).

(** 2^e, and the sign as a factor. *)
Definition bpow (e : Z) : R := powerRZ 2 e.

Definition sign (s : bool) : R := if s then (-1)%R else 1%R.

(** The mantissa of a normal number: 53 bits. *)
Definition normal (m : positive) : Prop := (2 ^ 52 <= Zpos m < 2 ^ 53)%Z.

(** [within tol y v]: [y] is a finite double, in canonical form, at most
    [tol] away from the real number [v]. *)
Definition within (tol : R) (y : float) (v : R) : Prop :=
  valid_binary prec emax y = true /\ is_finite y = true
  /\ (Rabs (to_R y - v) <= tol)%R.


(** What the script takes from libm and SciPy. *)
Record Libm : Type := {
  libm_log : float -> float;
  libm_exp : float -> float;
  libm_sq : float -> float;     (* pow(x, 2.0) *)
  norm_cdf : float -> float
}.

End B64.

#[export] Instance binary64 (L : B64.Libm) : Arith B64.float := {
  num_add := B64.add;
  num_sub := B64.sub;
  num_mul := B64.mul;
  num_div := B64.div;
  num_neg := B64.neg;
  num_sqrt := B64.sqrt;
  num_log := B64.libm_log L;
  num_exp := B64.libm_exp L;
  num_sq := B64.libm_sq L;
  num_cdf := B64.norm_cdf L;
  num_lit := B64.lit;
  num_is_zero := B64.is_zero;
  num_is_inf := B64.is_inf;
  num_is_nan := B64.is_nan;
  num_leb := B64.leb;
  num_ltb := B64.ltb
}.

(** ** Exact arithmetic

    The same interface over the real numbers.  Nothing overflows and nothing
    is a NaN; [norm.cdf] is a parameter here as well. *)

Definition Rbool {P : Prop} (d : {P} + {~ P}) : bool := if d then true else false.

#[export] Instance exact (Phi : R -> R) : Arith R := {
  num_add := Rplus;
  num_sub := Rminus;
  num_mul := Rmult;
  num_div := Rdiv;
  num_neg := Ropp;
  num_sqrt := sqrt;
  num_log := ln;
  num_exp := exp;
  num_sq := fun x => (x * x)%R;
  num_cdf := Phi;
  num_lit := Q2R;
  num_is_zero := fun x => Rbool (Req_dec_T x 0);
  num_is_inf := fun _ => false;
  num_is_nan := fun _ => false;
  num_leb := fun x y => Rbool (Rle_dec x y);
  num_ltb := fun x y => Rbool (Rlt_dec x y)
}.

(** ** Python and NumPy values *)

Section Model.

Context {num : Type} {A : Arith num}.

(** A scalar is a Python float or a NumPy float64. *)
Inductive scalar : Type :=
| Py (x : num)
| Np (x : num).

(** What [option_payoff] receives as [S]: a scalar or a one-dimensional
    array of float64. *)
Inductive value : Type :=
| Scalar (s : scalar)
| NdArray (xs : list num).

Definition val (s : scalar) : num :=
  match s with Py x => x | Np x => x end.

(** A binary operator that never raises: the result is a Python float
    when both operands are, a float64 otherwise. *)
Definition lift2 (op : num -> num -> num) (a b : scalar) : scalar :=
  match a, b with
  | Py x, Py y => Py (op x y)
  | _, _ => Np (op (val a) (val b))
  end.

Definition py_add : scalar -> scalar -> scalar := lift2 num_add.
Definition py_sub : scalar -> scalar -> scalar := lift2 num_sub.
Definition py_mul : scalar -> scalar -> scalar := lift2 num_mul.

Definition py_neg (a : scalar) : scalar :=
  match a with Py x => Py (num_neg x) | Np x => Np (num_neg x) end.

(** [a / b]: float.__truediv__ raises on a zero divisor; NumPy divides. *)
Definition py_div (a b : scalar) : result scalar :=
  match a, b with
  | Py x, Py y =>
      if num_is_zero y then Raise ZeroDivisionError
      else Return (Py (num_div x y))
  | _, _ => Return (Np (num_div (val a) (val b)))
  end.

(** [a ** 2]: float.__pow__ calls pow(x, 2.0) and raises OverflowError when
    a finite operand gives an infinite result; NumPy returns the
    infinity.  (For a NaN or an infinite operand CPython answers without
    calling pow, with the value C99 prescribes for pow, which [num_sq]
    stands for.) *)
Definition py_pow2 (a : scalar) : result scalar :=
  match a with
  | Py x =>
      let y := num_sq x in
      if num_is_inf y && negb (num_is_inf x) && negb (num_is_nan x)
      then Raise OverflowError
      else Return (Py y)
  | Np x => Return (Np (num_sq x))
  end.

(** NumPy's and SciPy's functions return a float64 whatever they get. *)
Definition np_log (a : scalar) : scalar := Np (num_log (val a)).
Definition np_sqrt (a : scalar) : scalar := Np (num_sqrt (val a)).
Definition np_exp (a : scalar) : scalar := Np (num_exp (val a)).
Definition norm_cdf (a : scalar) : scalar := Np (num_cdf (val a)).

(** One element of [np.maximum(a, b)]: [a] when [a > b] or [a] is a NaN,
    [b] otherwise.  Where the two compare equal the result is the second
    operand; that matters for the zeros only, which compare equal whatever
    their signs: np.maximum(-0.0, 0) is 0.0.  (The second operand is the
    literal 0 wherever the program calls np.maximum.) *)
Definition maximum (a b : num) : num :=
  if num_ltb b a || num_is_nan a then a else b.

Definition np_maximum (v : value) (b : num) : value :=
  match v with
  | Scalar s => Scalar (Np (maximum (val s) b))
  | NdArray xs => NdArray (map (fun x => maximum x b) xs)
  end.

(** [S - K] and [K - S] for an array or scalar [S] and a scalar [K]. *)
Definition value_sub (v : value) (k : scalar) : value :=
  match v with
  | Scalar s => Scalar (py_sub s k)
  | NdArray xs => NdArray (map (fun x => num_sub x (val k)) xs)
  end.

Definition value_rsub (k : scalar) (v : value) : value :=
  match v with
  | Scalar s => Scalar (py_sub k s)
  | NdArray xs => NdArray (map (fun x => num_sub (val k) x) xs)
  end.

(** An argument with a default: [None] is the omitted argument. *)
Definition with_default (d : string) (arg : option string) : string :=
  match arg with Some s => s | None => d end.

(** ** black_scholes

    The arguments are scalars, as the docstring declares them and as the
    script passes them.  Python evaluates d1 from left to right: [S / K]
    first, then [sigma ** 2], and the quotient by [sigma * np.sqrt(T)] last;
    the numerator of that quotient is a float64, so NumPy carries it out. *)

Definition black_scholes (S K T r sigma : scalar) (arg : option string)
  : result scalar :=
  let option_type := with_default "call" arg in
  (q <- py_div S K ;;
   sq <- py_pow2 sigma ;;
   d1 <- py_div
           (py_add (np_log q)
              (py_mul (py_add r (py_mul (Py (num_lit 0.5)) sq)) T))
           (py_mul sigma (np_sqrt T)) ;;
   let d2 := py_sub d1 (py_mul sigma (np_sqrt T)) in
   if (option_type =? "call")%string then
     Return (py_sub (py_mul S (norm_cdf d1))
               (py_mul (py_mul K (np_exp (py_mul (py_neg r) T)))
                  (norm_cdf d2)))
   else if (option_type =? "put")%string then
     Return (py_sub (py_mul (py_mul K (np_exp (py_mul (py_neg r) T)))
                       (norm_cdf (py_neg d2)))
               (py_mul S (norm_cdf (py_neg d1))))
   else Raise (ValueError "option_type must be 'call' or 'put'"))%py.

(** ** option_payoff *)

Definition option_payoff (S : value) (K : scalar) (arg : option string)
  : result value :=
  let option_type := with_default "call" arg in
  if (option_type =? "call")%string then
    Return (np_maximum (value_sub S K) (num_lit 0))
  else if (option_type =? "put")%string then
    Return (np_maximum (value_rsub K S) (num_lit 0))
  else Raise (ValueError "option_type must be 'call' or 'put'").

(** ** option_payoff and the arrays that exist when it is called

    An ndarray is an object: a function can change the array it is given,
    and its caller would see the change.  To say what [option_payoff] does
    to the arrays around it, they are kept in a store, and an operand is a
    number or the address of an array.  [S - K], [K - S] and
    [np.maximum(..., 0)] each return an array of their own. *)

Definition store : Type := list (list num).

Inductive operand : Type :=
| Number (s : scalar)
| Array (address : nat).

Definition load (h : store) (o : operand) : value :=
  match o with
  | Number s => Scalar s
  | Array a => NdArray (nth a h [])
  end.

(** The result of an operation: an array is put at a new address. *)
Definition allocate (v : value) (h : store) : operand * store :=
  match v with
  | Scalar s => (Number s, h)
  | NdArray xs => (Array (length h), h ++ [xs])
  end.

Definition option_payoff_in (h : store) (S : operand) (K : scalar)
    (arg : option string) : result (operand * store) :=
  let option_type := with_default "call" arg in
  if (option_type =? "call")%string then
    let (d, h1) := allocate (value_sub (load h S) K) h in
    Return (allocate (np_maximum (load h1 d) (num_lit 0)) h1)
  else if (option_type =? "put")%string then
    let (d, h1) := allocate (value_rsub K (load h S)) h in
    Return (allocate (np_maximum (load h1 d) (num_lit 0)) h1)
  else Raise (ValueError "option_type must be 'call' or 'put'").

(** ** np.linspace

    NumPy computes [step = (stop - start) / (num - 1)], then
    [arange(0, num) * step + start], and overwrites the last element with
    [stop].  (When the step underflows to zero it divides first and
    multiplies after; with a single point there is no step.) *)

Definition of_nat (i : nat) : num := num_lit (inject_Z (Z.of_nat i)).

Definition set_last (y : list num) (x : num) : list num :=
  match y with
  | [] => []
  | _ => removelast y ++ [x]
  end.

Definition np_linspace (start stop : num) (n : nat) : list num :=
  let div := (n - 1)%nat in
  let delta := num_sub stop start in
  let y := map of_nat (seq 0 n) in
  let y :=
    if (0 <? div)%nat then
      let step := num_div delta (of_nat div) in
      if num_is_zero step
      then map (fun yi => num_mul (num_div yi (of_nat div)) delta) y
      else map (fun yi => num_mul yi step) y
    else map (fun yi => num_mul yi delta) y in
  let y := map (fun yi => num_add yi start) y in
  if (1 <? n)%nat then set_last y stop else y.

(** ** The script

    The script is a straight line of calls.  It is run in a monad that
    keeps a log of the calls it makes to the two functions and to
    matplotlib, and stops at the first exception. *)

Inductive event : Type :=
| Call_black_scholes (S K T r sigma : scalar) (option_type : string)
| Call_option_payoff (S : value) (K : scalar) (option_type : string)
| Plt_figure (width height : nat)
| Plt_plot (x y : list num) (label color : string) (linestyle : option string)
| Plt_title (s : string)
| Plt_xlabel (s : string)
| Plt_ylabel (s : string)
| Plt_legend
| Plt_grid (visible : bool)
| Plt_show.

Definition M (X : Type) : Type := list event -> result (X * list event).

Definition ret {X : Type} (x : X) : M X := fun log => Return (x, log).

Definition mbind {X Y : Type} (c : M X) (k : X -> M Y) : M Y :=
  fun log =>
    match c log with
    | Return (x, log') => k x log'
    | Raise e => Raise e
    end.

Definition emit (e : event) : M unit := fun log => Return (tt, log ++ [e]).

Definition lift {X : Type} (c : result X) : M X :=
  fun log =>
    match c with
    | Return x => Return (x, log)
    | Raise e => Raise e
    end.

(** [[f(x) for x in xs]] *)
Fixpoint comprehension {X Y : Type} (f : X -> M Y) (xs : list X) : M (list Y) :=
  match xs with
  | [] => ret []
  | x :: xs' =>
      mbind (f x) (fun y =>
      mbind (comprehension f xs') (fun ys => ret (y :: ys)))
  end.

Definition call_black_scholes (S K T r sigma : scalar) (option_type : string)
  : M scalar :=
  mbind (emit (Call_black_scholes S K T r sigma option_type)) (fun _ =>
  lift (black_scholes S K T r sigma (Some option_type))).

Definition call_option_payoff (S : value) (K : scalar) (option_type : string)
  : M value :=
  mbind (emit (Call_option_payoff S K option_type)) (fun _ =>
  lift (option_payoff S K (Some option_type))).

(** str.capitalize, on ASCII letters. *)
Definition upper (c : ascii) : ascii :=
  let n := nat_of_ascii c in
  if ((97 <=? n) && (n <=? 122))%nat then ascii_of_nat (n - 32) else c.

Definition lower (c : ascii) : ascii :=
  let n := nat_of_ascii c in
  if ((65 <=? n) && (n <=? 90))%nat then ascii_of_nat (n + 32) else c.

Fixpoint map_string (f : ascii -> ascii) (s : string) : string :=
  match s with
  | EmptyString => EmptyString
  | String c s' => String (f c) (map_string f s')
  end.

Definition capitalize (s : string) : string :=
  match s with
  | EmptyString => EmptyString
  | String c s' => String (upper c) (map_string lower s')
  end.

(** The y data of a plotted series. *)
Definition ydata (v : value) : list num :=
  match v with
  | Scalar s => [val s]
  | NdArray xs => xs
  end.

Record curves : Type := {
  spots : list num;          (* S *)
  prices : list scalar;      (* prices *)
  payoffs : value            (* payoffs *)
}.

Definition script : M curves :=
  let S := np_linspace (num_lit 50) (num_lit 150) 100 in
  let K := Py (num_lit 100) in
  let T := Py (num_lit 1.0) in
  let r := Py (num_lit 0.05) in
  let sigma := Py (num_lit 0.20) in
  let option_type := "call"%string in
  mbind (comprehension
           (fun s => call_black_scholes (Np s) K T r sigma option_type) S)
    (fun prices =>
  mbind (call_option_payoff (NdArray S) K option_type) (fun payoffs =>
  mbind (emit (Plt_figure 10 6)) (fun _ =>
  mbind (emit (Plt_plot S (map val prices)
                 "Option Price (Black–Scholes)" "blue" None)) (fun _ =>
  mbind (emit (Plt_plot S (ydata payoffs)
                 "Payoff at Expiry" "green" (Some "--"%string))) (fun _ =>
  mbind (emit (Plt_title
                 (capitalize option_type ++ " Option Price vs Payoff at Expiry")))
    (fun _ =>
  mbind (emit (Plt_xlabel "Underlying Stock Price ($)")) (fun _ =>
  mbind (emit (Plt_ylabel "Value ($)")) (fun _ =>
  mbind (emit Plt_legend) (fun _ =>
  mbind (emit (Plt_grid true)) (fun _ =>
  mbind (emit Plt_show) (fun _ =>
  ret {| spots := S; prices := prices; payoffs := payoffs |}))))))))))).

(** What the script gets for one spot value: its price (when the call
    returns), its payoff, and the record of the call in the log. *)
Definition price_at (s : num) : scalar :=
  match black_scholes (Np s) (Py (num_lit 100)) (Py (num_lit 1.0))
          (Py (num_lit 0.05)) (Py (num_lit 0.20)) (Some "call"%string) with
  | Return p => p
  | Raise _ => Np s
  end.

Definition payoff_at (s : num) : num :=
  maximum (num_sub s (num_lit 100)) (num_lit 0).

Definition call_event (s : num) : event :=
  Call_black_scholes (Np s) (Py (num_lit 100)) (Py (num_lit 1.0))
    (Py (num_lit 0.05)) (Py (num_lit 0.20)) "call".

(** Reading the log. *)
Definition is_black_scholes_call (e : event) : bool :=
  match e with Call_black_scholes _ _ _ _ _ _ => true | _ => false end.

Definition is_option_payoff_call (e : event) : bool :=
  match e with Call_option_payoff _ _ _ => true | _ => false end.

Definition is_plot (e : event) : bool :=
  match e with Plt_plot _ _ _ _ _ => true | _ => false end.

(** ** When the evaluation of d1 raises

    [S / K] and [sigma ** 2] are the two operations of [black_scholes]
    that Python itself may carry out; these are the operands on which it
    raises. *)

Definition zero_division (S K : scalar) : bool :=
  match S, K with
  | Py _, Py y => num_is_zero y
  | _, _ => false
  end.

Definition pow_overflow (sigma : scalar) : bool :=
  match sigma with
  | Py x => num_is_inf (num_sq x) && negb (num_is_inf x) && negb (num_is_nan x)
  | Np _ => false
  end.

Definition valid_option_type (s : string) : bool :=
  ((s =? "call") || (s =? "put"))%string.

(** ** The closed form, as the specification writes it

    These definitions follow the specification's formulas, on plain
    numbers; they are what [black_scholes] and [option_payoff] are compared
    with. *)

Definition spec_d1 (S K T r sigma : num) : num :=
  num_div
    (num_add (num_log (num_div S K))
       (num_mul (num_add r (num_mul (num_lit 0.5) (num_sq sigma))) T))
    (num_mul sigma (num_sqrt T)).

Definition spec_d2 (S K T r sigma : num) : num :=
  num_sub (spec_d1 S K T r sigma) (num_mul sigma (num_sqrt T)).

(** K e^(-rT) *)
Definition spec_discounted (K T r : num) : num :=
  num_mul K (num_exp (num_neg (num_mul r T))).

Definition spec_call (S K T r sigma : num) : num :=
  num_sub
    (num_mul S (num_cdf (spec_d1 S K T r sigma)))
    (num_mul (spec_discounted K T r) (num_cdf (spec_d2 S K T r sigma))).

Definition spec_put (S K T r sigma : num) : num :=
  num_sub
    (num_mul (spec_discounted K T r)
       (num_cdf (num_neg (spec_d2 S K T r sigma))))
    (num_mul S (num_cdf (num_neg (spec_d1 S K T r sigma)))).

(** max(a, b), by the order. *)
Definition spec_max (a b : num) : num := if num_ltb a b then b else a.

Definition spec_payoff_call (K S : num) : num :=
  spec_max (num_sub S K) (num_lit 0).

Definition spec_payoff_put (K S : num) : num :=
  spec_max (num_sub K S) (num_lit 0).

End Model.

Arguments scalar : clear implicits.
Arguments value : clear implicits.
Arguments event : clear implicits.
Arguments curves : clear implicits.
Arguments store : clear implicits.
Arguments operand : clear implicits.

(** ** A stand-in for libm and SciPy

    Low-order approximations, good for two or three digits: enough to run
    the model on concrete inputs.  The theorems about the program hold for
    every library, this one included. *)

Module Crude.

Import B64.

Fixpoint square_n (n : nat) (x : float) : float :=
  match n with
  | O => x
  | S n' => square_n n' (mul x x)
  end.

(** (1 + x / 2^12)^(2^12) *)
Definition exp (x : float) : float :=
  square_n 12 (add (lit 1) (div x (lit 4096))).

(** Halley's iteration for exp y = x, from y = 0. *)
Fixpoint log_iter (n : nat) (x y : float) : float :=
  match n with
  | O => y
  | S n' =>
      let e := exp y in
      log_iter n' x (add y (mul (lit 2) (div (sub x e) (add x e))))
  end.

Definition log (x : float) : float := log_iter 8 x (lit 0).

(** The logistic approximation of the normal distribution function. *)
Definition cdf (x : float) : float :=
  div (lit 1) (add (lit 1) (exp (neg (mul (lit 1.702) x)))).

Definition libm : Libm := {|
  libm_log := log;
  libm_exp := exp;
  libm_sq := fun x => mul x x;
  norm_cdf := cdf
|}.

End Crude.

(** ** A library that is accurate at the reference point

    The values that the calls at S = K = 100, T = 1, r = 0.05,
    sigma = 0.20 take from the library, to seven digits: log(1) = 0,
    e^(-0.05) = 0.9512294, Phi(0.35) = 0.6368307, Phi(0.15) = 0.5596177,
    Phi(-0.15) = 0.4403823, Phi(-0.35) = 0.3631693, and the correctly
    rounded square. *)

Module Tabulated.

Import B64.

Definition cdf (x : float) : float :=
  if ltb x (lit (-0.25)) then lit 0.3631693
  else if ltb x (lit 0) then lit 0.4403823
  else if ltb x (lit 0.25) then lit 0.5596177
  else lit 0.6368307.

Definition libm : Libm := {|
  libm_log := fun _ => lit 0;
  libm_exp := fun _ => lit 0.9512294;
  libm_sq := fun x => mul x x;
  norm_cdf := cdf
|}.

End Tabulated.


(** ** The grid of spot prices, as the specification describes it

    100 points from 50 to 150 at equal distances: the i-th is
    50 + i (150 - 50) / 99. *)

Definition spec_grid (i : nat) : Q := 50 + inject_Z (Z.of_nat i) * (100 # 99).

Definition spec_grid_R (i : nat) : R := (50 + INR i * (100 / 99))%R.

(** ** Distribution functions

    The kernel e^(-x^2/2) and the density of the standard normal
    distribution, and the Taylor polynomials of the kernel's integral from 0
    that enclose the distribution function on [0, 1]. *)

Definition gauss_kernel (x : R) : R := exp (- (x ^ 2 / 2))%R.

Definition normal_density (x : R) : R := (gauss_kernel x / sqrt (2 * PI))%R.

Definition gauss_lo (x : R) : R :=
  (x - x ^ 3 / 6 + x ^ 5 / 40 - x ^ 7 / 336)%R.

Definition gauss_hi (x : R) : R := (gauss_lo x + x ^ 9 / 3456)%R.

(** The logistic distribution function: a symmetric distribution function
    that is written in closed form. *)
Definition logistic (x : R) : R := (1 / (1 + exp (- x)))%R.

(** * Properties *)

(** ** Facts that hold in every arithmetic *)

Lemma Return_injective {X : Type} (a b : X) : Return a = Return b -> a = b.
Proof. intros H. injection H. auto. Qed.

Section Generic.

Context {num : Type} {A : Arith num}.

Implicit Types (S K T r sigma a b : scalar num) (v : value num).

Lemma val_lift2 (op : num -> num -> num) a b :
  val (lift2 op a b) = op (val a) (val b).
Proof. destruct a, b; reflexivity. Qed.




(** [S / K] raises exactly on [zero_division], and then it is a
    ZeroDivisionError. *)
Lemma py_div_outcome a b :
  py_div a b =
  if zero_division a b then Raise ZeroDivisionError
  else Return (match a, b with
               | Py x, Py y => Py (num_div x y)
               | _, _ => Np (num_div (val a) (val b))
               end).
Proof.
  destruct a, b; reflexivity.
Qed.



Lemma py_pow2_outcome a :
  py_pow2 a =
  if pow_overflow a then Raise OverflowError
  else Return (match a with
               | Py x => Py (num_sq x)
               | Np x => Np (num_sq x)
               end).
Proof. destruct a; reflexivity. Qed.


Lemma valid_option_type_iff (s : string) :
  valid_option_type s = true <-> s = "call"%string \/ s = "put"%string.
Proof.
  unfold valid_option_type. rewrite orb_true_iff, !String.eqb_eq. tauto.
Qed.

Lemma invalid_option_type_iff (s : string) :
  valid_option_type s = false <-> s <> "call"%string /\ s <> "put"%string.
Proof.
  unfold valid_option_type. rewrite orb_false_iff, !String.eqb_neq. tauto.
Qed.

(** The whole of [black_scholes] as one case analysis: the two arithmetic
    exceptions come first, in the order Python evaluates d1, and the
    option type is looked at last.  [-r * T] is [(-r) * T] in the code and
    [-(r * T)] in the closed form; the two agree in both arithmetics of
    this file, which is all the lemma asks of the arithmetic. *)
Section Outcome.

Hypothesis neg_mul :
  forall x y : num, num_mul (num_neg x) y = num_neg (num_mul x y).

Lemma black_scholes_outcome S K T r sigma (option_type : string) :
  black_scholes S K T r sigma (Some option_type) =
  if zero_division S K then Raise ZeroDivisionError
  else if pow_overflow sigma then Raise OverflowError
  else if (option_type =? "call")%string then
    Return (Np (spec_call (val S) (val K) (val T) (val r) (val sigma)))
  else if (option_type =? "put")%string then
    Return (Np (spec_put (val S) (val K) (val T) (val r) (val sigma)))
  else Raise (ValueError "option_type must be 'call' or 'put'").
Proof.
  unfold black_scholes, with_default.
  rewrite py_div_outcome.
  destruct (zero_division S K); [reflexivity|]. cbn [bind].
  rewrite py_pow2_outcome.
  destruct (pow_overflow sigma); [reflexivity|]. cbn [bind].
  unfold spec_call, spec_put, spec_d2, spec_d1, spec_discounted.
  destruct S, K, T, r, sigma; cbn; rewrite ?neg_mul; reflexivity.
Qed.

End Outcome.

Lemma option_payoff_outcome v K (option_type : string) :
  option_payoff v K (Some option_type) =
  if (option_type =? "call")%string then
    Return (np_maximum (value_sub v K) (num_lit 0))
  else if (option_type =? "put")%string then
    Return (np_maximum (value_rsub K v) (num_lit 0))
  else Raise (ValueError "option_type must be 'call' or 'put'").
Proof. reflexivity. Qed.

End Generic.

(** ** Facts about binary64 *)

Module B64Facts.

Import B64.

Lemma b64_lit_zero : lit 0 = S754_zero false.
Proof. reflexivity. Qed.

(** Against zero, NumPy's maximum is the maximum of the order, NaN
    included (a NaN first operand comes back from both), except that its
    zero is always 0.0. *)
Lemma b64_maximum_zero (L : Libm) (a : float) :
  maximum (A := binary64 L) a (lit 0)
  = positive_zero (spec_max (A := binary64 L) a (lit 0)).
Proof.
  rewrite b64_lit_zero. unfold maximum, spec_max; cbn.
  destruct a as [s | s | | s m e]; try destruct s; reflexivity.
Qed.

Lemma positive_zero_id (a : float) :
  a <> S754_zero true -> positive_zero a = a.
Proof.
  destruct a as [s | s | | s m e]; try reflexivity.
  destruct s; [intros H; contradiction H; reflexivity | reflexivity].
Qed.

(** [positive_zero] changes no number: the two zeros are equal. *)
Lemma positive_zero_same_number (a : float) :
  is_nan a = false -> SFeqb (positive_zero a) a = true.
Proof.
  destruct a as [s | s | | s m e]; try discriminate; intros _;
    try (destruct s; reflexivity).
  unfold positive_zero, SFeqb, SFcompare.
  destruct s; rewrite Z.compare_refl, Pos.compare_cont_refl; reflexivity.
Qed.

Lemma b64_maximum_zero_not_below (L : Libm) (a : float) :
  ltb (maximum (A := binary64 L) a (lit 0)) (lit 0) = false.
Proof.
  rewrite b64_lit_zero. unfold maximum; cbn.
  destruct a as [s | s | | s m e]; try destruct s; reflexivity.
Qed.

Lemma b64_maximum_zero_nonneg (L : Libm) (a : float) :
  is_nan a = false ->
  leb (lit 0) (maximum (A := binary64 L) a (lit 0)) = true.
Proof.
  rewrite b64_lit_zero. unfold maximum; cbn.
  destruct a as [s | s | | s m e]; try destruct s;
    try reflexivity; discriminate.
Qed.

(** The maximum is a NaN exactly when its first operand is one, and it is
    at least 0 in every other case. *)
Lemma b64_maximum_zero_is_nan (L : Libm) (a : float) :
  is_nan (maximum (A := binary64 L) a (lit 0)) = is_nan a.
Proof.
  rewrite b64_lit_zero.
  destruct a as [s | s | | s m e]; try destruct s; reflexivity.
Qed.

Lemma b64_maximum_zero_leb (L : Libm) (a : float) :
  leb (lit 0) (maximum (A := binary64 L) a (lit 0)) = negb (is_nan a).
Proof.
  rewrite b64_lit_zero. unfold maximum; cbn.
  destruct a as [s | s | | s m e]; try destruct s; reflexivity.
Qed.

(** Rounding a non-negative mantissa never makes a NaN. *)
Lemma shr_1_nonneg mrs : (0 <= shr_m mrs)%Z -> (0 <= shr_m (shr_1 mrs))%Z.
Proof.
  destruct mrs as [m r s]; simpl.
  destruct m as [ | p | p ]; simpl; try lia.
  destruct p; simpl; lia.
Qed.

Lemma iter_shr_1_nonneg p mrs :
  (0 <= shr_m mrs)%Z -> (0 <= shr_m (iter_pos shr_1 p mrs))%Z.
Proof.
  revert mrs; induction p; intros mrs H; simpl; auto using shr_1_nonneg.
Qed.

Lemma shr_fexp_nonneg m e l :
  (0 <= m)%Z -> (0 <= shr_m (fst (shr_fexp prec emax m e l)))%Z.
Proof.
  intros H. unfold shr_fexp, shr.
  assert (H0 : (0 <= shr_m (shr_record_of_loc m l))%Z).
  { destruct l as [ | [ | | ] ]; simpl; exact H. }
  destruct (fexp prec emax (Zdigits2 m + e) - e)%Z; simpl;
    auto using iter_shr_1_nonneg.
Qed.

Lemma round_nearest_even_nonneg m l :
  (0 <= m)%Z -> (0 <= round_nearest_even m l)%Z.
Proof.
  intros H; destruct l as [ | [ | | ] ]; simpl; try lia.
  destruct (Z.even m); lia.
Qed.

Lemma binary_round_aux_not_nan s m e l :
  (0 <= m)%Z -> is_nan (binary_round_aux prec emax s m e l) = false.
Proof.
  intros H. unfold binary_round_aux.
  pose proof (shr_fexp_nonneg m e l H) as H1.
  destruct (shr_fexp prec emax m e l) as [mrs' e']; simpl in H1.
  pose proof (shr_fexp_nonneg _ e' loc_Exact
                (round_nearest_even_nonneg (shr_m mrs')
                   (loc_of_shr_record mrs') H1)) as H2.
  destruct (shr_fexp prec emax _ e' loc_Exact) as [mrs'' e'']; simpl in H2.
  destruct (shr_m mrs'') as [ | p | p ]; try reflexivity.
  - destruct (e'' <=? emax - prec)%Z; reflexivity.
  - lia.
Qed.

Lemma binary_normalize_not_nan m e sz :
  is_nan (binary_normalize prec emax m e sz) = false.
Proof.
  destruct m as [ | p | p ]; simpl; try reflexivity;
    unfold binary_round;
    destruct (shl_align _ _ _) as [mz ez];
    apply binary_round_aux_not_nan; lia.
Qed.

(** The difference of two numbers is a number (possibly an infinity). *)
Lemma sub_finite_not_nan x y :
  is_finite x = true -> is_finite y = true -> is_nan (sub x y) = false.
Proof.
  destruct x as [sx | sx | | sx mx ex], y as [sy | sy | | sy my ey];
    try discriminate; intros _ _; try (destruct sx, sy; reflexivity).
  unfold sub, SFsub. apply binary_normalize_not_nan.
Qed.

(** Rounding is symmetric in the sign, so [(-x) * y] is [-(x * y)] to the
    last bit. *)
Lemma binary_round_aux_opp s m e l :
  binary_round_aux prec emax (negb s) m e l
  = SFopp (binary_round_aux prec emax s m e l).
Proof.
  unfold binary_round_aux.
  destruct (shr_fexp prec emax m e l) as [mrs' e'].
  destruct (shr_fexp prec emax _ e' loc_Exact) as [mrs'' e''].
  destruct (shr_m mrs''); try reflexivity.
  destruct (e'' <=? emax - prec)%Z; reflexivity.
Qed.

Lemma b64_mul_neg_l x y : mul (neg x) y = neg (mul x y).
Proof.
  destruct x as [sx | sx | | sx mx ex], y as [sy | sy | | sy my ey]; simpl;
    try reflexivity; try (destruct sx, sy; reflexivity).
  unfold mul, neg, SFmul.
  rewrite <- binary_round_aux_opp. f_equal. destruct sx, sy; reflexivity.
Qed.

End B64Facts.

(** ** Rounding in binary64

    What the rounding of a product and of a difference does to the value,
    in the range of the normal numbers: the result is off by at most one
    part in 2^52.  (Round-to-nearest is twice as good; this is enough
    here.) *)

Module B64Round.

Import B64.

Local Open Scope Z_scope.

Lemma digits2_pos_bounds (m : positive) :
  2 ^ (Zpos (digits2_pos m) - 1) <= Zpos m < 2 ^ Zpos (digits2_pos m).
Proof.
  induction m as [m IH | m IH | ]; cbn [digits2_pos].
  - rewrite Pos2Z.inj_succ, Z.pow_succ_r by lia.
    replace (Z.succ (Zpos (digits2_pos m)) - 1) with (Zpos (digits2_pos m))
      by lia.
    assert (H : 2 ^ Zpos (digits2_pos m) = 2 * 2 ^ (Zpos (digits2_pos m) - 1)).
    { rewrite <- Z.pow_succ_r by lia. f_equal. lia. }
    rewrite (Pos2Z.inj_xI m).
    set (a := 2 ^ Zpos (digits2_pos m)) in *.
    set (b := 2 ^ (Zpos (digits2_pos m) - 1)) in *. clearbody a b. lia.
  - rewrite Pos2Z.inj_succ, Z.pow_succ_r by lia.
    replace (Z.succ (Zpos (digits2_pos m)) - 1) with (Zpos (digits2_pos m))
      by lia.
    assert (H : 2 ^ Zpos (digits2_pos m) = 2 * 2 ^ (Zpos (digits2_pos m) - 1)).
    { rewrite <- Z.pow_succ_r by lia. f_equal. lia. }
    rewrite (Pos2Z.inj_xO m).
    set (a := 2 ^ Zpos (digits2_pos m)) in *.
    set (b := 2 ^ (Zpos (digits2_pos m) - 1)) in *. clearbody a b. lia.
  - cbn. lia.
Qed.

Lemma digits2_pos_unique (m : positive) (k : Z) :
  2 ^ (k - 1) <= Zpos m < 2 ^ k -> Zpos (digits2_pos m) = k.
Proof.
  intros [Hlo Hhi]. pose proof (digits2_pos_bounds m) as [Dlo Dhi].
  set (d := Zpos (digits2_pos m)) in *.
  assert (Hd : 0 < d) by (unfold d; lia).
  assert (Hk : 0 < k).
  { destruct (Z_lt_le_dec 0 k) as [H | H]; [exact H|].
    assert (2 ^ k <= 1).
    { destruct (Z.eq_dec k 0) as [-> | Hne]; [cbn; lia|].
      rewrite Z.pow_neg_r by lia. lia. }
    lia. }
  destruct (Z_lt_le_dec d k) as [H1 | H1].
  { assert (2 ^ d <= 2 ^ (k - 1)) by (apply Z.pow_le_mono_r; lia). lia. }
  destruct (Z_lt_le_dec k d) as [H2 | H2].
  { assert (2 ^ k <= 2 ^ (d - 1)) by (apply Z.pow_le_mono_r; lia). lia. }
  lia.
Qed.

Lemma shr_1_m (r : shr_record) :
  0 <= shr_m r -> shr_m (shr_1 r) = shr_m r / 2.
Proof.
  destruct r as [[ | [p | p | ] | p] r s]; cbn [shr_m shr_1]; intros H.
  - reflexivity.
  - rewrite (Pos2Z.inj_xI p). Z.div_mod_to_equations. lia.
  - rewrite (Pos2Z.inj_xO p). Z.div_mod_to_equations. lia.
  - reflexivity.
  - lia.
Qed.

Lemma iter_shr_1_m (p : positive) :
  forall r : shr_record,
    0 <= shr_m r -> shr_m (iter_pos shr_1 p r) = shr_m r / 2 ^ Zpos p.
Proof.
  induction p as [p IH | p IH | ]; intros r H; cbn [iter_pos].
  - assert (H1 : 0 <= shr_m (shr_1 r))
      by (rewrite shr_1_m by exact H; apply Z.div_pos; lia).
    assert (H2 : 0 <= shr_m (iter_pos shr_1 p (shr_1 r)))
      by (rewrite IH by exact H1; apply Z.div_pos; lia).
    rewrite IH by exact H2. rewrite IH by exact H1. rewrite shr_1_m by exact H.
    rewrite !Z.div_div by lia.
    f_equal. rewrite (Pos2Z.inj_xI p).
    rewrite Z.pow_add_r, Z.pow_mul_r by lia.
    change (2 ^ 2) with 4. change (2 ^ 1) with 2.
    replace 4 with (2 * 2) by lia. rewrite Z.pow_mul_l. ring.
  - assert (H2 : 0 <= shr_m (iter_pos shr_1 p r))
      by (rewrite IH by exact H; apply Z.div_pos; lia).
    rewrite IH by exact H2. rewrite IH by exact H.
    rewrite !Z.div_div by lia.
    f_equal. rewrite (Pos2Z.inj_xO p).
    rewrite Z.pow_mul_r by lia.
    change (2 ^ 2) with 4.
    replace 4 with (2 * 2) by lia. rewrite Z.pow_mul_l. ring.
  - rewrite shr_1_m by exact H. reflexivity.
Qed.

Lemma shr_m_e (r : shr_record) (e n : Z) :
  0 <= shr_m r -> 0 <= n ->
  shr_m (fst (shr r e n)) = shr_m r / 2 ^ n /\ snd (shr r e n) = e + n.
Proof.
  intros H Hn. destruct n as [ | p | p]; cbn [shr fst snd].
  - rewrite Z.div_1_r. split; [reflexivity | lia].
  - split; [apply iter_shr_1_m; exact H | reflexivity].
  - lia.
Qed.

Lemma round_nearest_even_range (m : Z) (l : location) :
  m <= round_nearest_even m l <= m + 1.
Proof.
  destruct l as [ | [ | | ]]; cbn [round_nearest_even];
    try destruct (Z.even m); lia.
Qed.

Lemma fexp_normal (x : Z) : -1021 <= x -> fexp prec emax x = x - 53.
Proof. intros H. unfold fexp, emin, prec, emax. lia. Qed.

(** Rounding a mantissa of at least 53 bits in the range of the normal
    numbers: the result is a normal number, and it is off by at most one
    part in 2^52. *)
Lemma round_aux_normal (s : bool) (M : positive) (E : Z) :
  53 <= Zpos (digits2_pos M) ->
  -1021 <= Zpos (digits2_pos M) + E <= 1023 ->
  exists (m : positive) (e : Z),
    binary_round_aux prec emax s (Zpos M) E loc_Exact = S754_finite s m e
    /\ 2 ^ 52 <= Zpos m < 2 ^ 53
    /\ E <= e <= Zpos (digits2_pos M) + E - 52
    /\ 2 ^ 52 * Z.abs (Zpos m * 2 ^ (e - E) - Zpos M) <= Zpos M.
Proof.
  intros Hd Hr. pose proof (digits2_pos_bounds M) as [Mlo Mhi].
  set (d := Zpos (digits2_pos M)) in *.
  unfold binary_round_aux.
  unfold shr_fexp at 1. cbn [Zdigits2]. fold d.
  rewrite fexp_normal by lia.
  set (n := d + E - 53 - E).
  assert (Hn : n = d - 53) by (unfold n; lia).
  destruct (shr_m_e (shr_record_of_loc (Zpos M) loc_Exact) E n)
    as [Hm1 He1]; [cbn; lia | lia |].
  destruct (shr (shr_record_of_loc (Zpos M) loc_Exact) E n) as [mrs' e'].
  cbn [fst snd] in Hm1, He1. cbn [shr_record_of_loc shr_m] in Hm1.
  subst e'.
  pose proof (round_nearest_even_range (shr_m mrs') (loc_of_shr_record mrs'))
    as Hround.
  set (m2 := round_nearest_even (shr_m mrs') (loc_of_shr_record mrs')) in *.
  rewrite Hm1 in Hround. clear Hm1.
  assert (Hpow : 2 ^ d = 2 ^ n * 2 ^ 53).
  { rewrite <- Z.pow_add_r by lia. f_equal. lia. }
  assert (Hpow1 : 2 ^ (d - 1) = 2 ^ n * 2 ^ 52).
  { rewrite <- Z.pow_add_r by lia. f_equal. lia. }
  assert (Hn0 : 0 < 2 ^ n) by (apply Z.pow_pos_nonneg; lia).
  set (q := Zpos M / 2 ^ n) in *.
  assert (Hq : 2 ^ n * q <= Zpos M < 2 ^ n * (q + 1)).
  { unfold q. pose proof (Z.mul_div_le (Zpos M) (2 ^ n) Hn0).
    pose proof (Z.mul_succ_div_gt (Zpos M) (2 ^ n) Hn0). lia. }
  assert (Hq52 : 2 ^ 52 <= q < 2 ^ 53) by nia.
  assert (Hm2 : 2 ^ 52 <= m2 <= 2 ^ 53) by lia.
  destruct m2 as [ | q2 | q2] eqn:Em2; try (cbn in Hm2; lia).
  unfold shr_fexp. cbn [Zdigits2].
  assert (Hq2 : Zpos (digits2_pos q2) = 53 /\ Zpos q2 < 2 ^ 53
                \/ Zpos (digits2_pos q2) = 54 /\ Zpos q2 = 2 ^ 53).
  { destruct (Z.eq_dec (Zpos q2) (2 ^ 53)) as [Heq | Hne].
    - right. split; [|exact Heq]. apply digits2_pos_unique.
      rewrite Heq. change (54 - 1) with 53. split; [lia|].
      apply Z.pow_lt_mono_r; lia.
    - left. split; [|lia]. apply digits2_pos_unique.
      change (53 - 1) with 52. lia. }
  rewrite fexp_normal by lia.
  set (n2 := Zpos (digits2_pos q2) + (E + n) - 53 - (E + n)).
  assert (Hn2 : n2 = Zpos (digits2_pos q2) - 53) by (unfold n2; lia).
  destruct (shr_m_e (shr_record_of_loc (Zpos q2) loc_Exact) (E + n) n2)
    as [Hm3 He3]; [cbn; lia | lia |].
  destruct (shr (shr_record_of_loc (Zpos q2) loc_Exact) (E + n) n2)
    as [mrs'' e''].
  cbn [fst snd] in Hm3, He3. cbn [shr_record_of_loc shr_m] in Hm3.
  subst e''. rewrite Hm3. clear Hm3.
  destruct Hq2 as [[Hd2 Hlt] | [Hd2 Heq]].
  - assert (n2 = 0) by lia. replace n2 with 0 by lia.
    rewrite Z.div_1_r.
    replace (E + n + 0 <=? emax - prec) with true
      by (symmetry; apply Z.leb_le; unfold emax, prec; lia).
    exists q2, (E + n + 0).
    split; [reflexivity|]. split; [lia|]. split; [lia|].
    replace (E + n + 0 - E) with n by lia.
    clear Hpow Hpow1 Mhi. set (t := 2 ^ n) in *. clearbody t.
    assert (Z.abs (Zpos q2 * t - Zpos M) <= t) by nia.
    nia.
  - assert (n2 = 1) by lia. replace n2 with 1 by lia.
    rewrite Heq. change (2 ^ 53 / 2 ^ 1) with (Zpos (2 ^ 52)%positive).
    replace (E + n + 1 <=? emax - prec) with true
      by (symmetry; apply Z.leb_le; unfold emax, prec; lia).
    exists (2 ^ 52)%positive, (E + n + 1).
    split; [reflexivity|].
    split; [change (Zpos (2 ^ 52)) with (2 ^ 52); lia|]. split; [lia|].
    replace (E + n + 1 - E) with (n + 1) by lia.
    rewrite Z.pow_add_r by lia.
    change (Zpos (2 ^ 52)) with (2 ^ 52). change (2 ^ 1) with 2.
    assert (Hq' : q = 2 ^ 53 - 1) by lia.
    clear Hpow Hpow1 Mhi. set (t := 2 ^ n) in *. clearbody t.
    assert (Z.abs (2 ^ 52 * (t * 2) - Zpos M) <= t).
    { change (2 ^ 53) with (2 ^ 52 * 2) in Hq'. nia. }
    nia.
Qed.


Local Open Scope R_scope.

Lemma bpow_pos (e : Z) : 0 < bpow e.
Proof. apply powerRZ_lt. lra. Qed.

Lemma bpow_add (a b : Z) : bpow (a + b) = bpow a * bpow b.
Proof. apply powerRZ_add. lra. Qed.

Lemma bpow_IZR (e : Z) : (0 <= e)%Z -> bpow e = IZR (2 ^ e).
Proof.
  intros H. unfold bpow. destruct e as [ | p | p]; [reflexivity | | lia].
  symmetry. apply (Zpower_pos_powerRZ 2 p).
Qed.

Lemma bpow_le (a b : Z) : (a <= b)%Z -> bpow a <= bpow b.
Proof.
  intros H. replace b with (a + (b - a))%Z by lia. rewrite bpow_add.
  rewrite (bpow_IZR (b - a)) by lia.
  assert (1 <= IZR (2 ^ (b - a))).
  { apply IZR_le. assert (0 < 2 ^ (b - a))%Z by (apply Z.pow_pos_nonneg; lia).
    lia. }
  pose proof (bpow_pos a). nra.
Qed.

Lemma bpow_opp (e : Z) : bpow (- e) = / bpow e.
Proof. apply powerRZ_neg'. Qed.

Lemma Rabs_sign (s : bool) : Rabs (sign s) = 1.
Proof.
  destruct s; cbn [sign]; [rewrite Rabs_left by lra; lra | apply Rabs_R1].
Qed.

Lemma to_R_finite (s : bool) (m : positive) (e : Z) :
  to_R (S754_finite s m e) = sign s * IZR (Zpos m) * bpow e.
Proof.
  assert (H : Q2R (match e with
                   | Zneg p => Qmake (Zpos m) (2 ^ p)
                   | _ => inject_Z (Zpos m * 2 ^ e)
                   end) = IZR (Zpos m) * bpow e).
  { destruct e as [ | p | p].
    - unfold Q2R, bpow. cbn. rewrite Pos.mul_1_r. lra.
    - unfold Q2R. cbn [inject_Z Qnum Qden]. rewrite mult_IZR.
      rewrite <- bpow_IZR by lia. lra.
    - unfold Q2R. cbn [Qnum Qden].
      change (Zneg p) with (- Zpos p)%Z. rewrite bpow_opp.
      rewrite bpow_IZR by lia. rewrite Pos2Z.inj_pow. reflexivity. }
  unfold to_R, to_Q. destruct s; cbn [sign].
  - rewrite Qreals.Q2R_opp, H. ring.
  - rewrite H. ring.
Qed.

Lemma to_R_zero (s : bool) : to_R (S754_zero s) = 0.
Proof. unfold to_R, to_Q. apply RMicromega.Q2R_0. Qed.

(** What [round_aux_normal] says of the values. *)
Lemma round_error (s : bool) (m M : positive) (e E : Z) :
  (E <= e)%Z ->
  (2 ^ 52 * Z.abs (Zpos m * 2 ^ (e - E) - Zpos M) <= Zpos M)%Z ->
  Rabs (to_R (S754_finite s m e) - sign s * IZR (Zpos M) * bpow E)
  <= IZR (Zpos M) * bpow E / 4503599627370496.
Proof.
  intros He H. rewrite to_R_finite.
  replace e with (E + (e - E))%Z at 1 by lia.
  rewrite bpow_add, (bpow_IZR (e - E)) by lia.
  replace (sign s * IZR (Zpos m) * (bpow E * IZR (2 ^ (e - E)))
           - sign s * IZR (Zpos M) * bpow E)
    with (sign s * bpow E * IZR (Zpos m * 2 ^ (e - E) - Zpos M))
    by (rewrite minus_IZR, mult_IZR; ring).
  rewrite !Rabs_mult.
  rewrite Rabs_sign.
  rewrite (Rabs_pos_eq (bpow E)) by (left; apply bpow_pos).
  rewrite <- abs_IZR.
  apply IZR_le in H. rewrite mult_IZR in H.
  change (IZR (2 ^ 52)) with 4503599627370496 in H.
  pose proof (bpow_pos E) as HE.
  set (a := IZR (Z.abs (Zpos m * 2 ^ (e - E) - Zpos M))) in *.
  set (b := IZR (Zpos M)) in *.
  apply Rmult_le_reg_l with 4503599627370496; [lra|].
  replace (4503599627370496 * (b * bpow E / 4503599627370496))
    with (b * bpow E) by (field).
  replace (4503599627370496 * (1 * bpow E * a))
    with (bpow E * (4503599627370496 * a)) by ring.
  rewrite (Rmult_comm b). apply Rmult_le_compat_l; lra.
Qed.

Lemma mul_normal (sx sy : bool) (mx my : positive) (ex ey : Z) :
  normal mx -> normal my -> (-1126 <= ex + ey <= 917)%Z ->
  exists (m : positive) (e : Z),
    mul (S754_finite sx mx ex) (S754_finite sy my ey)
    = S754_finite (xorb sx sy) m e
    /\ normal m
    /\ (ex + ey <= e <= ex + ey + 54)%Z
    /\ Rabs (to_R (S754_finite (xorb sx sy) m e)
             - to_R (S754_finite sx mx ex) * to_R (S754_finite sy my ey))
       <= Rabs (to_R (S754_finite sx mx ex) * to_R (S754_finite sy my ey))
          / 4503599627370496.
Proof.
  intros Hx Hy He. unfold normal in *.
  assert (HM : (2 ^ 104 <= Zpos (mx * my) < 2 ^ 106)%Z).
  { rewrite Pos2Z.inj_mul.
    change (2 ^ 104)%Z with (2 ^ 52 * 2 ^ 52)%Z.
    change (2 ^ 106)%Z with (2 ^ 53 * 2 ^ 53)%Z. nia. }
  pose proof (digits2_pos_bounds (mx * my)) as [Dlo Dhi].
  assert (Hd : (105 <= Zpos (digits2_pos (mx * my)) <= 106)%Z).
  { split.
    - destruct (Z_lt_le_dec (Zpos (digits2_pos (mx * my))) 105) as [H | H];
        [|exact H].
      assert (2 ^ Zpos (digits2_pos (mx * my)) <= 2 ^ 104)%Z
        by (apply Z.pow_le_mono_r; lia).
      lia.
    - destruct (Z_lt_le_dec 106 (Zpos (digits2_pos (mx * my)))) as [H | H];
        [|exact H].
      assert (2 ^ 106 <= 2 ^ (Zpos (digits2_pos (mx * my)) - 1))%Z
        by (apply Z.pow_le_mono_r; lia).
      lia. }
  destruct (round_aux_normal (xorb sx sy) (mx * my) (ex + ey))
    as (m & e & Hr & Hm & Hee & Herr).
  { apply Z.le_trans with 105%Z; [lia | exact (proj1 Hd)]. }
  { clear Dlo Dhi HM. set (d := Zpos (digits2_pos (mx * my))) in *.
    clearbody d. lia. }
  assert (Hee' : (ex + ey <= e <= ex + ey + 54)%Z).
  { clear Dlo Dhi HM Herr Hr. set (d := Zpos (digits2_pos (mx * my))) in *.
    clearbody d. lia. }
  exists m, e. cbn [mul SFmul]. unfold mul. cbn [SFmul].
  split; [exact Hr|]. split; [exact Hm|]. split; [exact Hee'|].
  pose proof (round_error (xorb sx sy) m (mx * my) e (ex + ey)
                (proj1 Hee) Herr) as H.
  rewrite !to_R_finite in *.
  replace (sign sx * IZR (Zpos mx) * bpow ex
           * (sign sy * IZR (Zpos my) * bpow ey))
    with (sign (xorb sx sy) * IZR (Zpos (mx * my)) * bpow (ex + ey)).
  2:{ rewrite Pos2Z.inj_mul, mult_IZR, bpow_add.
      destruct sx, sy; cbn [xorb sign]; ring. }
  replace (Rabs (sign (xorb sx sy) * IZR (Zpos (mx * my)) * bpow (ex + ey)))
    with (IZR (Zpos (mx * my)) * bpow (ex + ey)).
  2:{ rewrite !Rabs_mult.
      rewrite (Rabs_pos_eq (bpow _)) by (left; apply bpow_pos).
      rewrite (Rabs_pos_eq (IZR _)) by (apply IZR_le; lia).
      rewrite Rabs_sign. ring. }
  exact H.
Qed.


Lemma iter_xO_value (m d : positive) :
  Zpos (Pos.iter xO m d) = (Zpos m * 2 ^ Zpos d)%Z.
Proof.
  induction d as [ | d IH] using Pos.peano_ind.
  - cbn [Pos.iter]. rewrite (Pos2Z.inj_xO m). change (2 ^ 1)%Z with 2%Z. ring.
  - rewrite Pos.iter_succ. rewrite (Pos2Z.inj_xO (Pos.iter xO m d)), IH.
    rewrite Pos2Z.inj_succ, Z.pow_succ_r by lia. ring.
Qed.

Lemma shl_align_spec (m : positive) (e f : Z) :
  snd (shl_align m e f) = Z.min e f
  /\ Zpos (fst (shl_align m e f))
     = (Zpos m * 2 ^ (e - snd (shl_align m e f)))%Z.
Proof.
  unfold shl_align. destruct (f - e)%Z as [ | d | d] eqn:E; cbn [fst snd].
  - split; [lia|]. rewrite Z.sub_diag. cbn. lia.
  - split; [lia|]. rewrite Z.sub_diag. cbn. lia.
  - split; [lia|]. rewrite iter_xO_value. do 2 f_equal. lia.
Qed.


(** Rounding a mantissa of any length, in the range of the normal numbers. *)
Lemma binary_round_normal (s : bool) (D : positive) (ez : Z) :
  (-1021 <= Zpos (digits2_pos D) + ez <= 1023)%Z ->
  exists (m : positive) (e : Z),
    binary_round prec emax s D ez = S754_finite s m e
    /\ Rabs (to_R (S754_finite s m e) - sign s * IZR (Zpos D) * bpow ez)
       <= IZR (Zpos D) * bpow ez / 4503599627370496.
Proof.
  intros Hr. unfold binary_round.
  pose proof (digits2_pos_bounds D) as [Dlo Dhi].
  set (d := Zpos (digits2_pos D)) in *.
  assert (Hd : (1 <= d)%Z) by (unfold d; lia).
  rewrite fexp_normal by lia.
  destruct (shl_align_spec D ez (d + ez - 53)) as [Hsz Hmz].
  destruct (shl_align D ez (d + ez - 53)) as [mz ez'].
  cbn [fst snd] in Hsz, Hmz. subst ez'.
  set (ez' := Z.min ez (d + ez - 53)) in *.
  assert (Hdz : Zpos (digits2_pos mz) = (d + (ez - ez'))%Z).
  { apply digits2_pos_unique. rewrite Hmz.
    replace (d + (ez - ez') - 1)%Z with ((d - 1) + (ez - ez'))%Z by lia.
    rewrite !Z.pow_add_r by (unfold ez'; lia).
    assert (0 < 2 ^ (ez - ez'))%Z
      by (apply Z.pow_pos_nonneg; unfold ez'; lia).
    nia. }
  destruct (round_aux_normal s mz ez')
    as (m & e & Hm & Hn & Hee & Herr).
  { rewrite Hdz. unfold ez'. lia. }
  { rewrite Hdz. unfold ez' in *. lia. }
  exists m, e. split; [exact Hm|].
  pose proof (round_error s m mz e ez' (proj1 Hee) Herr) as H.
  assert (Hv : IZR (Zpos mz) * bpow ez' = IZR (Zpos D) * bpow ez).
  { rewrite Hmz, mult_IZR.
    replace ez with (ez' + (ez - ez'))%Z at 2 by lia.
    rewrite bpow_add, (bpow_IZR (ez - ez')) by (unfold ez'; lia). ring. }
  rewrite <- Hv.
  replace (sign s * IZR (Zpos mz) * bpow ez')
    with (sign s * (IZR (Zpos mz) * bpow ez')) in H by ring.
  replace (sign s * IZR (Zpos D) * bpow ez)
    with (sign s * (IZR (Zpos D) * bpow ez)) by ring.
  rewrite <- Hv. exact H.
Qed.

(** The difference of two positive normal numbers. *)
Lemma sub_normal (mx my : positive) (ex ey : Z) :
  normal mx -> normal my ->
  (-1000 <= ex <= 900)%Z -> (-1000 <= ey <= 900)%Z ->
  exists r : float,
    sub (S754_finite false mx ex) (S754_finite false my ey) = r
    /\ is_finite r = true
    /\ Rabs (to_R r
             - (to_R (S754_finite false mx ex)
                - to_R (S754_finite false my ey)))
       <= Rabs (to_R (S754_finite false mx ex)
                - to_R (S754_finite false my ey))
          / 4503599627370496.
Proof.
  intros Hx Hy Hex Hey. unfold normal in *.
  unfold sub. cbn [SFsub cond_Zopp].
  set (ez := Z.min ex ey).
  destruct (shl_align_spec mx ex ez) as [Hsx Hax].
  destruct (shl_align_spec my ey ez) as [Hsy Hay].
  rewrite Hsx in Hax. rewrite Hsy in Hay.
  replace (Z.min ex ez) with ez in Hax by (unfold ez; lia).
  replace (Z.min ey ez) with ez in Hay by (unfold ez; lia).
  set (a := fst (shl_align mx ex ez)) in *.
  set (b := fst (shl_align my ey ez)) in *.
  assert (Hvx : to_R (S754_finite false mx ex) = IZR (Zpos a) * bpow ez).
  { rewrite to_R_finite, Hax, mult_IZR. cbn [sign].
    replace ex with (ez + (ex - ez))%Z at 1 by lia.
    rewrite bpow_add, (bpow_IZR (ex - ez)) by (unfold ez; lia). ring. }
  assert (Hvy : to_R (S754_finite false my ey) = IZR (Zpos b) * bpow ez).
  { rewrite to_R_finite, Hay, mult_IZR. cbn [sign].
    replace ey with (ez + (ey - ez))%Z at 1 by lia.
    rewrite bpow_add, (bpow_IZR (ey - ez)) by (unfold ez; lia). ring. }
  rewrite Hvx, Hvy.
  assert (Hdiff : IZR (Zpos a) * bpow ez - IZR (Zpos b) * bpow ez
                  = IZR (Zpos a - Zpos b) * bpow ez)
    by (rewrite minus_IZR; ring).
  rewrite Hdiff.
  assert (Ha : (Zpos a < 2 ^ (53 + (ex - ez)))%Z).
  { rewrite Hax, Z.pow_add_r by (unfold ez; lia).
    assert (0 < 2 ^ (ex - ez))%Z by (apply Z.pow_pos_nonneg; unfold ez; lia).
    nia. }
  assert (Hb : (Zpos b < 2 ^ (53 + (ey - ez)))%Z).
  { rewrite Hay, Z.pow_add_r by (unfold ez; lia).
    assert (0 < 2 ^ (ey - ez))%Z by (apply Z.pow_pos_nonneg; unfold ez; lia).
    nia. }
  assert (Hdig : forall D : positive,
             (Zpos D < Zpos a \/ Zpos D < Zpos b)%Z ->
             (-1021 <= Zpos (digits2_pos D) + ez <= 1023)%Z).
  { intros D HD. pose proof (digits2_pos_bounds D) as [Dlo Dhi].
    assert (Hk : (Zpos D < 2 ^ (53 + (Z.max ex ey - ez)))%Z).
    { assert (2 ^ (53 + (ex - ez)) <= 2 ^ (53 + (Z.max ex ey - ez)))%Z
        by (apply Z.pow_le_mono_r; unfold ez; lia).
      assert (2 ^ (53 + (ey - ez)) <= 2 ^ (53 + (Z.max ex ey - ez)))%Z
        by (apply Z.pow_le_mono_r; unfold ez; lia).
      lia. }
    assert (Zpos (digits2_pos D) <= 53 + (Z.max ex ey - ez))%Z.
    { destruct (Z_lt_le_dec (53 + (Z.max ex ey - ez)) (Zpos (digits2_pos D)))
        as [H | H]; [|exact H].
      assert (2 ^ (53 + (Z.max ex ey - ez))
              <= 2 ^ (Zpos (digits2_pos D) - 1))%Z
        by (apply Z.pow_le_mono_r; lia).
      lia. }
    unfold ez in *. lia. }
  pose proof (bpow_pos ez) as Hez.
  destruct (Zpos a - Zpos b)%Z as [ | D | D] eqn:ED.
  - exists (S754_zero false). split; [reflexivity|]. split; [reflexivity|].
    rewrite to_R_zero. rewrite Rmult_0_l, Rminus_0_r, Rabs_R0. lra.
  - cbn [binary_normalize].
    destruct (binary_round_normal false D ez) as (m & e & Hr & Herr).
    { apply Hdig. lia. }
    exists (S754_finite false m e). split; [exact Hr|]. split; [reflexivity|].
    cbn [sign] in Herr.
    rewrite (Rabs_pos_eq (IZR (Zpos D) * bpow ez))
      by (apply Rmult_le_pos; [apply IZR_le; lia | lra]).
    replace (1 * IZR (Zpos D) * bpow ez) with (IZR (Zpos D) * bpow ez) in Herr
      by ring.
    exact Herr.
  - cbn [binary_normalize].
    destruct (binary_round_normal true D ez) as (m & e & Hr & Herr).
    { apply Hdig. lia. }
    exists (S754_finite true m e). split; [exact Hr|]. split; [reflexivity|].
    cbn [sign] in Herr.
    replace (IZR (Zneg D)) with (- IZR (Zpos D))
      by (rewrite <- opp_IZR; reflexivity).
    replace (- IZR (Zpos D) * bpow ez) with (- (IZR (Zpos D) * bpow ez))
      by ring.
    rewrite Rabs_Ropp.
    rewrite (Rabs_pos_eq (IZR (Zpos D) * bpow ez))
      by (apply Rmult_le_pos; [apply IZR_le; lia | lra]).
    replace (-1 * IZR (Zpos D) * bpow ez)
      with (- (IZR (Zpos D) * bpow ez)) in Herr by ring.
    exact Herr.
Qed.

(** A double in canonical form with a value in [2^(k-1), 2^k). *)
Lemma valid_between (y : float) (k : Z) (lo hi : R) :
  valid_binary prec emax y = true ->
  (-1021 <= k)%Z ->
  bpow (k - 1) <= lo -> hi < bpow k -> lo <= to_R y <= hi ->
  exists m : positive, y = S754_finite false m (k - 53) /\ normal m.
Proof.
  intros Hv Hk Hlo Hhi [Hy1 Hy2].
  pose proof (bpow_pos (k - 1)) as Hk0.
  destruct y as [s | s | | s m e];
    try (unfold to_R, to_Q in Hy1; rewrite RMicromega.Q2R_0 in Hy1; lra).
  rewrite to_R_finite in Hy1, Hy2.
  pose proof (bpow_pos e) as He0.
  assert (Hm0 : 0 < IZR (Zpos m)) by (apply IZR_lt; lia).
  destruct s; cbn [sign] in Hy1, Hy2; [nra|].
  cbn [valid_binary] in Hv. unfold bounded, canonical_mantissa in Hv.
  apply andb_true_iff in Hv. destruct Hv as [Hc He].
  apply Z.eqb_eq in Hc. apply Z.leb_le in He.
  unfold fexp, emin, emax, prec in Hc, He.
  pose proof (digits2_pos_bounds m) as [Dlo Dhi].
  set (d := Zpos (digits2_pos m)) in *.
  assert (Hval : bpow (d - 1 + e) <= IZR (Zpos m) * bpow e < bpow (d + e)).
  { rewrite !bpow_add. rewrite (bpow_IZR (d - 1)), (bpow_IZR d) by (unfold d; lia).
    apply IZR_le in Dlo. apply IZR_lt in Dhi. nra. }
  assert (Hde : (d + e = k)%Z).
  { destruct (Z_lt_le_dec (d + e) k) as [H1 | H1].
    { pose proof (bpow_le (d + e) (k - 1) ltac:(lia)). lra. }
    destruct (Z_lt_le_dec k (d + e)) as [H2 | H2].
    { pose proof (bpow_le k (d - 1 + e) ltac:(lia)). lra. }
    lia. }
  assert (Hd : d = 53%Z) by lia.
  exists m. split; [f_equal; lia|].
  unfold normal. rewrite Hd in Dlo, Dhi. change (53 - 1)%Z with 52%Z in Dlo.
  lia.
Qed.


Lemma bpow_neg (p : positive) : bpow (Zneg p) = / IZR (2 ^ Zpos p).
Proof.
  change (Zneg p) with (- Zpos p)%Z. rewrite bpow_opp, bpow_IZR by lia.
  reflexivity.
Qed.

Lemma to_R_eval (x : float) (q : Q) : to_Q x = q -> to_R x = Q2R q.
Proof. intros <-. reflexivity. Qed.

Lemma Rabs_le_between (x a : R) : Rabs x <= a -> - a <= x <= a.
Proof. unfold Rabs. destruct (Rcase_abs x); lra. Qed.





(** A double within [tol] of a number between 1/2 and 1. *)
Lemma within_form (tol : R) (y : float) (v lo hi : R) :
  within tol y v -> 1 / 2 <= lo -> hi < 1 -> lo <= v - tol -> v + tol <= hi ->
  exists m : positive,
    y = S754_finite false m (-53) /\ normal m
    /\ lo <= to_R (S754_finite false m (-53)) <= hi.
Proof.
  intros (Hv & _ & H) Hlo Hhi H1 H2. apply Rabs_le_between in H.
  destruct (valid_between y 0 lo hi Hv) as (m & Hy & Hm).
  - lia.
  - change (0 - 1)%Z with (-1)%Z. rewrite bpow_neg.
    change (2 ^ 1)%Z with 2%Z. lra.
  - change (bpow 0) with 1. exact Hhi.
  - lra.
  - exists m. change (0 - 53)%Z with (-53)%Z in Hy.
    split; [exact Hy|]. split; [exact Hm|]. rewrite <- Hy. lra.
Qed.

End B64Round.

(** ** Facts about exact arithmetic *)

Module ExactFacts.

Local Open Scope R_scope.

Lemma exact_lit_zero : Q2R 0 = 0.
Proof. unfold Q2R; simpl; lra. Qed.

Lemma exact_lit_half : Q2R 0.5 = 1 / 2.
Proof. unfold Q2R; simpl; lra. Qed.

Lemma exact_maximum_zero (Phi : R -> R) (a : R) :
  maximum (A := exact Phi) a (Q2R 0) = Rmax a 0.
Proof.
  rewrite exact_lit_zero. unfold maximum, Rmax; cbn. unfold Rbool.
  destruct (Rlt_dec 0 a), (Rle_dec a 0); simpl; lra.
Qed.

Lemma exact_mul_neg_l (x y : R) : - x * y = - (x * y).
Proof. ring. Qed.

Lemma pow_overflow_never (Phi : R -> R) (sigma : scalar R) :
  pow_overflow (A := exact Phi) sigma = false.
Proof. destruct sigma; reflexivity. Qed.

Lemma zero_division_nonzero (Phi : R -> R) (S K : scalar R) :
  val K <> 0 -> zero_division (A := exact Phi) S K = false.
Proof.
  intros H. destruct S, K; try reflexivity. cbn in *. unfold Rbool.
  destruct (Req_dec_T x0 0); [contradiction | reflexivity].
Qed.

End ExactFacts.

(** ** Which exception, and when *)

Section Errors.

Context {num : Type} {A : Arith num}.

Implicit Types (S K T r sigma : scalar num) (v : value num).

(** Every outcome of [black_scholes] with its cause. *)
Lemma black_scholes_cases S K T r sigma (option_type : string) :
  match black_scholes S K T r sigma (Some option_type) with
  | Raise ZeroDivisionError => zero_division S K = true
  | Raise OverflowError =>
      zero_division S K = false /\ pow_overflow sigma = true
  | Raise (ValueError _) =>
      zero_division S K = false /\ pow_overflow sigma = false /\
      valid_option_type option_type = false
  | Return _ =>
      zero_division S K = false /\ pow_overflow sigma = false /\
      valid_option_type option_type = true
  end.
Proof.
  unfold black_scholes, with_default, valid_option_type.
  rewrite py_div_outcome.
  destruct (zero_division S K); [reflexivity|]. cbn [bind].
  rewrite py_pow2_outcome.
  destruct (pow_overflow sigma); [split; reflexivity|]. cbn [bind].
  rewrite py_div_outcome.
  replace (zero_division _ _) with false by (destruct S, K, T, r, sigma; reflexivity).
  cbn [bind].
  destruct (option_type =? "call")%string; [repeat split|].
  destruct (option_type =? "put")%string; repeat split.
Qed.

Lemma black_scholes_returns_iff S K T r sigma (option_type : string) :
  (exists p, black_scholes S K T r sigma (Some option_type) = Return p) <->
  (option_type = "call"%string \/ option_type = "put"%string) /\
  zero_division S K = false /\ pow_overflow sigma = false.
Proof.
  rewrite <- valid_option_type_iff.
  pose proof (black_scholes_cases S K T r sigma option_type) as H.
  destruct (black_scholes S K T r sigma (Some option_type)) as [p | [msg | | ]].
  - split; [tauto | intros _; eauto].
  - split; [intros [p Hp]; discriminate|].
    destruct H as (_ & _ & H). rewrite H. intros [? _]; discriminate.
  - split; [intros [p Hp]; discriminate|].
    rewrite H. intros (_ & ? & _); discriminate.
  - split; [intros [p Hp]; discriminate|].
    destruct H as (_ & H). rewrite H. intros (_ & _ & ?); discriminate.
Qed.

Lemma black_scholes_ValueError_iff S K T r sigma (option_type : string) :
  (exists msg,
      black_scholes S K T r sigma (Some option_type) = Raise (ValueError msg))
  <->
  (option_type <> "call"%string /\ option_type <> "put"%string) /\
  zero_division S K = false /\ pow_overflow sigma = false.
Proof.
  rewrite <- invalid_option_type_iff.
  pose proof (black_scholes_cases S K T r sigma option_type) as H.
  destruct (black_scholes S K T r sigma (Some option_type)) as [p | [msg | | ]].
  - split; [intros [msg Hm]; discriminate|].
    destruct H as (_ & _ & H). rewrite H. intros [? _]; discriminate.
  - split; [tauto | intros _; eauto].
  - split; [intros [msg Hm]; discriminate|].
    rewrite H. intros (_ & ? & _); discriminate.
  - split; [intros [msg Hm]; discriminate|].
    destruct H as (_ & H). rewrite H. intros (_ & _ & ?); discriminate.
Qed.

Lemma black_scholes_ZeroDivisionError_iff S K T r sigma (option_type : string) :
  black_scholes S K T r sigma (Some option_type) = Raise ZeroDivisionError <->
  zero_division S K = true.
Proof.
  pose proof (black_scholes_cases S K T r sigma option_type) as H.
  destruct (black_scholes S K T r sigma (Some option_type)) as [p | [msg | | ]].
  - destruct H as (H & _). rewrite H. split; discriminate.
  - destruct H as (H & _). rewrite H. split; discriminate.
  - tauto.
  - destruct H as (H & _). rewrite H. split; discriminate.
Qed.

Lemma black_scholes_OverflowError_iff S K T r sigma (option_type : string) :
  black_scholes S K T r sigma (Some option_type) = Raise OverflowError <->
  zero_division S K = false /\ pow_overflow sigma = true.
Proof.
  pose proof (black_scholes_cases S K T r sigma option_type) as H.
  destruct (black_scholes S K T r sigma (Some option_type)) as [p | [msg | | ]].
  - destruct H as (_ & H & _). rewrite H. split; [|intros [_ ?]]; discriminate.
  - destruct H as (_ & H & _). rewrite H. split; [|intros [_ ?]]; discriminate.
  - rewrite H. split; [|intros [? _]]; discriminate.
  - tauto.
Qed.

Lemma option_payoff_ValueError_iff v K (option_type : string) :
  (exists msg, option_payoff v K (Some option_type) = Raise (ValueError msg)) <->
  option_type <> "call"%string /\ option_type <> "put"%string.
Proof.
  rewrite <- invalid_option_type_iff, option_payoff_outcome.
  unfold valid_option_type.
  destruct (option_type =? "call")%string; cbn [orb].
  { split; [intros [msg H]|intros H]; discriminate. }
  destruct (option_type =? "put")%string.
  { split; [intros [msg H]|intros H]; discriminate. }
  split; eauto.
Qed.

Lemma option_payoff_returns_iff v K (option_type : string) :
  (exists w, option_payoff v K (Some option_type) = Return w) <->
  option_type = "call"%string \/ option_type = "put"%string.
Proof.
  rewrite <- valid_option_type_iff, option_payoff_outcome.
  unfold valid_option_type.
  destruct (option_type =? "call")%string; cbn [orb].
  { split; eauto. }
  destruct (option_type =? "put")%string.
  { split; eauto. }
  split; [intros [w H]|intros H]; discriminate.
Qed.

End Errors.

(** C10.  The omitted [option_type] is "call", in both functions: a call
    without it is the call with "call". *)
Theorem default_option_type_is_call :
  forall (num : Type) (A : Arith num)
         (S K T r sigma : scalar num) (v : value num),
    black_scholes S K T r sigma None
    = black_scholes S K T r sigma (Some "call"%string)
    /\ option_payoff v K None = option_payoff v K (Some "call"%string).
Proof. intros; split; reflexivity. Qed.

(** C3, as the code has it.  [option_payoff] raises ValueError exactly when
    [option_type] is neither "call" nor "put", and returns otherwise.
    [black_scholes] evaluates d1 before it looks at [option_type]: on Python
    floats S and K with K == 0 it raises ZeroDivisionError, and otherwise, on
    a finite Python float sigma whose square overflows, OverflowError,
    whatever [option_type] is.  On all other operands it raises ValueError
    exactly when [option_type] is neither "call" nor "put", and returns for
    "call" and for "put". *)
Theorem exceptions_characterised :
  forall (num : Type) (A : Arith num)
         (S K T r sigma : scalar num) (v : value num) (option_type : string),
    let invalid := option_type <> "call"%string /\ option_type <> "put"%string in
    let valid := option_type = "call"%string \/ option_type = "put"%string in
    let bs := black_scholes S K T r sigma (Some option_type) in
    let po := option_payoff v K (Some option_type) in
    ((exists msg, po = Raise (ValueError msg)) <-> invalid)
    /\ ((exists w, po = Return w) <-> valid)
    /\ (bs = Raise ZeroDivisionError <-> zero_division S K = true)
    /\ (bs = Raise OverflowError <->
        zero_division S K = false /\ pow_overflow sigma = true)
    /\ ((exists msg, bs = Raise (ValueError msg)) <->
        invalid /\ zero_division S K = false /\ pow_overflow sigma = false)
    /\ ((exists p, bs = Return p) <->
        valid /\ zero_division S K = false /\ pow_overflow sigma = false).
Proof.
  intros. subst invalid valid bs po.
  split; [apply option_payoff_ValueError_iff|].
  split; [apply option_payoff_returns_iff|].
  split; [apply black_scholes_ZeroDivisionError_iff|].
  split; [apply black_scholes_OverflowError_iff|].
  split; [apply black_scholes_ValueError_iff|].
  apply black_scholes_returns_iff.
Qed.

Lemma exceptions_characterised_witness :
  (exists msg,
      black_scholes (A := binary64 Crude.libm)
        (Py (B64.lit 100)) (Py (B64.lit 100)) (Py (B64.lit 1.0))
        (Py (B64.lit 0.05)) (Py (B64.lit 0.20)) (Some "straddle"%string)
      = Raise (ValueError msg))
  /\ (exists p,
         black_scholes (A := binary64 Crude.libm)
           (Py (B64.lit 100)) (Py (B64.lit 100)) (Py (B64.lit 1.0))
           (Py (B64.lit 0.05)) (Py (B64.lit 0.20)) (Some "put"%string)
         = Return p).
Proof.
  split.
  - apply (exceptions_characterised B64.float (binary64 Crude.libm)
             (Py (B64.lit 100)) (Py (B64.lit 100)) (Py (B64.lit 1.0))
             (Py (B64.lit 0.05)) (Py (B64.lit 0.20))
             (Scalar (Py (B64.lit 100))) "straddle"%string).
    repeat split; try discriminate; vm_compute; reflexivity.
  - apply (exceptions_characterised B64.float (binary64 Crude.libm)
             (Py (B64.lit 100)) (Py (B64.lit 100)) (Py (B64.lit 1.0))
             (Py (B64.lit 0.05)) (Py (B64.lit 0.20))
             (Scalar (Py (B64.lit 100))) "put"%string).
    repeat split; try (right; reflexivity); vm_compute; reflexivity.
Defined.

(** C3 does not hold as it is written.  With a zero strike the quotient S / K
    of two Python floats raises before [option_type] is looked at: the
    unknown type "straddle" gets a ZeroDivisionError, not a ValueError, and
    the known type "put" raises as well. *)
Lemma zero_strike_raises_ZeroDivisionError :
  let bs :=
    black_scholes (A := binary64 Crude.libm)
      (Py (B64.lit 100)) (Py (B64.lit 0)) (Py (B64.lit 1.0))
      (Py (B64.lit 0.05)) (Py (B64.lit 0.20)) in
  bs (Some "straddle"%string) = Raise ZeroDivisionError
  /\ (forall msg, bs (Some "straddle"%string) <> Raise (ValueError msg))
  /\ bs (Some "put"%string) = Raise ZeroDivisionError.
Proof.
  cbv zeta. repeat split; try reflexivity. intros msg; discriminate.
Qed.

(** The exception does not depend on the library: no function of libm or
    SciPy is reached. *)
Lemma zero_strike_any_library :
  forall (L : B64.Libm) (x : B64.float) (T r sigma : scalar B64.float)
         (arg : option string),
    black_scholes (A := binary64 L) (Py x) (Py (B64.lit 0)) T r sigma arg
    = Raise ZeroDivisionError.
Proof. reflexivity. Qed.

(** The closed form in binary64: every operation of the formula is the
    rounded one, and [(-r) * T] is [-(r * T)] to the last bit. *)
Lemma closed_form_binary64 (L : B64.Libm) (S K T r sigma : scalar B64.float) :
  zero_division (A := binary64 L) S K = false ->
  pow_overflow (A := binary64 L) sigma = false ->
  black_scholes (A := binary64 L) S K T r sigma (Some "call"%string)
  = Return (Np (spec_call (A := binary64 L)
                  (val S) (val K) (val T) (val r) (val sigma)))
  /\ black_scholes (A := binary64 L) S K T r sigma (Some "put"%string)
     = Return (Np (spec_put (A := binary64 L)
                     (val S) (val K) (val T) (val r) (val sigma))).
Proof.
  intros Hz Ho.
  rewrite !(black_scholes_outcome (A := binary64 L) B64Facts.b64_mul_neg_l).
  rewrite Hz, Ho. split; reflexivity.
Qed.

(** The closed form over the reals. *)
Lemma closed_form_exact (Phi : R -> R) (pS pK pT pr psigma : scalar R) :
  let S := val pS in
  let K := val pK in
  let T := val pT in
  let r := val pr in
  let sigma := val psigma in
  let d1 := ((ln (S / K) + (r + 1 / 2 * (sigma * sigma)) * T)
             / (sigma * sqrt T))%R in
  let d2 := (d1 - sigma * sqrt T)%R in
  K <> 0%R ->
  black_scholes (A := exact Phi) pS pK pT pr psigma (Some "call"%string)
  = Return (Np (S * Phi d1 - K * exp (- (r * T)) * Phi d2)%R)
  /\ black_scholes (A := exact Phi) pS pK pT pr psigma (Some "put"%string)
     = Return (Np (K * exp (- (r * T)) * Phi (- d2) - S * Phi (- d1))%R).
Proof.
  intros S K T r sigma d1 d2 HK.
  rewrite !(black_scholes_outcome (A := exact Phi) ExactFacts.exact_mul_neg_l).
  rewrite (ExactFacts.zero_division_nonzero Phi pS pK HK).
  rewrite ExactFacts.pow_overflow_never.
  unfold spec_call, spec_put, spec_d2, spec_d1, spec_discounted.
  cbn. rewrite ExactFacts.exact_lit_half. split; reflexivity.
Qed.

(** C1, as the code has it.  Where the evaluation of d1 raises nothing (that
    is, unless S and K are Python floats with K == 0, or sigma is a finite
    Python float whose square overflows), [black_scholes] returns the closed
    form of the specification, for "call" and for "put": in binary64 with
    every operation rounded, and in exact arithmetic as the formula over the
    reals. *)
Theorem black_scholes_closed_form :
  (forall (L : B64.Libm) (S K T r sigma : scalar B64.float),
      zero_division (A := binary64 L) S K = false ->
      pow_overflow (A := binary64 L) sigma = false ->
      black_scholes (A := binary64 L) S K T r sigma (Some "call"%string)
      = Return (Np (spec_call (A := binary64 L)
                      (val S) (val K) (val T) (val r) (val sigma)))
      /\ black_scholes (A := binary64 L) S K T r sigma (Some "put"%string)
         = Return (Np (spec_put (A := binary64 L)
                         (val S) (val K) (val T) (val r) (val sigma))))
  /\ (forall (Phi : R -> R) (pS pK pT pr psigma : scalar R),
         let S := val pS in
         let K := val pK in
         let T := val pT in
         let r := val pr in
         let sigma := val psigma in
         let d1 := ((ln (S / K) + (r + 1 / 2 * (sigma * sigma)) * T)
                    / (sigma * sqrt T))%R in
         let d2 := (d1 - sigma * sqrt T)%R in
         K <> 0%R ->
         black_scholes (A := exact Phi) pS pK pT pr psigma (Some "call"%string)
         = Return (Np (S * Phi d1 - K * exp (- (r * T)) * Phi d2)%R)
         /\ black_scholes (A := exact Phi) pS pK pT pr psigma (Some "put"%string)
            = Return (Np (K * exp (- (r * T)) * Phi (- d2)
                          - S * Phi (- d1))%R)).
Proof.
  split.
  - exact closed_form_binary64.
  - exact closed_form_exact.
Qed.

Lemma black_scholes_closed_form_witness :
  zero_division (A := binary64 Crude.libm)
    (Py (B64.lit 100)) (Py (B64.lit 100)) = false
  /\ pow_overflow (A := binary64 Crude.libm) (Py (B64.lit 0.20)) = false
  /\ black_scholes (A := binary64 Crude.libm)
       (Py (B64.lit 100)) (Py (B64.lit 100)) (Py (B64.lit 1.0))
       (Py (B64.lit 0.05)) (Py (B64.lit 0.20)) (Some "call"%string)
     = Return (Np (spec_call (A := binary64 Crude.libm)
                     (B64.lit 100) (B64.lit 100) (B64.lit 1.0)
                     (B64.lit 0.05) (B64.lit 0.20))).
Proof.
  split; [reflexivity|]. split; [vm_compute; reflexivity|].
  apply (proj1 black_scholes_closed_form Crude.libm
           (Py (B64.lit 100)) (Py (B64.lit 100)) (Py (B64.lit 1.0))
           (Py (B64.lit 0.05)) (Py (B64.lit 0.20))).
  - reflexivity.
  - vm_compute; reflexivity.
Defined.

(** C1 does not hold as it is written: with a zero strike the call on Python
    floats returns nothing, it raises ZeroDivisionError at S / K; and with a
    volatility of 1e200, whose square is beyond the largest double, it raises
    OverflowError at sigma ** 2. *)
Lemma call_raises_before_pricing :
  black_scholes (A := binary64 Crude.libm)
    (Py (B64.lit 100)) (Py (B64.lit 0)) (Py (B64.lit 1.0))
    (Py (B64.lit 0.05)) (Py (B64.lit 0.20)) (Some "call"%string)
  = Raise ZeroDivisionError
  /\ (forall p,
         black_scholes (A := binary64 Crude.libm)
           (Py (B64.lit 100)) (Py (B64.lit 0)) (Py (B64.lit 1.0))
           (Py (B64.lit 0.05)) (Py (B64.lit 0.20)) (Some "call"%string)
         <> Return p)
  /\ black_scholes (A := binary64 Crude.libm)
       (Py (B64.lit 100)) (Py (B64.lit 100)) (Py (B64.lit 1.0))
       (Py (B64.lit 0.05)) (Py (B64.lit (inject_Z (10 ^ 200))))
       (Some "call"%string)
     = Raise OverflowError.
Proof.
  split; [reflexivity|]. split; [intros p; discriminate|].
  vm_compute. reflexivity.
Qed.

(** ** The payoff *)

Section Payoff.

Context {num : Type} {A : Arith num}.

Lemma payoff_call_array (xs : list num) (K : scalar num) :
  option_payoff (NdArray xs) K (Some "call"%string)
  = Return (NdArray (map (fun x => maximum (num_sub x (val K)) (num_lit 0)) xs)).
Proof. cbn. rewrite map_map. reflexivity. Qed.

Lemma payoff_put_array (xs : list num) (K : scalar num) :
  option_payoff (NdArray xs) K (Some "put"%string)
  = Return (NdArray (map (fun x => maximum (num_sub (val K) x) (num_lit 0)) xs)).
Proof. cbn. rewrite map_map. reflexivity. Qed.

Lemma payoff_call_scalar (s K : scalar num) :
  option_payoff (Scalar s) K (Some "call"%string)
  = Return (Scalar (Np (maximum (num_sub (val s) (val K)) (num_lit 0)))).
Proof. cbn. unfold py_sub. rewrite val_lift2. reflexivity. Qed.

Lemma payoff_put_scalar (s K : scalar num) :
  option_payoff (Scalar s) K (Some "put"%string)
  = Return (Scalar (Np (maximum (num_sub (val K) (val s)) (num_lit 0)))).
Proof. cbn. unfold py_sub. rewrite val_lift2. reflexivity. Qed.

(** The elements of a result, whatever its shape, from the elements of the
    argument. *)
Lemma payoff_call_ydata (v : value num) (K : scalar num) :
  exists w,
    option_payoff v K (Some "call"%string) = Return w
    /\ ydata w
       = map (fun x => maximum (num_sub x (val K)) (num_lit 0)) (ydata v).
Proof.
  destruct v as [s | xs].
  - rewrite payoff_call_scalar. eexists; split; reflexivity.
  - rewrite payoff_call_array. eexists; split; reflexivity.
Qed.

Lemma payoff_put_ydata (v : value num) (K : scalar num) :
  exists w,
    option_payoff v K (Some "put"%string) = Return w
    /\ ydata w
       = map (fun x => maximum (num_sub (val K) x) (num_lit 0)) (ydata v).
Proof.
  destruct v as [s | xs].
  - rewrite payoff_put_scalar. eexists; split; reflexivity.
  - rewrite payoff_put_array. eexists; split; reflexivity.
Qed.

(** In the store: [option_payoff] leaves every array that exists where it
    is and as it is; an array it returns is at an address that was not in
    use; and what it returns is what the function on values returns. *)
Lemma option_payoff_in_outcome (h : store num) (S : operand num)
      (K : scalar num) (arg : option string) :
  match option_payoff_in h S K arg with
  | Return (o, h') =>
      (exists fresh : store num, h' = h ++ fresh)
      /\ (forall a : nat, a < length h -> nth a h' [] = nth a h [])%nat
      /\ (forall a : nat, o = Array a -> length h <= a)%nat
      /\ option_payoff (load h S) K arg = Return (load h' o)
  | Raise e => option_payoff (load h S) K arg = Raise e
  end.
Proof.
  unfold option_payoff_in, option_payoff.
  assert (Hnew : forall (v : value num) (g : store num),
             load (snd (allocate v g)) (fst (allocate v g)) = v).
  { intros [s | xs] g; cbn; [reflexivity|].
    rewrite nth_middle. reflexivity. }
  assert (Hext : forall (v : value num) (g : store num),
             exists fresh, snd (allocate v g) = g ++ fresh).
  { intros [s | xs] g; cbn; [exists []; rewrite app_nil_r | exists [xs]];
      reflexivity. }
  assert (Hadr : forall (v : value num) (g : store num) (a : nat),
             fst (allocate v g) = Array a -> a = length g).
  { intros [s | xs] g a; cbn; [discriminate|]. intros E. injection E. auto. }
  assert (Hrun : forall v : value num,
             match
               (let (d, h1) := allocate v h in
                Return (allocate (np_maximum (load h1 d) (num_lit 0)) h1))
             with
             | Return (o, h') =>
                 (exists fresh : store num, h' = h ++ fresh)
                 /\ (forall a : nat,
                        a < length h -> nth a h' [] = nth a h [])%nat
                 /\ (forall a : nat, o = Array a -> length h <= a)%nat
                 /\ Return (A := value num) (np_maximum v (num_lit 0))
                    = Return (load h' o)
             | Raise e =>
                 Return (A := value num) (np_maximum v (num_lit 0)) = Raise e
             end).
  { intros v.
    pose proof (Hnew v h) as E1. destruct (Hext v h) as [f1 F1].
    destruct (allocate v h) as [d h1]. cbn [fst snd] in E1, F1.
    rewrite E1.
    pose proof (Hnew (np_maximum v (num_lit 0)) h1) as E2.
    destruct (Hext (np_maximum v (num_lit 0)) h1) as [f2 F2].
    pose proof (Hadr (np_maximum v (num_lit 0)) h1) as A2.
    destruct (allocate (np_maximum v (num_lit 0)) h1) as [o h2].
    cbn [fst snd] in E2, F2, A2.
    assert (F : h2 = h ++ (f1 ++ f2)) by (rewrite F2, F1, app_assoc; reflexivity).
    split; [exists (f1 ++ f2); exact F|]. split; [|split].
    - intros a Ha. rewrite F. apply app_nth1. exact Ha.
    - intros a Ho. rewrite (A2 a Ho), F1, length_app. lia.
    - rewrite E2. reflexivity. }
  destruct (with_default "call" arg =? "call")%string; [apply Hrun|].
  destruct (with_default "call" arg =? "put")%string; [apply Hrun|].
  reflexivity.
Qed.

End Payoff.

(** C2.  On an array S and a scalar K, [option_payoff] returns the array of
    max(S - K, 0) for "call" and of max(K - S, 0) for "put", and on a scalar
    S the one value.  In binary64 the maximum is that of the order, and a
    zero result is 0.0 whatever the sign of the difference; in exact
    arithmetic it is the maximum of two reals.  The function has no side
    effect on the arrays around it: every array that exists when it is
    called is afterwards where it was and as it was, and an array it returns
    is a new one.  The three values of the specification come out exactly. *)
Theorem option_payoff_elementwise :
  (forall (L : B64.Libm) (xs : list B64.float) (s K : scalar B64.float),
      option_payoff (A := binary64 L) (NdArray xs) K (Some "call"%string)
      = Return
          (NdArray
             (map (fun x =>
                     B64.positive_zero
                       (spec_payoff_call (A := binary64 L) (val K) x)) xs))
      /\ option_payoff (A := binary64 L) (NdArray xs) K (Some "put"%string)
         = Return
             (NdArray
                (map (fun x =>
                        B64.positive_zero
                          (spec_payoff_put (A := binary64 L) (val K) x)) xs))
      /\ option_payoff (A := binary64 L) (Scalar s) K (Some "call"%string)
         = Return
             (Scalar
                (Np (B64.positive_zero
                       (spec_payoff_call (A := binary64 L) (val K) (val s)))))
      /\ option_payoff (A := binary64 L) (Scalar s) K (Some "put"%string)
         = Return
             (Scalar
                (Np (B64.positive_zero
                       (spec_payoff_put (A := binary64 L) (val K) (val s))))))
  /\ (forall m : B64.float,
         (B64.positive_zero m = m
          \/ (m = S754_zero true /\ B64.positive_zero m = S754_zero false))
         /\ (B64.is_nan m = false -> SFeqb (B64.positive_zero m) m = true))
  /\ (forall (Phi : R -> R) (xs : list R) (K : scalar R),
         option_payoff (A := exact Phi) (NdArray xs) K (Some "call"%string)
         = Return (NdArray (map (fun S => Rmax (S - val K) 0) xs))
         /\ option_payoff (A := exact Phi) (NdArray xs) K (Some "put"%string)
            = Return (NdArray (map (fun S => Rmax (val K - S) 0) xs)))
  /\ (forall (num : Type) (A : Arith num) (h : store num) (S : operand num)
             (K : scalar num) (arg : option string),
         match option_payoff_in h S K arg with
         | Return (o, h') =>
             (exists fresh : store num, h' = h ++ fresh)
             /\ (forall a : nat, a < length h -> nth a h' [] = nth a h [])%nat
             /\ (forall a : nat, o = Array a -> length h <= a)%nat
             /\ option_payoff (load h S) K arg = Return (load h' o)
         | Raise e => option_payoff (load h S) K arg = Raise e
         end)
  /\ (forall L : B64.Libm,
         option_payoff (A := binary64 L)
           (Scalar (Py (B64.lit 120))) (Py (B64.lit 100)) (Some "call"%string)
         = Return (Scalar (Np (B64.lit 20)))
         /\ option_payoff (A := binary64 L)
              (Scalar (Py (B64.lit 80))) (Py (B64.lit 100)) (Some "call"%string)
            = Return (Scalar (Np (B64.lit 0)))
         /\ option_payoff (A := binary64 L)
              (Scalar (Py (B64.lit 80))) (Py (B64.lit 100)) (Some "put"%string)
            = Return (Scalar (Np (B64.lit 20)))
         /\ option_payoff (A := binary64 L)
              (NdArray [B64.lit 120; B64.lit 80]) (Py (B64.lit 100))
              (Some "call"%string)
            = Return (NdArray [B64.lit 20; B64.lit 0])).
Proof.
  split; [|split; [|split; [|split]]].
  - intros L xs s K.
    rewrite payoff_call_array, payoff_put_array,
      payoff_call_scalar, payoff_put_scalar.
    unfold spec_payoff_call, spec_payoff_put.
    split; [|split; [|split]].
    + do 2 f_equal. apply map_ext; intros x. apply (B64Facts.b64_maximum_zero L).
    + do 2 f_equal. apply map_ext; intros x. apply (B64Facts.b64_maximum_zero L).
    + do 3 f_equal. apply (B64Facts.b64_maximum_zero L).
    + do 3 f_equal. apply (B64Facts.b64_maximum_zero L).
  - intros m. split; [|apply B64Facts.positive_zero_same_number].
    destruct m as [[ | ] | | | ]; auto.
  - intros Phi xs K.
    rewrite payoff_call_array, payoff_put_array.
    split; do 2 f_equal; apply map_ext; intros x;
      apply (ExactFacts.exact_maximum_zero Phi).
  - intros num A h S K arg. apply option_payoff_in_outcome.
  - intros L. repeat split; vm_compute; reflexivity.
Qed.

(** C9, as the code has it.  For "call" and for "put", no element of the
    payoff is below zero, and an element x satisfies 0 <= x exactly when the
    difference it is the maximum of is not a NaN: a NaN difference (a NaN
    spot price or strike, or two infinities of one sign) gives a NaN payoff,
    and a NaN is not clamped.  So with finite spot prices and a finite strike
    every element is at least 0.  In exact arithmetic every element is
    non-negative. *)
Theorem payoff_nonnegative :
  (forall (L : B64.Libm) (v : value B64.float) (K : scalar B64.float),
      exists call put : value B64.float,
        option_payoff (A := binary64 L) v K (Some "call"%string) = Return call
        /\ option_payoff (A := binary64 L) v K (Some "put"%string) = Return put
        /\ Forall (fun x => B64.ltb x (B64.lit 0) = false) (ydata call)
        /\ Forall (fun x => B64.ltb x (B64.lit 0) = false) (ydata put)
        /\ map (B64.leb (B64.lit 0)) (ydata call)
           = map (fun s => negb (B64.is_nan (B64.sub s (val K)))) (ydata v)
        /\ map (B64.leb (B64.lit 0)) (ydata put)
           = map (fun s => negb (B64.is_nan (B64.sub (val K) s))) (ydata v)
        /\ (Forall (fun s => B64.is_finite s = true) (ydata v) ->
            B64.is_finite (val K) = true ->
            Forall (fun x => B64.leb (B64.lit 0) x = true) (ydata call)
            /\ Forall (fun x => B64.leb (B64.lit 0) x = true) (ydata put)))
  /\ (forall (Phi : R -> R) (v : value R) (K : scalar R) (option_type : string),
         option_type = "call"%string \/ option_type = "put"%string ->
         exists w,
           option_payoff (A := exact Phi) v K (Some option_type) = Return w
           /\ Forall (fun x => (0 <= x)%R) (ydata w)).
Proof.
  split.
  - intros L v K.
    destruct (payoff_call_ydata (A := binary64 L) v K) as (wc & Hwc & Hyc).
    destruct (payoff_put_ydata (A := binary64 L) v K) as (wp & Hwp & Hyp).
    exists wc, wp. split; [exact Hwc|]. split; [exact Hwp|].
    rewrite Hyc, Hyp. rewrite !map_map.
    split; [|split; [|split; [|split]]].
    + apply Forall_map, Forall_forall. intros x _.
      apply (B64Facts.b64_maximum_zero_not_below L).
    + apply Forall_map, Forall_forall. intros x _.
      apply (B64Facts.b64_maximum_zero_not_below L).
    + apply map_ext. intros x. apply (B64Facts.b64_maximum_zero_leb L).
    + apply map_ext. intros x. apply (B64Facts.b64_maximum_zero_leb L).
    + intros Hv HK. split; apply Forall_map;
        apply Forall_impl with (2 := Hv); intros x Hx;
        apply (B64Facts.b64_maximum_zero_nonneg L);
        apply B64Facts.sub_finite_not_nan; assumption.
  - intros Phi v K option_type [-> | ->].
    + destruct (payoff_call_ydata (A := exact Phi) v K) as (w & Hw & Hy).
      exists w. split; [exact Hw|]. rewrite Hy.
      apply Forall_map, Forall_forall. intros x _.
      rewrite (ExactFacts.exact_maximum_zero Phi). apply Rmax_r.
    + destruct (payoff_put_ydata (A := exact Phi) v K) as (w & Hw & Hy).
      exists w. split; [exact Hw|]. rewrite Hy.
      apply Forall_map, Forall_forall. intros x _.
      rewrite (ExactFacts.exact_maximum_zero Phi). apply Rmax_r.
Qed.

Lemma payoff_nonnegative_witness :
  exists call put : value B64.float,
    option_payoff (A := binary64 Crude.libm)
      (NdArray [B64.lit 80; B64.lit 120]) (Py (B64.lit 100))
      (Some "call"%string) = Return call
    /\ option_payoff (A := binary64 Crude.libm)
         (NdArray [B64.lit 80; B64.lit 120]) (Py (B64.lit 100))
         (Some "put"%string) = Return put
    /\ Forall (fun x => B64.leb (B64.lit 0) x = true) (ydata call)
    /\ Forall (fun x => B64.leb (B64.lit 0) x = true) (ydata put).
Proof.
  destruct (proj1 payoff_nonnegative Crude.libm
              (NdArray [B64.lit 80; B64.lit 120]) (Py (B64.lit 100)))
    as (wc & wp & Hwc & Hwp & _ & _ & _ & _ & Hnonneg).
  exists wc, wp. split; [exact Hwc|]. split; [exact Hwp|].
  apply Hnonneg.
  - repeat constructor.
  - reflexivity.
Defined.

(** C9 does not hold as it is written: a NaN spot price gives a NaN payoff,
    for the call and for the put, and so does an infinite spot price at an
    infinite strike of the same sign; a NaN is not at least 0. *)
Lemma nan_payoff_is_not_clamped :
  option_payoff (A := binary64 Crude.libm)
    (NdArray [B64.lit 80; S754_nan]) (Py (B64.lit 100)) (Some "call"%string)
  = Return (NdArray [B64.lit 0; S754_nan])
  /\ option_payoff (A := binary64 Crude.libm)
       (NdArray [B64.lit 80; S754_nan]) (Py (B64.lit 100)) (Some "put"%string)
     = Return (NdArray [B64.lit 20; S754_nan])
  /\ option_payoff (A := binary64 Crude.libm)
       (Scalar (Py (S754_infinity false))) (Py (S754_infinity false))
       (Some "call"%string)
     = Return (Scalar (Np S754_nan))
  /\ B64.leb (B64.lit 0) S754_nan = false
  /\ ~ Forall (fun x => B64.leb (B64.lit 0) x = true) [B64.lit 0; S754_nan].
Proof.
  split; [vm_compute; reflexivity|]. split; [vm_compute; reflexivity|].
  split; [vm_compute; reflexivity|]. split; [reflexivity|].
  intros H. inversion H as [ | x l _ H2]; subst.
  inversion H2 as [ | y l' H3 _]; subst. discriminate H3.
Qed.

(** ** The script *)

Section Script.

Context {num : Type} {A : Arith num}.

Lemma comprehension_returns {X Y : Type} (f : X -> M Y) (g : X -> Y)
      (ev : X -> event num) (xs : list X) :
  (forall x log, f x log = Return (g x, log ++ [ev x])) ->
  forall log, comprehension f xs log = Return (map g xs, log ++ map ev xs).
Proof.
  intros Hf. induction xs as [ | x xs IH]; intros log; cbn.
  - unfold ret. rewrite app_nil_r. reflexivity.
  - unfold mbind. rewrite Hf, IH. unfold ret.
    rewrite <- app_assoc. reflexivity.
Qed.

(** The constants of the script. *)
Let K : scalar num := Py (num_lit 100).
Let T : scalar num := Py (num_lit 1.0).
Let r : scalar num := Py (num_lit 0.05).
Let sigma : scalar num := Py (num_lit 0.20).
Let S : list num := np_linspace (num_lit 50) (num_lit 150) 100.

(** The only operation of the script that can raise is [0.20 ** 2]. *)
Hypothesis square_ok : pow_overflow sigma = false.

Lemma script_price (s : num) :
  black_scholes (Np s) K T r sigma (Some "call"%string) = Return (price_at s).
Proof.
  destruct (proj2 (black_scholes_returns_iff (Np s) K T r sigma "call"))
    as [p Hp].
  - split; [left; reflexivity | split; [reflexivity | exact square_ok]].
  - unfold price_at. unfold K, T, r, sigma in *. rewrite Hp. reflexivity.
Qed.

Lemma script_outcome (log : list (event num)) :
  script log
  = Return
      ({| spots := S;
          prices := map price_at S;
          payoffs := NdArray (map payoff_at S) |},
       log ++ map call_event S
         ++ [ Call_option_payoff (NdArray S) K "call";
              Plt_figure 10 6;
              Plt_plot S (map val (map price_at S))
                "Option Price (Black–Scholes)" "blue" None;
              Plt_plot S (map payoff_at S)
                "Payoff at Expiry" "green" (Some "--"%string);
              Plt_title "Call Option Price vs Payoff at Expiry";
              Plt_xlabel "Underlying Stock Price ($)";
              Plt_ylabel "Value ($)";
              Plt_legend; Plt_grid true; Plt_show ]).
Proof.
  unfold script. fold S K T r sigma. unfold mbind at 1.
  rewrite (comprehension_returns _ price_at call_event).
  2:{ intros s l. unfold call_black_scholes, mbind, emit, lift.
      rewrite script_price. reflexivity. }
  unfold call_option_payoff, mbind, emit, lift, ret.
  rewrite payoff_call_array. cbn [ydata].
  rewrite <- !app_assoc. reflexivity.
Qed.

Lemma filter_calls_map (xs : list num) :
  filter is_black_scholes_call (map call_event xs) = map call_event xs
  /\ filter is_option_payoff_call (map call_event xs) = []
  /\ filter is_plot (map call_event xs) = [].
Proof.
  induction xs as [ | x xs (IH1 & IH2 & IH3)]; cbn; [auto|].
  rewrite IH1, IH2, IH3. auto.
Qed.

End Script.

(** ** np.linspace(50, 150, 100) *)

Lemma Forall2_forallb_combine {X Y : Type} (f : X -> Y -> bool)
      (xs : list X) (ys : list Y) :
  length xs = length ys ->
  forallb (fun p => f (fst p) (snd p)) (combine xs ys) = true ->
  Forall2 (fun x y => f x y = true) xs ys.
Proof.
  revert ys; induction xs as [ | x xs IH]; intros [ | y ys] Hlen Hall;
    try discriminate; constructor.
  - cbn in Hall. apply andb_true_iff in Hall. tauto.
  - apply IH.
    + cbn in Hlen. congruence.
    + cbn in Hall. apply andb_true_iff in Hall. tauto.
Qed.

(** In binary64 the grid does not depend on libm: its first point is 50, its
    last is 150, and every point is within 2^-45, one unit in the last place
    of the largest of them, of its place on the uniform grid. *)
Lemma linspace_binary64 (L : B64.Libm) :
  let S := np_linspace (A := binary64 L) (B64.lit 50) (B64.lit 150) 100 in
  length S = 100%nat
  /\ nth 0 S S754_nan = B64.lit 50
  /\ nth 99 S S754_nan = B64.lit 150
  /\ Forall (fun x => B64.is_finite x = true) S
  /\ Forall2 (fun i x => Qabs (B64.to_Q x - spec_grid i) <= 1 # (2 ^ 45))%Q
       (seq 0 100) S.
Proof.
  intros S.
  split; [vm_compute; reflexivity|].
  split; [vm_compute; reflexivity|].
  split; [vm_compute; reflexivity|].
  split.
  - apply Forall_forall. apply forallb_forall. vm_compute. reflexivity.
  - apply Forall2_impl
      with (R1 := fun i x =>
                    Qle_bool (Qabs (B64.to_Q x - spec_grid i)) (1 # (2 ^ 45))
                    = true).
    { intros i x H. apply Qle_bool_iff. exact H. }
    apply (Forall2_forallb_combine
             (fun i x =>
                Qle_bool (Qabs (B64.to_Q x - spec_grid i)) (1 # (2 ^ 45)))).
    + vm_compute; reflexivity.
    + vm_compute; reflexivity.
Qed.

(** In exact arithmetic the grid is the uniform one. *)
Lemma of_nat_exact (Phi : R -> R) (i : nat) : of_nat (A := exact Phi) i = INR i.
Proof.
  unfold of_nat; cbn. unfold Q2R; cbn.
  rewrite <- INR_IZR_INZ. lra.
Qed.

Lemma set_last_map_seq {X : Type} (f : nat -> X) (n : nat) (x : X) :
  f n = x -> set_last (map f (seq 0 (S n))) x = map f (seq 0 (S n)).
Proof.
  intros <-. rewrite seq_S, map_app. cbn [map Nat.add].
  unfold set_last.
  destruct (map f (seq 0 n) ++ [f n]) eqn:E.
  - destruct (map f (seq 0 n)); discriminate.
  - rewrite <- E. rewrite removelast_last. reflexivity.
Qed.

Lemma linspace_exact (Phi : R -> R) :
  np_linspace (A := exact Phi) (Q2R 50) (Q2R 150) 100
  = map spec_grid_R (seq 0 100).
Proof.
  assert (H50 : Q2R 50 = 50%R) by (unfold Q2R; cbn; lra).
  assert (H150 : Q2R 150 = 150%R) by (unfold Q2R; cbn; lra).
  unfold np_linspace. rewrite H50, H150.
  change (100 - 1)%nat with 99%nat.
  change (0 <? 99)%nat with true. change (1 <? 100)%nat with true. cbv iota.
  rewrite of_nat_exact.
  replace (@num_is_zero R (exact Phi)
             (num_div (num_sub 150%R 50%R) (INR 99))) with false.
  2:{ cbn [num_is_zero num_div num_sub exact]. unfold Rbool.
      destruct (Req_dec_T ((150 - 50) / INR 99) 0) as [E | E]; [|reflexivity].
      exfalso. rewrite INR_IZR_INZ in E. change (Z.of_nat 99) with 99%Z in E.
      lra. }
  rewrite !map_map.
  rewrite set_last_map_seq.
  - apply map_ext. intros i. rewrite of_nat_exact. unfold spec_grid_R.
    cbn [num_add num_mul num_div num_sub exact].
    rewrite (INR_IZR_INZ 99). change (Z.of_nat 99) with 99%Z. lra.
  - rewrite of_nat_exact.
    cbn [num_add num_mul num_div num_sub exact].
    rewrite (INR_IZR_INZ 99). change (Z.of_nat 99) with 99%Z. lra.
Qed.

Section ScriptSummary.

Context {num : Type} {A : Arith num}.

Let S : list num := np_linspace (num_lit 50) (num_lit 150) 100.

Hypothesis square_ok : pow_overflow (Py (num_lit 0.20)) = false.

(** What a run of the script leaves: the three sequences, and in the log
    the calls of the two functions and the two plotted series. *)
Lemma script_summary :
  exists (c : curves num) (log : list (event num)),
    script [] = Return (c, log)
    /\ spots c = S
    /\ prices c = map price_at S
    /\ payoffs c = NdArray (map payoff_at S)
    /\ filter is_black_scholes_call log = map call_event S
    /\ filter is_option_payoff_call log
       = [Call_option_payoff (NdArray S) (Py (num_lit 100)) "call"]
    /\ filter is_plot log
       = [Plt_plot S (map val (map price_at S))
            "Option Price (Black–Scholes)" "blue" None;
          Plt_plot S (map payoff_at S)
            "Payoff at Expiry" "green" (Some "--"%string)].
Proof.
  do 2 eexists. rewrite (script_outcome square_ok). fold S.
  split; [reflexivity|]. cbn [spots prices payoffs].
  do 3 (split; [reflexivity|]).
  cbn [app]. rewrite !filter_app.
  destruct (filter_calls_map S) as (H1 & H2 & H3).
  rewrite H1, H2, H3. cbn. rewrite app_nil_r. auto.
Qed.

Lemma prices_pointwise :
  Forall2
    (fun s p =>
       black_scholes (Np s) (Py (num_lit 100)) (Py (num_lit 1.0))
         (Py (num_lit 0.05)) (Py (num_lit 0.20)) (Some "call"%string)
       = Return p)
    S (map price_at S).
Proof.
  induction S as [ | s l IH]; constructor; [|exact IH].
  apply (script_price square_ok).
Qed.

End ScriptSummary.

Lemma square_ok_binary64 (L : B64.Libm) :
  B64.is_inf (B64.libm_sq L (B64.lit 0.20)) = false ->
  pow_overflow (A := binary64 L) (Py (B64.lit 0.20)) = false.
Proof.
  intros H.
  change (B64.is_inf (B64.libm_sq L (B64.lit 0.20))
          && negb (B64.is_inf (B64.lit 0.20))
          && negb (B64.is_nan (B64.lit 0.20)) = false).
  rewrite H. reflexivity.
Qed.

(** C5.  Provided libm's pow(0.2, 2.0) is not an infinity (the one thing in
    the script that could raise), the script runs to its end and:
    - S is np.linspace(50, 150, 100): 100 values, the first 50, the last
      150, each within 2^-45 of its place on the uniform grid;
    - the log holds one call of black_scholes per element of S, in the order
      of S, each with K = 100, T = 1.0, r = 0.05, sigma = 0.20 and "call",
      and [prices] holds what these calls returned;
    - the log holds exactly one call of option_payoff, on the whole of S with
      K = 100 and "call", and [payoffs] is what it returned.
    In exact arithmetic the script always runs to its end and S is the
    uniform grid itself. *)
Theorem script_builds_the_curves :
  (forall L : B64.Libm,
      B64.is_inf (B64.libm_sq L (B64.lit 0.20)) = false ->
      exists (c : curves B64.float) (log : list (event B64.float)),
        script (A := binary64 L) [] = Return (c, log)
        /\ spots c
           = np_linspace (A := binary64 L) (B64.lit 50) (B64.lit 150) 100
        /\ length (spots c) = 100%nat
        /\ nth 0 (spots c) S754_nan = B64.lit 50
        /\ nth 99 (spots c) S754_nan = B64.lit 150
        /\ Forall2
             (fun i x => Qabs (B64.to_Q x - spec_grid i) <= 1 # (2 ^ 45))%Q
             (seq 0 100) (spots c)
        /\ filter is_black_scholes_call log
           = map (fun s =>
                    Call_black_scholes (Np s) (Py (B64.lit 100))
                      (Py (B64.lit 1.0)) (Py (B64.lit 0.05))
                      (Py (B64.lit 0.20)) "call")
               (spots c)
        /\ length (filter is_black_scholes_call log) = 100%nat
        /\ Forall2
             (fun s p =>
                black_scholes (A := binary64 L) (Np s) (Py (B64.lit 100))
                  (Py (B64.lit 1.0)) (Py (B64.lit 0.05)) (Py (B64.lit 0.20))
                  (Some "call"%string)
                = Return p)
             (spots c) (prices c)
        /\ filter is_option_payoff_call log
           = [Call_option_payoff (NdArray (spots c)) (Py (B64.lit 100)) "call"]
        /\ option_payoff (A := binary64 L) (NdArray (spots c))
             (Py (B64.lit 100)) (Some "call"%string)
           = Return (payoffs c))
  /\ (forall Phi : R -> R,
         exists (c : curves R) (log : list (event R)),
           script (A := exact Phi) [] = Return (c, log)
           /\ spots c = map spec_grid_R (seq 0 100)).
Proof.
  split.
  - intros L HL.
    destruct (script_summary (A := binary64 L) (square_ok_binary64 L HL))
      as (c & log & Hrun & HS & Hp & Hq & Hbs & Hpo & _).
    destruct (linspace_binary64 L) as (Hlen & H0 & H99 & _ & Hgrid).
    exists c, log. split; [exact Hrun|].
    rewrite HS, Hp, Hq, Hbs, Hpo.
    split; [reflexivity|]. split; [exact Hlen|].
    split; [exact H0|]. split; [exact H99|]. split; [exact Hgrid|].
    split; [reflexivity|].
    split; [rewrite length_map; exact Hlen|].
    split; [apply (prices_pointwise (A := binary64 L)
                     (square_ok_binary64 L HL))|].
    split; [reflexivity|].
    apply payoff_call_array.
  - intros Phi.
    destruct (script_summary (A := exact Phi)
                (ExactFacts.pow_overflow_never Phi _))
      as (c & log & Hrun & HS & _).
    exists c, log. split; [exact Hrun|].
    rewrite HS. apply linspace_exact.
Qed.

Lemma script_builds_the_curves_witness :
  B64.is_inf (B64.libm_sq Crude.libm (B64.lit 0.20)) = false
  /\ exists (c : curves B64.float) (log : list (event B64.float)),
      script (A := binary64 Crude.libm) [] = Return (c, log)
      /\ length (spots c) = 100%nat
      /\ length (filter is_black_scholes_call log) = 100%nat.
Proof.
  assert (H : B64.is_inf (B64.libm_sq Crude.libm (B64.lit 0.20)) = false)
    by (vm_compute; reflexivity).
  split; [exact H|].
  destruct (proj1 script_builds_the_curves Crude.libm H)
    as (c & log & Hrun & _ & Hlen & _ & _ & _ & _ & Hcalls & _).
  exists c, log. auto.
Defined.

(** On the grid the payoff is the maximum of the order to the last bit: no
    difference S[i] - 100 is -0.0. *)
Lemma grid_payoff_at (L : B64.Libm) :
  Forall (fun s =>
            payoff_at (A := binary64 L) s
            = spec_payoff_call (A := binary64 L) (B64.lit 100) s)
    (np_linspace (A := binary64 L) (B64.lit 50) (B64.lit 150) 100).
Proof.
  apply Forall_forall. intros s Hs.
  unfold payoff_at, spec_payoff_call.
  change (@num_lit _ (binary64 L) 100) with (B64.lit 100).
  change (@num_lit _ (binary64 L) 0) with (B64.lit 0).
  rewrite (B64Facts.b64_maximum_zero L).
  apply B64Facts.positive_zero_id.
  assert (H : forallb
                (fun s =>
                   match spec_max (A := binary64 L)
                           (B64.sub s (B64.lit 100)) (B64.lit 0) with
                   | S754_zero true => false
                   | _ => true
                   end)
                (np_linspace (A := binary64 L) (B64.lit 50) (B64.lit 150) 100)
              = true) by (vm_compute; reflexivity).
  rewrite forallb_forall in H. specialize (H s Hs).
  intros E.
  change (@num_sub _ (binary64 L)) with B64.sub in E.
  rewrite E in H. discriminate H.
Qed.

(** C7.  Under the same proviso, the three sequences of a run have length
    100; the i-th price is what black_scholes returns for the i-th spot
    value and the i-th payoff is max(S_i - 100, 0) for the same spot value;
    and both series are plotted against S. *)
Theorem curves_share_the_axis :
  forall L : B64.Libm,
    B64.is_inf (B64.libm_sq L (B64.lit 0.20)) = false ->
    exists (c : curves B64.float) (log : list (event B64.float)),
      script (A := binary64 L) [] = Return (c, log)
      /\ length (spots c) = 100%nat
      /\ length (prices c) = 100%nat
      /\ length (ydata (payoffs c)) = 100%nat
      /\ (forall i : nat,
             (i < 100)%nat ->
             black_scholes (A := binary64 L) (Np (nth i (spots c) S754_nan))
               (Py (B64.lit 100)) (Py (B64.lit 1.0)) (Py (B64.lit 0.05))
               (Py (B64.lit 0.20)) (Some "call"%string)
             = Return (nth i (prices c) (Np S754_nan))
             /\ nth i (ydata (payoffs c)) S754_nan
                = spec_payoff_call (A := binary64 L) (B64.lit 100)
                    (nth i (spots c) S754_nan))
      /\ filter is_plot log
         = [Plt_plot (spots c) (map val (prices c))
              "Option Price (Black–Scholes)" "blue" None;
            Plt_plot (spots c) (ydata (payoffs c))
              "Payoff at Expiry" "green" (Some "--"%string)].
Proof.
  intros L HL.
  pose proof (square_ok_binary64 L HL) as Hsq.
  destruct (script_summary (A := binary64 L) Hsq)
    as (c & log & Hrun & HS & Hp & Hq & _ & _ & Hplot).
  destruct (linspace_binary64 L) as (Hlen & _).
  change (length (np_linspace (A := binary64 L)
                    (@num_lit _ (binary64 L) 50) (@num_lit _ (binary64 L) 150)
                    100)
          = 100%nat) in Hlen.
  exists c, log. split; [exact Hrun|].
  rewrite HS, Hp, Hq, Hplot. cbn [ydata].
  rewrite !length_map.
  do 3 (split; [exact Hlen|]).
  split; [|reflexivity].
  intros i Hi. split.
  - rewrite nth_indep with (d' := price_at (A := binary64 L) S754_nan)
      by (rewrite length_map, Hlen; assumption).
    rewrite map_nth. apply (script_price Hsq).
  - rewrite nth_indep with (d' := payoff_at (A := binary64 L) S754_nan)
      by (rewrite length_map, Hlen; assumption).
    rewrite map_nth.
    pose proof (grid_payoff_at L) as Hgrid. rewrite Forall_forall in Hgrid.
    apply Hgrid. apply nth_In.
    change (i < length (np_linspace (A := binary64 L)
                          (@num_lit _ (binary64 L) 50)
                          (@num_lit _ (binary64 L) 150) 100))%nat.
    rewrite Hlen. exact Hi.
Qed.

Lemma curves_share_the_axis_witness :
  B64.is_inf (B64.libm_sq Crude.libm (B64.lit 0.20)) = false
  /\ exists (c : curves B64.float) (log : list (event B64.float)),
      script (A := binary64 Crude.libm) [] = Return (c, log)
      /\ length (prices c) = length (spots c)
      /\ length (ydata (payoffs c)) = length (spots c).
Proof.
  assert (H : B64.is_inf (B64.libm_sq Crude.libm (B64.lit 0.20)) = false)
    by (vm_compute; reflexivity).
  split; [exact H|].
  destruct (curves_share_the_axis Crude.libm H)
    as (c & log & Hrun & Hs & Hp & Hq & _).
  exists c, log. rewrite Hs, Hp, Hq. auto.
Defined.

(** ** Where d1 is not a number

    A time to maturity of 2^-1000 and a volatility of 2^-600 are positive
    doubles, and their product sigma * sqrt(T) = 2^-1100 is below the
    smallest positive double: it underflows to 0.  At S = K and r = 0 the
    numerator of d1 is 0 as well, d1 is 0/0, and both prices are NaN. *)




(** ** Put-call parity

    The identity is one of exact arithmetic: it uses of the normal
    distribution function only its symmetry, Phi(x) + Phi(-x) = 1.  In
    binary64 each price is two products and a difference, each rounded, of
    S, of the discounted strike and of two values of norm.cdf: parity holds
    up to these roundings and to the asymmetry of norm.cdf. *)





(** ** The reference price

    In exact arithmetic, with S = K = 100, T = 1, r = 0.05 and sigma = 0.20,
    d1 is 0.35 and d2 is 0.15, and the price is
    100 Phi(0.35) - 100 e^(-0.05) Phi(0.15).  The three transcendental values
    are enclosed by Taylor polynomials; a function is bounded through the
    sign of a derivative. *)

Section Calculus.

Local Open Scope R_scope.

Variables (f g : R -> R) (x a b : R).

Lemma dl_const (c : R) : derivable_pt_lim (fun _ => c) x 0.
Proof. exact (derivable_pt_lim_const c x). Qed.

Lemma dl_id : derivable_pt_lim (fun t => t) x 1.
Proof. exact (derivable_pt_lim_id x). Qed.

Lemma dl_plus :
  derivable_pt_lim f x a -> derivable_pt_lim g x b ->
  derivable_pt_lim (fun t => f t + g t) x (a + b).
Proof. exact (derivable_pt_lim_plus f g x a b). Qed.

Lemma dl_minus :
  derivable_pt_lim f x a -> derivable_pt_lim g x b ->
  derivable_pt_lim (fun t => f t - g t) x (a - b).
Proof. exact (derivable_pt_lim_minus f g x a b). Qed.

Lemma dl_mult :
  derivable_pt_lim f x a -> derivable_pt_lim g x b ->
  derivable_pt_lim (fun t => f t * g t) x (a * g x + f x * b).
Proof. exact (derivable_pt_lim_mult f g x a b). Qed.

Lemma dl_opp :
  derivable_pt_lim f x a -> derivable_pt_lim (fun t => - f t) x (- a).
Proof. exact (derivable_pt_lim_opp f x a). Qed.

Lemma dl_div_const (c : R) :
  derivable_pt_lim f x a -> derivable_pt_lim (fun t => f t / c) x (a / c).
Proof.
  intros H. unfold Rdiv.
  replace (a * / c) with (a * / c + f x * 0) by ring.
  apply (derivable_pt_lim_mult f (fun _ => / c) x a 0 H).
  apply dl_const.
Qed.

Lemma dl_pow (n : nat) :
  derivable_pt_lim f x a ->
  derivable_pt_lim (fun t => f t ^ n) x (INR n * f x ^ pred n * a).
Proof.
  intros H.
  apply (derivable_pt_lim_comp f (fun y => y ^ n) x a (INR n * f x ^ pred n) H).
  apply derivable_pt_lim_pow.
Qed.

Lemma dl_exp :
  derivable_pt_lim f x a ->
  derivable_pt_lim (fun t => exp (f t)) x (exp (f x) * a).
Proof.
  intros H.
  apply (derivable_pt_lim_comp f exp x a (exp (f x)) H).
  apply derivable_pt_lim_exp.
Qed.

Lemma dl_eq (l : R) :
  derivable_pt_lim f x a -> a = l -> derivable_pt_lim f x l.
Proof. intros H <-. exact H. Qed.

Lemma dl_comp :
  derivable_pt_lim f x a -> derivable_pt_lim g (f x) b ->
  derivable_pt_lim (fun t => g (f t)) x (b * a).
Proof. intros Hf Hg. exact (derivable_pt_lim_comp f g x a b Hf Hg). Qed.

End Calculus.

Ltac derive :=
  repeat first
    [ apply dl_id
    | apply dl_const
    | apply dl_plus
    | apply dl_minus
    | apply dl_opp
    | apply dl_div_const
    | apply dl_pow
    | apply dl_mult
    | apply dl_exp
    | eassumption ].

Section Enclosures.

Local Open Scope R_scope.

(** A function that is 0 at 0 and has a non-negative derivative on [0, b]
    is non-negative there. *)
Lemma nonneg_from_derivative (f f' : R -> R) (b : R) :
  (forall x, 0 <= x <= b -> derivable_pt_lim f x (f' x)) ->
  (forall x, 0 <= x <= b -> 0 <= f' x) ->
  f 0 = 0 ->
  forall x, 0 <= x <= b -> 0 <= f x.
Proof.
  intros Hd Hpos H0 x [Hx0 Hxb].
  destruct (Rle_lt_or_eq_dec 0 x Hx0) as [Hlt | <-]; [|lra].
  destruct (MVT_cor2 f f' 0 x Hlt) as (c & Hc & Hc0 & Hcx).
  - intros t Ht. apply Hd. lra.
  - assert (0 <= f' c) by (apply Hpos; lra).
    assert (0 <= f' c * (x - 0)) by (apply Rmult_le_pos; lra).
    lra.
Qed.

Lemma exp_neg_lower1 u : 1 - u <= exp (- u).
Proof. pose proof (exp_ineq1_le (- u)). lra. Qed.

Lemma exp_neg_upper2 u : 0 <= u -> exp (- u) <= 1 - u + u ^ 2 / 2.
Proof.
  intros Hu.
  cut (0 <= (fun t => 1 - t + t ^ 2 / 2 - exp (- t)) u); [simpl; lra|].
  apply nonneg_from_derivative
    with (f' := fun t => exp (- t) - (1 - t)) (b := u); try lra.
  - intros x _. eapply dl_eq. { derive. } simpl. field.
  - intros x _. pose proof (exp_neg_lower1 x). lra.
  - simpl. rewrite Ropp_0, exp_0. lra.
Qed.

Lemma exp_neg_lower3 u :
  0 <= u -> 1 - u + u ^ 2 / 2 - u ^ 3 / 6 <= exp (- u).
Proof.
  intros Hu.
  cut (0 <= (fun t => exp (- t) - (1 - t + t ^ 2 / 2 - t ^ 3 / 6)) u);
    [simpl; lra|].
  apply nonneg_from_derivative
    with (f' := fun t => 1 - t + t ^ 2 / 2 - exp (- t)) (b := u); try lra.
  - intros x _. eapply dl_eq. { derive. } simpl. field.
  - intros x Hx. pose proof (exp_neg_upper2 x). lra.
  - simpl. rewrite Ropp_0, exp_0. lra.
Qed.

Lemma exp_neg_upper4 u :
  0 <= u -> exp (- u) <= 1 - u + u ^ 2 / 2 - u ^ 3 / 6 + u ^ 4 / 24.
Proof.
  intros Hu.
  cut (0 <= (fun t => 1 - t + t ^ 2 / 2 - t ^ 3 / 6 + t ^ 4 / 24 - exp (- t)) u);
    [simpl; lra|].
  apply nonneg_from_derivative
    with (f' := fun t => exp (- t) - (1 - t + t ^ 2 / 2 - t ^ 3 / 6)) (b := u);
    try lra.
  - intros x _. eapply dl_eq. { derive. } simpl. field.
  - intros x Hx. pose proof (exp_neg_lower3 x). lra.
  - simpl. rewrite Ropp_0, exp_0. lra.
Qed.

Lemma exp_005 : 0.951229 < exp (- (0.05)) < 0.951230.
Proof.
  pose proof (exp_neg_lower3 0.05). pose proof (exp_neg_upper4 0.05).
  simpl in *. lra.
Qed.

(** The same at the double nearest to -0.05, the value of -r * T. *)
Lemma exp_at_rT :
  0.951229
  < exp (B64.to_R (S754_finite true 7205759403792794 (-57))) < 0.951230.
Proof.
  rewrite (B64Round.to_R_eval _ (- (7205759403792794 # 144115188075855872)))
    by (vm_compute; reflexivity).
  rewrite Qreals.Q2R_opp. unfold Q2R. cbn [Qnum Qden].
  pose proof (exp_neg_lower3 (7205759403792794 * / 144115188075855872)).
  pose proof (exp_neg_upper4 (7205759403792794 * / 144115188075855872)).
  simpl in *. lra.
Qed.

(** Machin's formula with atan(1/3) and atan(1/7), eight terms. *)
Lemma PI_bounds : 3.141592 < PI < 3.141593.
Proof.
  pose proof (PI_2_3_7_ineq 3) as [Hlo Hhi].
  unfold sum_f_R0, tg_alt, PI_2_3_7_tg, Ratan_seq in Hlo, Hhi.
  simpl in Hlo, Hhi.
  split; lra.
Qed.

Lemma sqrt_2PI_bounds : 2.506628 < sqrt (2 * PI) < 2.506629.
Proof.
  pose proof PI_bounds as [Hlo Hhi].
  split.
  - replace 2.506628 with (sqrt (2.506628 * 2.506628))
      by (apply sqrt_square; lra).
    apply sqrt_lt_1_alt. lra.
  - replace 2.506629 with (sqrt (2.506629 * 2.506629))
      by (apply sqrt_square; lra).
    apply sqrt_lt_1_alt. lra.
Qed.

End Enclosures.

Section NormalCDF.

Local Open Scope R_scope.

Variable Phi : R -> R.
Hypothesis Phi_0 : Phi 0 = 1 / 2.
Hypothesis Phi_density :
  forall x, 0 <= x <= 1 -> derivable_pt_lim Phi x (normal_density x).

Lemma sqrt_2PI_pos : 0 < sqrt (2 * PI).
Proof. pose proof sqrt_2PI_bounds. lra. Qed.

Lemma Phi_lower x : 0 <= x <= 1 -> 1 / 2 + gauss_lo x / sqrt (2 * PI) <= Phi x.
Proof.
  intros Hx. pose proof sqrt_2PI_pos as Hc.
  cut (0 <= (fun t => Phi t - 1 / 2 - gauss_lo t / sqrt (2 * PI)) x);
    [simpl; lra|].
  apply nonneg_from_derivative
    with (f' := fun t =>
                  (exp (- (t ^ 2 / 2))
                   - (1 - t ^ 2 / 2 + (t ^ 2 / 2) ^ 2 / 2 - (t ^ 2 / 2) ^ 3 / 6))
                  / sqrt (2 * PI))
         (b := 1); try lra.
  - intros t Ht. eapply dl_eq.
    { apply dl_minus;
        [apply dl_minus; [apply Phi_density; exact Ht | apply dl_const]|].
      apply dl_div_const. unfold gauss_lo. derive. }
    unfold normal_density, gauss_kernel. simpl. field. lra.
  - intros t Ht.
    assert (Hu : 0 <= t ^ 2 / 2) by (simpl; nra).
    pose proof (exp_neg_lower3 (t ^ 2 / 2) Hu).
    apply Rmult_le_pos; [lra|]. left. apply Rinv_0_lt_compat. lra.
  - unfold gauss_lo. rewrite Phi_0. simpl. field. lra.
Qed.

Lemma Phi_upper x : 0 <= x <= 1 -> Phi x <= 1 / 2 + gauss_hi x / sqrt (2 * PI).
Proof.
  intros Hx. pose proof sqrt_2PI_pos as Hc.
  cut (0 <= (fun t => 1 / 2 + gauss_hi t / sqrt (2 * PI) - Phi t) x);
    [simpl; lra|].
  apply nonneg_from_derivative
    with (f' := fun t =>
                  ((1 - t ^ 2 / 2 + (t ^ 2 / 2) ^ 2 / 2 - (t ^ 2 / 2) ^ 3 / 6
                    + (t ^ 2 / 2) ^ 4 / 24)
                   - exp (- (t ^ 2 / 2)))
                  / sqrt (2 * PI))
         (b := 1); try lra.
  - intros t Ht. eapply dl_eq.
    { apply dl_minus;
        [apply dl_plus; [apply dl_const|] | apply Phi_density; exact Ht].
      apply dl_div_const. unfold gauss_hi, gauss_lo. derive. }
    unfold normal_density, gauss_kernel. simpl. field. lra.
  - intros t Ht.
    assert (Hu : 0 <= t ^ 2 / 2) by (simpl; nra).
    pose proof (exp_neg_upper4 (t ^ 2 / 2) Hu).
    apply Rmult_le_pos; [lra|]. left. apply Rinv_0_lt_compat. lra.
  - unfold gauss_hi, gauss_lo. rewrite Phi_0. simpl. field. lra.
Qed.

Lemma Phi_enclosure x lo hi :
  0 <= x <= 1 -> 0 < lo <= gauss_lo x -> gauss_hi x <= hi ->
  1 / 2 + lo / 2.506629 < Phi x < 1 / 2 + hi / 2.506628.
Proof.
  intros Hx Hlo Hhi.
  pose proof (Phi_lower x Hx) as H1. pose proof (Phi_upper x Hx) as H2.
  pose proof sqrt_2PI_bounds as [Hc1 Hc2].
  set (c := sqrt (2 * PI)) in *.
  assert (Hi1 : / 2.506629 < / c) by (apply Rinv_lt_contravar; nra).
  assert (Hi2 : / c < / 2.506628) by (apply Rinv_lt_contravar; nra).
  assert (Hi0 : 0 < / c) by (apply Rinv_0_lt_compat; lra).
  assert (Hhi0 : 0 < hi).
  { apply Rlt_le_trans with (2 := Hhi).
    apply Rlt_le_trans with (gauss_lo x); [lra|].
    unfold gauss_hi. assert (0 <= x ^ 9) by (apply pow_le; lra). lra. }
  unfold Rdiv in *. split.
  - apply Rlt_le_trans with (2 := H1).
    apply Rplus_lt_compat_l.
    apply Rlt_le_trans with (lo * / c).
    + apply Rmult_lt_compat_l; lra.
    + apply Rmult_le_compat_r; lra.
  - apply Rle_lt_trans with (1 := H2).
    apply Rplus_lt_compat_l.
    apply Rle_lt_trans with (hi * / c).
    + apply Rmult_le_compat_r; lra.
    + apply Rmult_lt_compat_l; lra.
Qed.

Lemma Phi_035 : 0.636830 < Phi 0.35 < 0.636831.
Proof.
  pose proof (Phi_enclosure 0.35 0.3429835 0.3429836) as H.
  unfold gauss_hi, gauss_lo in H. simpl in H. lra.
Qed.

Lemma Phi_015 : 0.559617 < Phi 0.15 < 0.559618.
Proof.
  pose proof (Phi_enclosure 0.15 0.1494393 0.1494394) as H.
  unfold gauss_hi, gauss_lo in H. simpl in H. lra.
Qed.

(** The same at the doubles that the program computes for d1 and d2:
    0.35 + 3 * 2^-56 and 0.15 + 2^-55. *)
Lemma Phi_at_d1 :
  0.636830
  < Phi (B64.to_R (S754_finite false 6305039478318695 (-54))) < 0.636831.
Proof.
  rewrite (B64Round.to_R_eval _ (6305039478318695 # 18014398509481984))
    by (vm_compute; reflexivity).
  unfold Q2R. cbn [Qnum Qden].
  pose proof (Phi_enclosure (6305039478318695 * / 18014398509481984)
                0.3429835 0.3429836) as H.
  unfold gauss_hi, gauss_lo in H. simpl in H. lra.
Qed.

Lemma Phi_at_d2 :
  0.559617
  < Phi (B64.to_R (S754_finite false 5404319552844596 (-55))) < 0.559618.
Proof.
  rewrite (B64Round.to_R_eval _ (5404319552844596 # 36028797018963968))
    by (vm_compute; reflexivity).
  unfold Q2R. cbn [Qnum Qden].
  pose proof (Phi_enclosure (5404319552844596 * / 36028797018963968)
                0.1494393 0.1494394) as H.
  unfold gauss_hi, gauss_lo in H. simpl in H. lra.
Qed.

End NormalCDF.

Lemma normal_density_derivable (x : R) : derivable_pt normal_density x.
Proof.
  eexists. unfold normal_density, gauss_kernel.
  change (derivable_pt_abs ?f ?x ?l) with (derivable_pt_lim f x l).
  derive.
Qed.

Lemma normal_density_continuous (x : R) : continuity_pt normal_density x.
Proof. apply derivable_continuous_pt, normal_density_derivable. Qed.

(** There is a function that is 1/2 at 0 and has the normal density as its
    derivative on [0, 1]: an integral of the density. *)
Lemma normal_cdf_exists :
  exists Phi : R -> R,
    Phi 0%R = (1 / 2)%R
    /\ forall x : R,
        (0 <= x <= 1)%R -> derivable_pt_lim Phi x (normal_density x).
Proof.
  assert (H01 : (0 <= 1)%R) by lra.
  assert (Hc : forall x : R,
             (0 <= x <= 1)%R -> continuity_pt normal_density x)
    by (intros x _; apply normal_density_continuous).
  destruct (RiemannInt_P30 H01 Hc) as [G [HG _]].
  exists (fun x => (1 / 2 + (G x - G 0))%R). split; [lra|].
  intros x Hx. destruct (HG x Hx) as [[l Hl] E]. cbn in E. subst l.
  eapply dl_eq.
  { apply dl_plus; [apply dl_const|].
    apply dl_minus; [exact Hl | apply dl_const]. }
  lra.
Qed.

(** In exact arithmetic, for the standard normal distribution function (the
    function that is 1/2 at 0 and whose derivative is the normal density;
    only its values on [0, 1] matter here), the call price at
    S = K = 100, T = 1, r = 0.05, sigma = 0.20 is within 0.001 of 10.4506. *)
Lemma reference_price_exact :
  forall Phi : R -> R,
    Phi 0%R = (1 / 2)%R ->
    (forall x : R,
        (0 <= x <= 1)%R -> derivable_pt_lim Phi x (normal_density x)) ->
    exists p : scalar R,
      black_scholes (A := exact Phi)
        (Py 100%R) (Py 100%R) (Py 1%R) (Py 0.05%R) (Py 0.20%R)
        (Some "call"%string)
      = Return p
      /\ (Rabs (val p - 10.4506) <= 0.001)%R.
Proof.
  intros Phi Phi_0 Phi_density.
  assert (HK : val (Py 100%R) <> 0%R) by (cbn; lra).
  destruct (closed_form_exact Phi
              (Py 100%R) (Py 100%R) (Py 1%R) (Py 0.05%R) (Py 0.20%R) HK)
    as [Hcall _].
  cbv zeta in Hcall. cbn [val] in Hcall.
  eexists. split; [exact Hcall|]. cbn [val].
  replace (100 / 100)%R with 1%R by lra.
  rewrite ln_1, sqrt_1.
  replace ((0 + (0.05 + 1 / 2 * (0.20 * 0.20)) * 1) / (0.20 * 1))%R
    with 0.35%R by lra.
  replace (0.35 - 0.20 * 1)%R with 0.15%R by lra.
  replace (0.05 * 1)%R with 0.05%R by lra.
  pose proof (Phi_035 Phi Phi_0 Phi_density) as [A1 A2].
  pose proof (Phi_015 Phi Phi_0 Phi_density) as [B1 B2].
  pose proof exp_005 as [E1 E2].
  set (P1 := Phi 0.35%R) in *. set (P2 := Phi 0.15%R) in *.
  set (E := exp (- (0.05))%R) in *.
  assert (Hlo : (0.951229 * 0.559617 <= E * P2)%R)
    by (apply Rmult_le_compat; lra).
  assert (Hhi : (E * P2 <= 0.951230 * 0.559618)%R)
    by (apply Rmult_le_compat; lra).
  apply Rabs_le. split; lra.
Qed.

(** *** The reference price in binary64

    With log(1.0) a zero and pow(0.2, 2.0) within a unit in the last place
    of the square, d1 and d2 are the same two doubles whichever of the
    candidates the library returns. *)

Lemma reference_d1 (L : B64.Libm) :
  B64.is_zero (B64.libm_log L (B64.lit 1)) = true ->
  B64.within (/ 2 ^ 57) (B64.libm_sq L (B64.lit 0.20))
    (B64.to_R (B64.lit 0.20) * B64.to_R (B64.lit 0.20)) ->
  spec_d1 (A := binary64 L) (B64.lit 100) (B64.lit 100) (B64.lit 1)
    (B64.lit 0.05) (B64.lit 0.20)
  = S754_finite false 6305039478318695 (-54)
  /\ spec_d2 (A := binary64 L) (B64.lit 100) (B64.lit 100) (B64.lit 1)
       (B64.lit 0.05) (B64.lit 0.20)
     = S754_finite false 5404319552844596 (-55)
  /\ pow_overflow (A := binary64 L) (Py (B64.lit 0.20)) = false.
Proof.
  intros Hlog (Hv & _ & Hsq).
  rewrite (B64Round.to_R_eval (B64.lit 0.20)
             (7205759403792794 # 36028797018963968))
    in Hsq by (vm_compute; reflexivity).
  unfold Q2R in Hsq. cbn [Qnum Qden] in Hsq.
  apply B64Round.Rabs_le_between in Hsq.
  destruct (B64Round.valid_between (B64.libm_sq L (B64.lit 0.20)) (-4)
              (7205759403792794 * / 36028797018963968
               * (7205759403792794 * / 36028797018963968)
               - / 2 ^ 57)
              (7205759403792794 * / 36028797018963968
               * (7205759403792794 * / 36028797018963968)
               + / 2 ^ 57) Hv)%R
    as (m & Hy & Hm).
  - lia.
  - change (-4 - 1)%Z with (-5)%Z. rewrite B64Round.bpow_neg.
    change (2 ^ 5)%Z with 32%Z. lra.
  - rewrite B64Round.bpow_neg. change (2 ^ 4)%Z with 16%Z. lra.
  - lra.
  - rewrite Hy in Hsq. rewrite B64Round.to_R_finite in Hsq.
    cbn [B64.sign] in Hsq.
    change (-4 - 53)%Z with (-57)%Z in *.
    rewrite B64Round.bpow_neg in Hsq.
    change (2 ^ 57)%Z with 144115188075855872%Z in Hsq.
    assert (H1 : (5764607523034234 < Zpos m)%Z) by (apply lt_IZR; lra).
    assert (H2 : (Zpos m < 5764607523034237)%Z) by (apply lt_IZR; lra).
    assert (Hc : m = 5764607523034235%positive
                 \/ m = 5764607523034236%positive) by lia.
    unfold spec_d2, spec_d1, pow_overflow.
    change (@num_sub _ (binary64 L)) with B64.sub.
    change (@num_add _ (binary64 L)) with B64.add.
    change (@num_mul _ (binary64 L)) with B64.mul.
    change (@num_div _ (binary64 L)) with B64.div.
    change (@num_sqrt _ (binary64 L)) with B64.sqrt.
    change (@num_lit _ (binary64 L)) with B64.lit.
    change (@num_log _ (binary64 L)) with (B64.libm_log L).
    change (@num_sq _ (binary64 L)) with (B64.libm_sq L).
    change (@num_is_inf _ (binary64 L)) with B64.is_inf.
    change (@num_is_nan _ (binary64 L)) with B64.is_nan.
    replace (B64.div (B64.lit 100) (B64.lit 100)) with (B64.lit 1)
      by (vm_compute; reflexivity).
    rewrite Hy.
    destruct (B64.libm_log L (B64.lit 1)) as [z | | | ];
      try discriminate Hlog.
    destruct z, Hc as [-> | ->]; vm_compute; auto.
Qed.

(** C8.  black_scholes(S=100, K=100, T=1, r=0.05, sigma=0.20, "call"), in
    binary64: the call returns a float64, finite and within 0.001 of 10.4506,
    with every library that is accurate where this call uses it.  That is:
    log(1.0) is a zero; pow(0.2, 2.0) is within one unit in the last place
    (2^-57) of the square; exp at -r * T, and norm.cdf at the d1 and the d2
    that the program computes, are within 10^-6 of e^x and of the standard
    normal distribution function (the function that is 1/2 at 0 and whose
    derivative is the normal density).  The four arithmetic operations of
    the last line are rounded as IEEE 754 rounds them. *)
Theorem reference_price :
  forall (L : B64.Libm) (Phi : R -> R),
    Phi 0%R = (1 / 2)%R ->
    (forall x : R,
        (0 <= x <= 1)%R -> derivable_pt_lim Phi x (normal_density x)) ->
    B64.is_zero (B64.libm_log L (B64.lit 1)) = true ->
    B64.within (/ 2 ^ 57) (B64.libm_sq L (B64.lit 0.20))
      (B64.to_R (B64.lit 0.20) * B64.to_R (B64.lit 0.20)) ->
    (let x := B64.neg (B64.mul (B64.lit 0.05) (B64.lit 1)) in
     B64.within (1 / 1000000) (B64.libm_exp L x) (exp (B64.to_R x))) ->
    (let d1 := spec_d1 (A := binary64 L) (B64.lit 100) (B64.lit 100)
                 (B64.lit 1) (B64.lit 0.05) (B64.lit 0.20) in
     B64.within (1 / 1000000) (B64.norm_cdf L d1) (Phi (B64.to_R d1))) ->
    (let d2 := spec_d2 (A := binary64 L) (B64.lit 100) (B64.lit 100)
                 (B64.lit 1) (B64.lit 0.05) (B64.lit 0.20) in
     B64.within (1 / 1000000) (B64.norm_cdf L d2) (Phi (B64.to_R d2))) ->
    exists p : B64.float,
      black_scholes (A := binary64 L)
        (Py (B64.lit 100)) (Py (B64.lit 100)) (Py (B64.lit 1))
        (Py (B64.lit 0.05)) (Py (B64.lit 0.20)) (Some "call"%string)
      = Return (Np p)
      /\ B64.is_finite p = true
      /\ (Rabs (B64.to_R p - 10.4506) <= 0.001)%R.
Proof.
  intros L Phi Phi_0 Phi_density Hlog Hsq Hexp Hc1 Hc2.
  destruct (reference_d1 L Hlog Hsq) as (Hd1 & Hd2 & Ho).
  cbv zeta in Hexp, Hc1, Hc2. rewrite Hd1 in Hc1. rewrite Hd2 in Hc2.
  replace (B64.neg (B64.mul (B64.lit 0.05) (B64.lit 1)))
    with (S754_finite true 7205759403792794 (-57)) in Hexp
    by (vm_compute; reflexivity).
  destruct (closed_form_binary64 L
              (Py (B64.lit 100)) (Py (B64.lit 100)) (Py (B64.lit 1))
              (Py (B64.lit 0.05)) (Py (B64.lit 0.20)) eq_refl Ho) as [Hc _].
  rewrite Hc. clear Hc. cbn [val]. eexists. split; [reflexivity|].
  unfold spec_call, spec_discounted. rewrite Hd1, Hd2.
  change (@num_sub _ (binary64 L)) with B64.sub.
  change (@num_mul _ (binary64 L)) with B64.mul.
  change (@num_neg _ (binary64 L)) with B64.neg.
  change (@num_exp _ (binary64 L)) with (B64.libm_exp L).
  change (@num_cdf _ (binary64 L)) with (B64.norm_cdf L).
  replace (B64.neg (B64.mul (B64.lit 0.05) (B64.lit 1)))
    with (S754_finite true 7205759403792794 (-57))
    by (vm_compute; reflexivity).
  replace (B64.lit 100) with (S754_finite false 7036874417766400 (-46))
    by (vm_compute; reflexivity).
  pose proof (Phi_at_d1 Phi Phi_0 Phi_density) as P1.
  pose proof (Phi_at_d2 Phi Phi_0 Phi_density) as P2.
  pose proof exp_at_rT as P3.
  destruct (B64Round.within_form _ _ _ 0.636829%R 0.636832%R Hc1)
    as (m1 & -> & N1 & B1); try lra.
  destruct (B64Round.within_form _ _ _ 0.559616%R 0.559619%R Hc2)
    as (m2 & -> & N2 & B2); try lra.
  destruct (B64Round.within_form _ _ _ 0.951228%R 0.951231%R Hexp)
    as (m3 & -> & N3 & B3); try lra.
  clear P1 P2 P3 Hc1 Hc2 Hexp.
  assert (N100 : B64.normal 7036874417766400) by (unfold B64.normal; lia).
  assert (V100 : B64.to_R (S754_finite false 7036874417766400 (-46))
                 = 100%R).
  { rewrite (B64Round.to_R_eval _ (7036874417766400 # 70368744177664))
      by (vm_compute; reflexivity).
    unfold Q2R. cbn [Qnum Qden]. lra. }
  destruct (B64Round.mul_normal false false 7036874417766400 m1
              (-46) (-53) N100 N1)
    as (ma & ea & Ha & Na & Ea & Ra); [lia|].
  cbn [xorb] in Ha, Ra. rewrite Ha. clear Ha.
  destruct (B64Round.mul_normal false false 7036874417766400 m3
              (-46) (-53) N100 N3)
    as (mb & eb & Hb & Nb & Eb & Rb); [lia|].
  cbn [xorb] in Hb, Rb. rewrite Hb. clear Hb.
  destruct (B64Round.mul_normal false false mb m2 eb (-53) Nb N2)
    as (mc & ec & Hc & Nc & Ec & Rc); [lia|].
  cbn [xorb] in Hc, Rc. rewrite Hc. clear Hc.
  rewrite V100 in Ra, Rb.
  set (c1 := B64.to_R (S754_finite false m1 (-53))) in *.
  set (c2 := B64.to_R (S754_finite false m2 (-53))) in *.
  set (e3 := B64.to_R (S754_finite false m3 (-53))) in *.
  set (A := B64.to_R (S754_finite false ma ea)) in *.
  set (B0 := B64.to_R (S754_finite false mb eb)) in *.
  set (B := B64.to_R (S754_finite false mc ec)) in *.
  rewrite (Rabs_pos_eq (100 * c1)) in Ra by lra.
  rewrite (Rabs_pos_eq (100 * e3)) in Rb by lra.
  apply B64Round.Rabs_le_between in Ra, Rb.
  assert (HA : (63.6828 <= A <= 63.6833)%R) by lra.
  assert (HB0 : (95.1227 <= B0 <= 95.1232)%R) by lra.
  assert (HBc1 : (95.1227 * 0.559616 <= B0 * c2)%R)
    by (apply Rmult_le_compat; lra).
  assert (HBc2 : (B0 * c2 <= 95.1232 * 0.559619)%R)
    by (apply Rmult_le_compat; lra).
  rewrite (Rabs_pos_eq (B0 * c2)) in Rc by lra.
  apply B64Round.Rabs_le_between in Rc.
  assert (HB : (53.2321 <= B <= 53.2328)%R) by lra.
  destruct (B64Round.sub_normal ma mc ea ec Na Nc) as (p & -> & Fp & Rp);
    [lia | lia |].
  fold A B in Rp. split; [exact Fp|].
  rewrite (Rabs_pos_eq (A - B)) in Rp by lra.
  apply B64Round.Rabs_le_between in Rp.
  apply Rabs_le. lra.
Qed.

Lemma reference_price_witness :
  exists Phi : R -> R,
    Phi 0%R = (1 / 2)%R
    /\ (forall x : R,
           (0 <= x <= 1)%R -> derivable_pt_lim Phi x (normal_density x))
    /\ B64.within (1 / 1000000)
         (B64.norm_cdf Tabulated.libm
            (spec_d1 (A := binary64 Tabulated.libm) (B64.lit 100)
               (B64.lit 100) (B64.lit 1) (B64.lit 0.05) (B64.lit 0.20)))
         (Phi (B64.to_R
                 (spec_d1 (A := binary64 Tabulated.libm) (B64.lit 100)
                    (B64.lit 100) (B64.lit 1) (B64.lit 0.05)
                    (B64.lit 0.20))))
    /\ exists p : B64.float,
        black_scholes (A := binary64 Tabulated.libm)
          (Py (B64.lit 100)) (Py (B64.lit 100)) (Py (B64.lit 1))
          (Py (B64.lit 0.05)) (Py (B64.lit 0.20)) (Some "call"%string)
        = Return (Np p)
        /\ B64.is_finite p = true
        /\ (Rabs (B64.to_R p - 10.4506) <= 0.001)%R.
Proof.
  destruct normal_cdf_exists as (Phi & H0 & Hd).
  exists Phi. split; [exact H0|]. split; [exact Hd|].
  assert (Hc1 : B64.within (1 / 1000000)
                  (B64.norm_cdf Tabulated.libm
                     (spec_d1 (A := binary64 Tabulated.libm) (B64.lit 100)
                        (B64.lit 100) (B64.lit 1) (B64.lit 0.05)
                        (B64.lit 0.20)))
                  (Phi (B64.to_R
                          (spec_d1 (A := binary64 Tabulated.libm)
                             (B64.lit 100) (B64.lit 100) (B64.lit 1)
                             (B64.lit 0.05) (B64.lit 0.20))))).
  { replace (spec_d1 (A := binary64 Tabulated.libm) (B64.lit 100)
               (B64.lit 100) (B64.lit 1) (B64.lit 0.05) (B64.lit 0.20))
      with (S754_finite false 6305039478318695 (-54))
      by (vm_compute; reflexivity).
    split; [vm_compute; reflexivity|]. split; [vm_compute; reflexivity|].
    pose proof (Phi_at_d1 Phi H0 Hd) as P.
    rewrite (B64Round.to_R_eval
               (B64.norm_cdf Tabulated.libm
                  (S754_finite false 6305039478318695 (-54)))
               (5736061006436184 # 9007199254740992))
      by (vm_compute; reflexivity).
    unfold Q2R. cbn [Qnum Qden]. apply Rabs_le. lra. }
  split; [exact Hc1|].
  apply (reference_price Tabulated.libm Phi H0 Hd).
  - reflexivity.
  - split; [vm_compute; reflexivity|]. split; [vm_compute; reflexivity|].
    rewrite (B64Round.to_R_eval (B64.lit 0.20)
               (7205759403792794 # 36028797018963968))
      by (vm_compute; reflexivity).
    rewrite (B64Round.to_R_eval
               (B64.libm_sq Tabulated.libm (B64.lit 0.20))
               (5764607523034236 # 144115188075855872))
      by (vm_compute; reflexivity).
    unfold Q2R. cbn [Qnum Qden]. apply Rabs_le. lra.
  - cbv zeta.
    replace (B64.neg (B64.mul (B64.lit 0.05) (B64.lit 1)))
      with (S754_finite true 7205759403792794 (-57))
      by (vm_compute; reflexivity).
    split; [vm_compute; reflexivity|]. split; [vm_compute; reflexivity|].
    pose proof exp_at_rT as P.
    rewrite (B64Round.to_R_eval
               (B64.libm_exp Tabulated.libm
                  (S754_finite true 7205759403792794 (-57)))
               (8567912742767721 # 9007199254740992))
      by (vm_compute; reflexivity).
    unfold Q2R. cbn [Qnum Qden]. apply Rabs_le. lra.
  - exact Hc1.
  - cbv zeta.
    replace (spec_d2 (A := binary64 Tabulated.libm) (B64.lit 100)
               (B64.lit 100) (B64.lit 1) (B64.lit 0.05) (B64.lit 0.20))
      with (S754_finite false 5404319552844596 (-55))
      by (vm_compute; reflexivity).
    split; [vm_compute; reflexivity|]. split; [vm_compute; reflexivity|].
    pose proof (Phi_at_d2 Phi H0 Hd) as P.
    rewrite (B64Round.to_R_eval
               (B64.norm_cdf Tabulated.libm
                  (S754_finite false 5404319552844596 (-55)))
               (5040588130379868 # 9007199254740992))
      by (vm_compute; reflexivity).
    unfold Q2R. cbn [Qnum Qden]. apply Rabs_le. lra.
Defined.

(** ** The no-arbitrage bound

    In exact arithmetic, for the standard normal distribution function.  The
    function is characterised by three facts: its density is proportional to
    e^(-x^2/2), it is symmetric about 0, and it vanishes at minus infinity.
    (They force the constant of proportionality to be 1/sqrt(2 pi); the bound
    does not need its value.)  The bound follows from one inequality,
    Phi(d - a) <= e^(a d - a^2/2) Phi(d) for a >= 0, used once for the call
    and once, with spot and discounted strike exchanged, for the put. *)

Section Analysis.

Local Open Scope R_scope.

Lemma monotone_from_derivative (f f' : R -> R) :
  (forall x, derivable_pt_lim f x (f' x)) ->
  (forall x, 0 <= f' x) ->
  forall x y, x <= y -> f x <= f y.
Proof.
  intros Hd Hpos x y Hxy.
  destruct (Rle_lt_or_eq_dec x y Hxy) as [Hlt | <-]; [|lra].
  destruct (MVT_cor2 f f' x y Hlt) as (c & Hc & _).
  - intros t _. apply Hd.
  - assert (0 <= f' c * (y - x)) by (apply Rmult_le_pos; [apply Hpos | lra]).
    lra.
Qed.

Lemma gauss_kernel_derivable x : derivable_pt gauss_kernel x.
Proof.
  eexists. unfold gauss_kernel.
  change (derivable_pt_abs ?f ?x ?l) with (derivable_pt_lim f x l).
  derive.
Qed.

Lemma gauss_kernel_continuous x : continuity_pt gauss_kernel x.
Proof. apply derivable_continuous_pt, gauss_kernel_derivable. Qed.

Lemma gauss_kernel_pos x : 0 < gauss_kernel x.
Proof. apply exp_pos. Qed.

(** The derivative at a point depends on the function near the point only. *)
Lemma derivable_pt_lim_local (f g : R -> R) (x l : R) :
  (forall y, Rabs (y - x) < 1 -> f y = g y) ->
  derivable_pt_lim g x l -> derivable_pt_lim f x l.
Proof.
  intros Heq Hg eps Heps.
  destruct (Hg eps Heps) as [delta Hdelta].
  assert (Hmin : 0 < Rmin delta 1).
  { apply Rmin_glb_lt; [apply cond_pos | lra]. }
  exists (mkposreal _ Hmin). intros h Hh0 Hh. cbn in Hh.
  rewrite (Heq (x + h)), (Heq x).
  - apply Hdelta; [exact Hh0|].
    apply Rlt_le_trans with (1 := Hh). apply Rmin_l.
  - replace (x - x) with 0 by ring. rewrite Rabs_R0. lra.
  - replace (x + h - x) with h by ring.
    apply Rlt_le_trans with (1 := Hh). apply Rmin_r.
Qed.

(** A function whose derivative is zero on an interval is constant there. *)
Lemma constant_from_derivative (f : R -> R) (a b : R) :
  (forall t, a <= t <= b -> derivable_pt_lim f t 0) ->
  forall x y, a <= x <= b -> a <= y <= b -> f x = f y.
Proof.
  intros Hd.
  assert (Hlt : forall x y, a <= x <= b -> a <= y <= b -> x < y -> f x = f y).
  { intros x y Hx Hy Hxy.
    destruct (MVT_cor2 f (fun _ => 0) x y Hxy) as (c & Hc & _).
    - intros t Ht. apply Hd. lra.
    - lra. }
  intros x y Hx Hy.
  destruct (Rtotal_order x y) as [H | [-> | H]].
  - apply Hlt; assumption.
  - reflexivity.
  - symmetry. apply Hlt; assumption.
Qed.

Lemma INR_up_abs (x : R) : Rabs x < INR (Z.to_nat (up (Rabs x))).
Proof.
  destruct (archimed (Rabs x)) as [Hup _].
  pose proof (Rabs_pos x) as Hpos.
  assert (Hz : (0 <= up (Rabs x))%Z).
  { apply le_IZR. lra. }
  rewrite INR_IZR_INZ, Z2Nat.id by exact Hz. lra.
Qed.

End Analysis.

Section NoArbitrage.

Local Open Scope R_scope.

Variables (Phi : R -> R) (c : R).
Hypothesis c_pos : 0 < c.
Hypothesis Phi_density :
  forall x, derivable_pt_lim Phi x (gauss_kernel x / c).
Hypothesis Phi_symmetric : forall x, Phi x + Phi (- x) = 1.
Hypothesis Phi_left :
  forall eps, 0 < eps -> exists M, forall x, x < M -> Rabs (Phi x) < eps.

Lemma density_pos x : 0 < gauss_kernel x / c.
Proof. apply Rdiv_lt_0_compat; [apply exp_pos | exact c_pos]. Qed.

Lemma Phi_increasing x y : x <= y -> Phi x <= Phi y.
Proof.
  apply monotone_from_derivative with (f' := fun t => gauss_kernel t / c).
  - exact Phi_density.
  - intros t. left. apply density_pos.
Qed.

Lemma Phi_nonneg x : 0 <= Phi x.
Proof.
  destruct (Rle_or_lt 0 (Phi x)) as [H | H]; [exact H|]. exfalso.
  destruct (Phi_left (- Phi x)) as [M HM]; [lra|].
  pose proof (Rmin_l M x) as Hl. pose proof (Rmin_r M x) as Hr.
  assert (H2 : Phi (Rmin M x - 1) <= Phi x) by (apply Phi_increasing; lra).
  assert (H3 : Rabs (Phi (Rmin M x - 1)) < - Phi x) by (apply HM; lra).
  rewrite Rabs_left in H3 by lra. lra.
Qed.

(** Phi(d - a) <= e^(a d - a^2/2) Phi(d) *)
Lemma shifted_bound a d : 0 <= a -> Phi (d - a) <= exp (a * d - a ^ 2 / 2) * Phi d.
Proof.
  intros Ha.
  set (h := fun t => exp (a * t - a ^ 2 / 2) * Phi t - Phi (t - a)).
  assert (Hmono : forall x y, x <= y -> h x <= h y).
  { apply monotone_from_derivative
      with (f' := fun t => a * exp (a * t - a ^ 2 / 2) * Phi t).
    - intros t. unfold h. eapply dl_eq.
      { apply dl_minus.
        - apply dl_mult; [derive | apply Phi_density].
        - apply (dl_comp (fun t => t - a) Phi); [derive | apply Phi_density]. }
      unfold gauss_kernel. simpl.
      replace (exp (- ((t - a) * ((t - a) * 1) / 2)))
        with (exp (a * t - a * (a * 1) / 2) * exp (- (t * (t * 1) / 2))).
      + field. lra.
      + rewrite <- exp_plus. f_equal. field.
    - intros t. apply Rmult_le_pos; [|apply Phi_nonneg].
      apply Rmult_le_pos; [exact Ha | left; apply exp_pos]. }
  cut (0 <= h d); [unfold h; lra|].
  destruct (Rle_or_lt 0 (h d)) as [H | H]; [exact H|]. exfalso.
  destruct (Phi_left (- h d)) as [M HM]; [lra|].
  set (u := Rmin (M + a) d - 1).
  pose proof (Rmin_l (M + a) d) as Hl. pose proof (Rmin_r (M + a) d) as Hr.
  assert (H1 : h u <= h d) by (apply Hmono; unfold u; lra).
  assert (H2 : Rabs (Phi (u - a)) < - h d) by (apply HM; unfold u; lra).
  rewrite Rabs_right in H2 by (apply Rle_ge, Phi_nonneg).
  assert (H3 : 0 <= exp (a * u - a ^ 2 / 2) * Phi u).
  { apply Rmult_le_pos; [left; apply exp_pos | apply Phi_nonneg]. }
  unfold h in H1 at 1. lra.
Qed.

Lemma call_lower_bound (S K T r sigma : R) :
  0 < S -> 0 < K -> 0 < T -> 0 < sigma ->
  let d1 := (ln (S / K) + (r + 1 / 2 * (sigma * sigma)) * T) / (sigma * sqrt T) in
  let d2 := d1 - sigma * sqrt T in
  Rmax (S - K * exp (- (r * T))) 0
  <= S * Phi d1 - K * exp (- (r * T)) * Phi d2.
Proof.
  intros HS HK HT Hsigma d1 d2.
  set (a := sigma * sqrt T) in *.
  assert (HsT : 0 < sqrt T) by (apply sqrt_lt_R0; exact HT).
  assert (Ha : 0 < a) by (apply Rmult_lt_0_compat; assumption).
  assert (Ha2 : a ^ 2 = sigma * sigma * T).
  { unfold a. simpl. replace (sigma * sqrt T * (sigma * sqrt T * 1))
      with (sigma * sigma * (sqrt T * sqrt T)) by ring.
    rewrite sqrt_sqrt by lra. reflexivity. }
  set (E := exp (- (r * T))).
  assert (HE : 0 < E) by apply exp_pos.
  set (X := exp (a * d1 - a ^ 2 / 2)).
  assert (HX : 0 < X) by apply exp_pos.
  assert (HSX : S = K * E * X).
  { unfold X, E.
    replace (a * d1 - a ^ 2 / 2) with (ln (S / K) + r * T).
    - rewrite exp_plus, exp_ln by (apply Rdiv_lt_0_compat; assumption).
      rewrite exp_Ropp. field. split; try lra.
      apply Rgt_not_eq, exp_pos.
    - rewrite Ha2. unfold d1. field. lra. }
  assert (H1 : Phi d2 <= X * Phi d1).
  { unfold d2, X. apply shifted_bound. lra. }
  assert (H2 : Phi (- d1) <= / X * Phi (- d2)).
  { replace (- d1) with (- d2 - a) by (unfold d2; ring).
    replace (/ X) with (exp (a * - d2 - a ^ 2 / 2)).
    - apply shifted_bound. lra.
    - unfold X. rewrite <- exp_Ropp. f_equal. unfold d2. field. }
  pose proof (Phi_symmetric d1) as Hs1. pose proof (Phi_symmetric d2) as Hs2.
  assert (HKE : 0 < K * E) by (apply Rmult_lt_0_compat; assumption).
  apply Rmax_lub.
  - (* S - K E <= price, from the put side *)
    assert (H3 : K * E * X * Phi (- d1) <= K * E * Phi (- d2)).
    { replace (K * E * Phi (- d2)) with (K * E * X * (/ X * Phi (- d2)))
        by (field; lra).
      apply Rmult_le_compat_l; [|exact H2].
      left. apply Rmult_lt_0_compat; assumption. }
    rewrite <- HSX in H3.
    replace (Phi d1) with (1 - Phi (- d1)) by lra.
    replace (Phi d2) with (1 - Phi (- d2)) by lra.
    lra.
  - (* 0 <= price *)
    assert (H3 : K * E * Phi d2 <= K * E * (X * Phi d1)).
    { apply Rmult_le_compat_l; [lra | exact H1]. }
    replace (K * E * (X * Phi d1)) with (K * E * X * Phi d1) in H3 by ring.
    rewrite <- HSX in H3. lra.
Qed.

End NoArbitrage.

Section GaussIntegralExists.

Local Open Scope R_scope.

(** The integral of the kernel from 0, on the whole line. *)
Lemma gauss_integral_exists :
  exists G : R -> R,
    G 0 = 0 /\ forall x, derivable_pt_lim G x (gauss_kernel x).
Proof.
  assert (Hle : forall n : nat, - (INR n + 1) <= INR n + 1).
  { intros n. pose proof (pos_INR n). lra. }
  assert (Hcont : forall (n : nat) (x : R),
             - (INR n + 1) <= x <= INR n + 1 -> continuity_pt gauss_kernel x).
  { intros n x _. apply gauss_kernel_continuous. }
  pose (Gn := fun n : nat => proj1_sig (RiemannInt_P30 (Hle n) (Hcont n))).
  assert (HGn : forall (n : nat) (x : R),
             - (INR n + 1) <= x <= INR n + 1 ->
             derivable_pt_lim (Gn n) x (gauss_kernel x)).
  { intros n x Hx. unfold Gn.
    destruct (RiemannInt_P30 (Hle n) (Hcont n)) as [g [Hg Hab]]. cbn.
    destruct (Hg x Hx) as [[l Hl] E]. cbn in E. subst l. exact Hl. }
  assert (Hglue : forall (m n : nat) (x : R),
             Rabs x <= INR m + 1 -> Rabs x <= INR n + 1 ->
             Gn m x - Gn m 0 = Gn n x - Gn n 0).
  { intros m n x Hm Hn.
    pose proof (Rabs_pos x) as Hpos.
    assert (Hc : Gn m x - Gn n x = Gn m 0 - Gn n 0).
    { apply (constant_from_derivative (fun t => Gn m t - Gn n t)
               (- Rabs x) (Rabs x)).
      - intros t Ht. eapply dl_eq.
        { apply dl_minus; apply HGn; lra. }
        ring.
      - pose proof (Rle_abs x). pose proof (Rle_abs (- x)) as H'.
        rewrite Rabs_Ropp in H'. lra.
      - lra. }
    lra. }
  pose (G := fun x => Gn (Z.to_nat (up (Rabs x))) x
                      - Gn (Z.to_nat (up (Rabs x))) 0).
  assert (HG : forall (n : nat) (x : R),
             Rabs x <= INR n + 1 -> G x = Gn n x - Gn n 0).
  { intros n x Hn. unfold G. apply Hglue; [|exact Hn].
    pose proof (INR_up_abs x). lra. }
  exists G. split.
  - unfold G. ring.
  - intros x.
    set (n := Z.to_nat (up (Rabs x))).
    apply derivable_pt_lim_local with (g := fun y => Gn n y - Gn n 0).
    + intros y Hy. apply HG.
      pose proof (INR_up_abs x) as Hx. fold n in Hx.
      replace y with (x + (y - x)) by ring.
      apply Rle_trans with (1 := Rabs_triang _ _). lra.
    + eapply dl_eq.
      { apply dl_minus; [apply HGn | apply dl_const].
        pose proof (INR_up_abs x) as Hx. fold n in Hx.
        pose proof (Rle_abs x). pose proof (Rle_abs (- x)) as H'.
        rewrite Rabs_Ropp in H'. lra. }
      ring.
Qed.

End GaussIntegralExists.

Section GaussIntegral.

Local Open Scope R_scope.

Variable G : R -> R.
Hypothesis G_0 : G 0 = 0.
Hypothesis G_deriv : forall x, derivable_pt_lim G x (gauss_kernel x).

Lemma G_increasing x y : x <= y -> G x <= G y.
Proof.
  apply monotone_from_derivative with (f' := gauss_kernel).
  - exact G_deriv.
  - intros t. left. apply gauss_kernel_pos.
Qed.

Lemma G_odd x : G (- x) = - G x.
Proof.
  assert (H : G x + G (- x) = G 0 + G (- 0)).
  { apply (constant_from_derivative (fun t => G t + G (- t))
             (- Rabs x) (Rabs x)).
    - intros t _. eapply dl_eq.
      { apply dl_plus; [apply G_deriv|].
        apply (dl_comp (fun t => - t) G); [derive | apply G_deriv]. }
      unfold gauss_kernel.
      replace ((- t) ^ 2) with (t ^ 2) by ring. ring.
    - pose proof (Rle_abs x). pose proof (Rle_abs (- x)) as H'.
      rewrite Rabs_Ropp in H'. lra.
    - pose proof (Rabs_pos x). lra. }
  rewrite Ropp_0, G_0 in H. lra.
Qed.

Lemma G_1_pos : 0 < G 1.
Proof.
  destruct (MVT_cor2 G gauss_kernel 0 1) as (c & Hc & _); [lra | |].
  - intros t _. apply G_deriv.
  - pose proof (gauss_kernel_pos c). rewrite G_0 in Hc. lra.
Qed.

Lemma G_bounded x : G x <= exp (1 / 2).
Proof.
  pose proof (exp_pos (1 / 2)) as HB.
  destruct (Rle_or_lt x 0) as [Hx | Hx].
  { pose proof (G_increasing x 0 Hx). lra. }
  cut (0 <= (fun t => exp (1 / 2) * (1 - exp (- t)) - G t) x).
  { cbn. pose proof (exp_pos (- x)). nra. }
  apply nonneg_from_derivative
    with (f' := fun t => exp (1 / 2) * exp (- t) - gauss_kernel t) (b := x).
  - intros t _. eapply dl_eq.
    { apply dl_minus; [|apply G_deriv].
      apply dl_mult; [apply dl_const|]. derive. }
    cbn. ring.
  - intros t _. rewrite <- exp_plus. unfold gauss_kernel.
    assert (H : - (t ^ 2 / 2) <= 1 / 2 + - t).
    { pose proof (Rle_0_sqr (t - 1)) as Hs. unfold Rsqr in Hs. simpl. lra. }
    destruct (Rle_lt_or_eq_dec _ _ H) as [Hlt | ->]; [|lra].
    pose proof (exp_increasing _ _ Hlt). lra.
  - cbn. rewrite Ropp_0, exp_0, G_0. ring.
  - lra.
Qed.

End GaussIntegral.

Section StandardNormal.

Local Open Scope R_scope.

(** The standard normal distribution function, characterised: its density is
    proportional to the kernel, it is symmetric, and it vanishes at minus
    infinity. *)
Lemma standard_normal_exists :
  exists (Phi : R -> R) (c : R),
    0 < c
    /\ (forall x, derivable_pt_lim Phi x (gauss_kernel x / c))
    /\ (forall x, Phi x + Phi (- x) = 1)
    /\ (forall eps, 0 < eps -> exists M, forall x, x < M -> Rabs (Phi x) < eps).
Proof.
  destruct gauss_integral_exists as (G & G_0 & G_deriv).
  pose (u := fun n : nat => G (INR n)).
  assert (Hgrow : Un_growing u).
  { intros n. unfold u. apply (G_increasing G G_deriv).
    rewrite S_INR. lra. }
  assert (Hub : has_ub u).
  { exists (exp (1 / 2)). intros y [n ->]. apply (G_bounded G G_0 G_deriv). }
  destruct (growing_cv u Hgrow Hub) as [L HL].
  assert (HuL : forall n, u n <= L) by (apply growing_ineq; assumption).
  assert (HGL : forall x, G x <= L).
  { intros x. apply Rle_trans with (u (Z.to_nat (up (Rabs x)))); [|apply HuL].
    unfold u. apply (G_increasing G G_deriv).
    pose proof (INR_up_abs x). pose proof (Rle_abs x). lra. }
  assert (HL0 : 0 < L).
  { pose proof (G_1_pos G G_0 G_deriv). pose proof (HGL 1). lra. }
  exists (fun x => 1 / 2 + G x / (2 * L)), (2 * L).
  split; [lra|]. split; [|split].
  - intros x. eapply dl_eq.
    { apply dl_plus; [apply dl_const|]. apply dl_div_const. apply G_deriv. }
    ring.
  - intros x. rewrite (G_odd G G_0 G_deriv). field. lra.
  - intros eps Heps.
    destruct (HL (eps * (2 * L))) as [N HN].
    { apply Rmult_lt_0_compat; lra. }
    exists (- INR N). intros x Hx.
    assert (H1 : u N <= G (- x)).
    { unfold u. apply (G_increasing G G_deriv). lra. }
    pose proof (HN N (Nat.le_refl N)) as H2. unfold Rdist in H2.
    pose proof (HuL N) as H3.
    rewrite Rabs_left1 in H2 by lra.
    pose proof (HGL (- x)) as H4.
    rewrite (G_odd G G_0 G_deriv) in H1, H4.
    assert (H5 : 0 <= 1 / 2 + G x / (2 * L)).
    { cut (- (1 / 2) <= G x / (2 * L)); [lra|].
      apply Rmult_le_reg_r with (2 * L); [lra|].
      unfold Rdiv. rewrite Rmult_assoc, Rinv_l by lra. lra. }
    rewrite Rabs_right by lra.
    cut (G x / (2 * L) < eps - 1 / 2); [lra|].
    apply Rmult_lt_reg_r with (2 * L); [lra|].
    unfold Rdiv. rewrite Rmult_assoc, Rinv_l by lra. lra.
Qed.

End StandardNormal.





(** * More of the two functions and of the script *)

(** ** Operand types *)

Lemma black_scholes_default (L : B64.Libm) (S K T r sigma : scalar B64.float)
      (arg : option string) :
  black_scholes (A := binary64 L) S K T r sigma arg
  = black_scholes (A := binary64 L) S K T r sigma
      (Some (with_default "call" arg)).
Proof. destruct arg; reflexivity. Qed.

(** X1.  Whenever [black_scholes] returns, the result is a NumPy float64, and
    it is decided by the values of the five operands alone: whether an
    operand is a Python float or a NumPy float64 decides only whether the
    call raises. *)
Theorem price_ignores_operand_types :
  forall (L : B64.Libm) (S K T r sigma S' K' T' r' sigma' : scalar B64.float)
         (arg : option string) (p p' : scalar B64.float),
    val S = val S' -> val K = val K' -> val T = val T' -> val r = val r' ->
    val sigma = val sigma' ->
    black_scholes (A := binary64 L) S K T r sigma arg = Return p ->
    black_scholes (A := binary64 L) S' K' T' r' sigma' arg = Return p' ->
    p = p' /\ exists x : B64.float, p = Np x.
Proof.
  intros L S K T r sigma S' K' T' r' sigma' arg p p' HS HK HT Hr Hsigma H H'.
  rewrite black_scholes_default in H, H'.
  rewrite (black_scholes_outcome (A := binary64 L) B64Facts.b64_mul_neg_l)
    in H, H'.
  rewrite <- HS, <- HK, <- HT, <- Hr, <- Hsigma in H'.
  destruct (zero_division S K); [discriminate|].
  destruct (zero_division S' K'); [discriminate|].
  destruct (pow_overflow sigma); [discriminate|].
  destruct (pow_overflow sigma'); [discriminate|].
  destruct (with_default "call" arg =? "call")%string.
  { apply Return_injective in H, H'. subst p p'.
    split; [reflexivity | eexists; reflexivity]. }
  destruct (with_default "call" arg =? "put")%string.
  { apply Return_injective in H, H'. subst p p'.
    split; [reflexivity | eexists; reflexivity]. }
  discriminate.
Qed.

Lemma price_ignores_operand_types_witness :
  exists p p' : scalar B64.float,
    black_scholes (A := binary64 Crude.libm)
      (Py (B64.lit 120)) (Py (B64.lit 100)) (Py (B64.lit 1.0))
      (Py (B64.lit 0.05)) (Py (B64.lit 0.20)) None = Return p
    /\ black_scholes (A := binary64 Crude.libm)
         (Np (B64.lit 120)) (Py (B64.lit 100)) (Np (B64.lit 1.0))
         (Py (B64.lit 0.05)) (Np (B64.lit 0.20)) None = Return p'
    /\ p = p'.
Proof.
  eexists. eexists.
  split; [vm_compute; reflexivity|]. split; [vm_compute; reflexivity|].
  apply (price_ignores_operand_types Crude.libm
           (Py (B64.lit 120)) (Py (B64.lit 100)) (Py (B64.lit 1.0))
           (Py (B64.lit 0.05)) (Py (B64.lit 0.20))
           (Np (B64.lit 120)) (Py (B64.lit 100)) (Np (B64.lit 1.0))
           (Py (B64.lit 0.05)) (Np (B64.lit 0.20)) None).
  - reflexivity.
  - reflexivity.
  - reflexivity.
  - reflexivity.
  - reflexivity.
  - vm_compute. reflexivity.
  - vm_compute. reflexivity.
Defined.

(** ** The payoff of an array and of its elements *)

(** X2.  [option_payoff] treats an array element by element: on an array it
    returns an array of the same length whose i-th element is what the
    function returns for the i-th element alone (as a Python float or as a
    float64), and it raises on an array exactly the exception it raises on
    a scalar. *)
Theorem option_payoff_vectorised :
  forall (num : Type) (A : Arith num) (xs : list num) (K : scalar num)
         (arg : option string),
    match option_payoff (NdArray xs) K arg with
    | Return w =>
        w = NdArray (ydata w)
        /\ length (ydata w) = length xs
        /\ forall (i : nat) (d : num) (s : scalar num),
             (i < length xs)%nat -> val s = nth i xs d ->
             option_payoff (Scalar s) K arg
             = Return (Scalar (Np (nth i (ydata w) d)))
    | Raise e => forall s : scalar num, option_payoff (Scalar s) K arg = Raise e
    end.
Proof.
  intros num A xs K arg. unfold option_payoff.
  destruct (with_default "call" arg =? "call")%string.
  { cbn. split; [reflexivity|]. rewrite !length_map. split; [reflexivity|].
    intros i d s Hi Hs. rewrite map_map.
    rewrite nth_indep
      with (d' := maximum (num_sub d (val K)) (num_lit 0))
      by (rewrite length_map; exact Hi).
    rewrite (map_nth (fun x => maximum (num_sub x (val K)) (num_lit 0))).
    rewrite <- Hs. unfold py_sub. rewrite val_lift2. reflexivity. }
  destruct (with_default "call" arg =? "put")%string.
  { cbn. split; [reflexivity|]. rewrite !length_map. split; [reflexivity|].
    intros i d s Hi Hs. rewrite map_map.
    rewrite nth_indep
      with (d' := maximum (num_sub (val K) d) (num_lit 0))
      by (rewrite length_map; exact Hi).
    rewrite (map_nth (fun x => maximum (num_sub (val K) x) (num_lit 0))).
    rewrite <- Hs. unfold py_sub. rewrite val_lift2. reflexivity. }
  reflexivity.
Qed.

Lemma option_payoff_vectorised_witness :
  option_payoff (A := binary64 Crude.libm)
    (Scalar (Py (B64.lit 80))) (Py (B64.lit 100)) (Some "put"%string)
  = Return (Scalar (Np (B64.lit 20))).
Proof.
  pose proof (option_payoff_vectorised B64.float (binary64 Crude.libm)
                [B64.lit 120; B64.lit 80] (Py (B64.lit 100))
                (Some "put"%string)) as H.
  cbn beta iota delta [option_payoff with_default String.eqb Ascii.eqb
                         Bool.eqb] in H.
  destruct H as (_ & _ & H).
  rewrite (H 1%nat S754_nan (Py (B64.lit 80))).
  - vm_compute. reflexivity.
  - cbn. lia.
  - reflexivity.
Defined.

(** ** The option type is matched exactly *)

Lemma upper_is_not_lower_case (c0 : ascii) :
  Ascii.eqb (upper c0) "c" = false /\ Ascii.eqb (upper c0) "p" = false.
Proof.
  destruct c0 as [b0 b1 b2 b3 b4 b5 b6 b7].
  destruct b0, b1, b2, b3, b4, b5, b6, b7; split; reflexivity.
Qed.

Lemma capitalize_not_valid (s : string) :
  (capitalize s =? "call")%string = false
  /\ (capitalize s =? "put")%string = false.
Proof.
  destruct s as [ | c0 s']; [split; reflexivity|].
  destruct (upper_is_not_lower_case c0) as [Hc Hp].
  unfold capitalize. cbn [String.eqb]. rewrite Hc, Hp. split; reflexivity.
Qed.

(** X3.  The option type is compared with "call" and "put" as it is,
    letter case included: the capitalised form of any string (the form the
    script puts in the title of the plot: "Call", "Put") is not an option
    type.  [option_payoff] answers it with ValueError "option_type must be
    'call' or 'put'", and so does [black_scholes] when the evaluation of d1
    has raised nothing. *)
Theorem option_type_is_case_sensitive :
  forall (num : Type) (A : Arith num) (S K T r sigma : scalar num)
         (v : value num) (s : string),
    option_payoff v K (Some (capitalize s))
    = Raise (ValueError "option_type must be 'call' or 'put'")
    /\ (zero_division S K = false -> pow_overflow sigma = false ->
        black_scholes S K T r sigma (Some (capitalize s))
        = Raise (ValueError "option_type must be 'call' or 'put'")).
Proof.
  intros num A S K T r sigma v s.
  destruct (capitalize_not_valid s) as [Hc Hp].
  split.
  - rewrite option_payoff_outcome, Hc, Hp. reflexivity.
  - intros Hz Ho. unfold black_scholes, with_default.
    rewrite py_div_outcome, Hz. cbn [bind].
    rewrite py_pow2_outcome, Ho. cbn [bind].
    rewrite py_div_outcome.
    replace (zero_division _ _) with false
      by (destruct S, K, T, r, sigma; reflexivity).
    cbn [bind]. rewrite Hc, Hp. reflexivity.
Qed.

Lemma option_type_is_case_sensitive_witness :
  black_scholes (A := binary64 Crude.libm)
    (Py (B64.lit 120)) (Py (B64.lit 100)) (Py (B64.lit 1.0))
    (Py (B64.lit 0.05)) (Py (B64.lit 0.20)) (Some "Call"%string)
  = Raise (ValueError "option_type must be 'call' or 'put'").
Proof.
  apply (proj2 (option_type_is_case_sensitive B64.float
                  (binary64 Crude.libm)
                  (Py (B64.lit 120)) (Py (B64.lit 100)) (Py (B64.lit 1.0))
                  (Py (B64.lit 0.05)) (Py (B64.lit 0.20))
                  (Scalar (Py (B64.lit 120))) "call"%string)).
  - reflexivity.
  - vm_compute. reflexivity.
Defined.


(** ** The two payoffs together *)

Module B64Sub.

Import B64.

Lemma binary_round_opp s m e :
  binary_round prec emax (negb s) m e = SFopp (binary_round prec emax s m e).
Proof.
  unfold binary_round. destruct (shl_align _ _ _) as [mz ez].
  apply B64Facts.binary_round_aux_opp.
Qed.

Lemma binary_normalize_opp m e :
  m <> 0%Z ->
  binary_normalize prec emax (- m) e false
  = SFopp (binary_normalize prec emax m e false).
Proof.
  destruct m as [ | p | p ]; intros H; [contradiction H; reflexivity | | ]; cbn.
  - apply (binary_round_opp false).
  - apply (binary_round_opp true).
Qed.

(** [K - S] is [-(S - K)] to the last bit, unless both are the zero [+0.0]
    that a difference of equal numbers is. *)
Lemma sub_swap x y :
  is_nan (sub x y) = false ->
  sub y x = neg (sub x y)
  \/ (sub x y = S754_zero false /\ sub y x = S754_zero false).
Proof.
  destruct x as [sx | sx | | sx mx ex], y as [sy | sy | | sy my ey];
    try discriminate;
    try (destruct sx, sy; try discriminate; intros _; cbn; auto; fail).
  intros _. unfold sub, SFsub. rewrite (Z.min_comm ey ex).
  set (ez := Z.min ex ey).
  set (a := cond_Zopp sx (Z.pos (fst (shl_align mx ex ez)))).
  set (b := cond_Zopp sy (Z.pos (fst (shl_align my ey ez)))).
  destruct (Z.eq_dec (a - b) 0) as [E | E].
  - right. replace (b - a)%Z with 0%Z by lia. rewrite E. auto.
  - left. replace (b - a)%Z with (- (a - b))%Z by lia.
    apply binary_normalize_opp. exact E.
Qed.

Lemma maximum_parity (L : Libm) (d d' : float) :
  is_nan d = false ->
  d' = neg d \/ (d = S754_zero false /\ d' = S754_zero false) ->
  SFeqb (sub (maximum (A := binary64 L) d (lit 0))
             (maximum (A := binary64 L) d' (lit 0))) d = true.
Proof.
  intros Hd [-> | [-> ->]]; [|reflexivity].
  rewrite B64Facts.b64_lit_zero.
  destruct d as [s | s | | s m e]; try discriminate;
    try (destruct s; reflexivity).
  destruct s; unfold maximum; cbn;
    rewrite Z.compare_refl, Pos.compare_cont_refl; reflexivity.
Qed.

Lemma maximum_is_nan (L : Libm) (a : float) :
  is_nan (maximum (A := binary64 L) a (lit 0)) = is_nan a.
Proof.
  rewrite B64Facts.b64_lit_zero.
  destruct a as [s | s | | s m e]; try destruct s; reflexivity.
Qed.

Lemma sub_nan_operand x y :
  is_nan x = true \/ is_nan y = true -> is_nan (sub x y) = true.
Proof.
  destruct x as [sx | sx | | sx mx ex], y as [sy | sy | | sy my ey];
    intros [H | H]; try discriminate H; reflexivity.
Qed.

End B64Sub.

(** X4.  The payoff of the call less the payoff of the put is S - K, element
    by element: in binary64 wherever S - K is a number (both sides are then
    equal as numbers, to the last bit), and in exact arithmetic always. *)
Theorem payoff_parity :
  (forall (L : B64.Libm) (xs : list B64.float) (K : scalar B64.float),
      Forall (fun x => B64.is_nan (B64.sub x (val K)) = false) xs ->
      exists cs ps : list B64.float,
        option_payoff (A := binary64 L) (NdArray xs) K (Some "call"%string)
        = Return (NdArray cs)
        /\ option_payoff (A := binary64 L) (NdArray xs) K (Some "put"%string)
           = Return (NdArray ps)
        /\ length cs = length xs /\ length ps = length xs
        /\ forall i : nat,
             (i < length xs)%nat ->
             SFeqb (B64.sub (nth i cs S754_nan) (nth i ps S754_nan))
                   (B64.sub (nth i xs S754_nan) (val K)) = true)
  /\ (forall (Phi : R -> R) (xs : list R) (K : scalar R),
         exists cs ps : list R,
           option_payoff (A := exact Phi) (NdArray xs) K (Some "call"%string)
           = Return (NdArray cs)
           /\ option_payoff (A := exact Phi) (NdArray xs) K (Some "put"%string)
              = Return (NdArray ps)
           /\ length cs = length xs /\ length ps = length xs
           /\ forall i : nat,
                (i < length xs)%nat ->
                (nth i cs 0 - nth i ps 0 = nth i xs 0 - val K)%R).
Proof.
  split.
  - intros L xs K Hxs.
    rewrite payoff_call_array, payoff_put_array.
    do 2 eexists. split; [reflexivity|]. split; [reflexivity|].
    rewrite !length_map. split; [reflexivity|]. split; [reflexivity|].
    intros i Hi.
    pose (c := fun x => @maximum _ (binary64 L)
                          (@num_sub _ (binary64 L) x (val K))
                          (@num_lit _ (binary64 L) 0)).
    pose (p := fun x => @maximum _ (binary64 L)
                          (@num_sub _ (binary64 L) (val K) x)
                          (@num_lit _ (binary64 L) 0)).
    rewrite nth_indep with (d' := c S754_nan)
      by (rewrite length_map; exact Hi).
    rewrite (map_nth c).
    rewrite nth_indep with (l := map _ xs) (d' := p S754_nan)
      by (rewrite length_map; exact Hi).
    rewrite (map_nth p). unfold c, p.
    assert (Hx : B64.is_nan (B64.sub (nth i xs S754_nan) (val K)) = false).
    { rewrite Forall_forall in Hxs. apply Hxs, nth_In, Hi. }
    apply (B64Sub.maximum_parity L); [exact Hx|].
    apply B64Sub.sub_swap. exact Hx.
  - intros Phi xs K.
    rewrite payoff_call_array, payoff_put_array.
    do 2 eexists. split; [reflexivity|]. split; [reflexivity|].
    rewrite !length_map. split; [reflexivity|]. split; [reflexivity|].
    intros i Hi.
    pose (c := fun x => @maximum _ (exact Phi)
                          (@num_sub _ (exact Phi) x (val K))
                          (@num_lit _ (exact Phi) 0)).
    pose (p := fun x => @maximum _ (exact Phi)
                          (@num_sub _ (exact Phi) (val K) x)
                          (@num_lit _ (exact Phi) 0)).
    rewrite nth_indep with (d' := c 0%R)
      by (rewrite length_map; exact Hi).
    rewrite (map_nth c).
    rewrite nth_indep with (l := map _ xs) (d' := p 0%R)
      by (rewrite length_map; exact Hi).
    rewrite (map_nth p). unfold c, p.
    rewrite !(ExactFacts.exact_maximum_zero Phi).
    cbn [num_sub exact]. unfold Rmax.
    destruct (Rle_dec _ _), (Rle_dec _ _); lra.
Qed.

Lemma payoff_parity_witness :
  exists cs ps : list B64.float,
    option_payoff (A := binary64 Crude.libm)
      (NdArray [B64.lit 80; B64.lit 120]) (Py (B64.lit 100))
      (Some "call"%string) = Return (NdArray cs)
    /\ option_payoff (A := binary64 Crude.libm)
         (NdArray [B64.lit 80; B64.lit 120]) (Py (B64.lit 100))
         (Some "put"%string) = Return (NdArray ps)
    /\ SFeqb (B64.sub (nth 0 cs S754_nan) (nth 0 ps S754_nan))
             (B64.sub (B64.lit 80) (B64.lit 100)) = true.
Proof.
  destruct (proj1 payoff_parity Crude.libm
              [B64.lit 80; B64.lit 120] (Py (B64.lit 100)))
    as (cs & ps & Hc & Hp & _ & _ & H).
  - repeat constructor.
  - exists cs, ps. split; [exact Hc|]. split; [exact Hp|].
    apply (H 0%nat). cbn. lia.
Defined.

(** X5.  NaN goes through [option_payoff]: an element of the payoff, of the
    call or of the put, is a NaN exactly when the difference it is the
    maximum of is one, and that is the case whenever the spot price or the
    strike is a NaN.  (np.maximum returns the NaN, not the 0 beside it.) *)
Theorem payoff_nan_propagates :
  forall (L : B64.Libm) (xs : list B64.float) (K : scalar B64.float),
    exists cs ps : list B64.float,
      option_payoff (A := binary64 L) (NdArray xs) K (Some "call"%string)
      = Return (NdArray cs)
      /\ option_payoff (A := binary64 L) (NdArray xs) K (Some "put"%string)
         = Return (NdArray ps)
      /\ map B64.is_nan cs
         = map (fun x => B64.is_nan (B64.sub x (val K))) xs
      /\ map B64.is_nan ps
         = map (fun x => B64.is_nan (B64.sub (val K) x)) xs
      /\ (B64.is_nan (val K) = true ->
          Forall (fun y => B64.is_nan y = true) cs
          /\ Forall (fun y => B64.is_nan y = true) ps)
      /\ Forall2 (fun x y => B64.is_nan x = true -> B64.is_nan y = true) xs cs
      /\ Forall2 (fun x y => B64.is_nan x = true -> B64.is_nan y = true) xs ps.
Proof.
  intros L xs K.
  rewrite payoff_call_array, payoff_put_array.
  do 2 eexists. split; [reflexivity|]. split; [reflexivity|].
  rewrite !map_map.
  split; [apply map_ext; intros x; apply (B64Sub.maximum_is_nan L)|].
  split; [apply map_ext; intros x; apply (B64Sub.maximum_is_nan L)|].
  split; [|split].
  - intros HK. split; apply Forall_map, Forall_forall; intros x _;
      rewrite (B64Sub.maximum_is_nan L); apply B64Sub.sub_nan_operand; auto.
  - induction xs as [ | x xs IH]; constructor; [|exact IH].
    intros Hx. rewrite (B64Sub.maximum_is_nan L).
    apply B64Sub.sub_nan_operand; auto.
  - induction xs as [ | x xs IH]; constructor; [|exact IH].
    intros Hx. rewrite (B64Sub.maximum_is_nan L).
    apply B64Sub.sub_nan_operand; auto.
Qed.

Lemma payoff_nan_propagates_witness :
  exists cs ps : list B64.float,
    option_payoff (A := binary64 Crude.libm)
      (NdArray [B64.lit 80; S754_nan]) (Py (B64.lit 100))
      (Some "call"%string) = Return (NdArray cs)
    /\ option_payoff (A := binary64 Crude.libm)
         (NdArray [B64.lit 80; S754_nan]) (Py (B64.lit 100))
         (Some "put"%string) = Return (NdArray ps)
    /\ map B64.is_nan cs = [false; true]
    /\ map B64.is_nan ps = [false; true].
Proof.
  destruct (payoff_nan_propagates Crude.libm
              [B64.lit 80; S754_nan] (Py (B64.lit 100)))
    as (cs & ps & Hc & Hp & Hcs & Hps & _).
  exists cs, ps. split; [exact Hc|]. split; [exact Hp|].
  rewrite Hcs, Hps. split; vm_compute; reflexivity.
Defined.

(** ** How a run of the script ends *)

Section Linspace.

Context {num : Type} {A : Arith num}.

Lemma set_last_length (y : list num) (x : num) :
  length (set_last y x) = length y.
Proof.
  destruct y as [ | a y]; [reflexivity|]. unfold set_last.
  rewrite length_app, removelast_firstn_len, length_firstn. cbn. lia.
Qed.

Lemma np_linspace_length (start stop : num) (n : nat) :
  length (np_linspace start stop n) = n.
Proof.
  unfold np_linspace.
  assert (H : forall y : list num,
             length y = n ->
             length (if (1 <? n)%nat then set_last y stop else y) = n).
  { intros y Hy. destruct (1 <? n)%nat; [rewrite set_last_length|]; exact Hy. }
  apply H. rewrite length_map.
  destruct (0 <? n - 1)%nat; [destruct (num_is_zero _)|];
    rewrite length_map, length_map, length_seq; reflexivity.
Qed.

Lemma script_raises (log : list (event num)) :
  pow_overflow (Py (num_lit 0.20)) = true ->
  script log = Raise OverflowError.
Proof.
  intros H. unfold script.
  pose proof (np_linspace_length (num_lit 50) (num_lit 150) 100) as Hlen.
  destruct (np_linspace (num_lit 50) (num_lit 150) 100) as [ | s l];
    [discriminate Hlen|].
  cbn [comprehension]. unfold mbind at 1 2. unfold call_black_scholes.
  unfold mbind at 1. unfold emit, lift.
  rewrite (proj2 (black_scholes_OverflowError_iff (Np s) (Py (num_lit 100))
                    (Py (num_lit 1.0)) (Py (num_lit 0.05))
                    (Py (num_lit 0.20)) "call")).
  - reflexivity.
  - split; [reflexivity | exact H].
Qed.

End Linspace.

(** X6.  A run of the script ends in one of two ways, and libm's
    pow(0.2, 2.0) decides which: if it is an infinity the script raises
    OverflowError, as every call of black_scholes with the parameters of the
    script does; otherwise the script raises nothing and its last call is
    plt.show().  It never raises ZeroDivisionError or ValueError. *)
Theorem script_ends :
  forall (L : B64.Libm) (log : list (event B64.float)),
    if B64.is_inf (B64.libm_sq L (B64.lit 0.20))
    then script (A := binary64 L) log = Raise OverflowError
         /\ forall s : B64.float,
              black_scholes (A := binary64 L) (Np s) (Py (B64.lit 100))
                (Py (B64.lit 1.0)) (Py (B64.lit 0.05)) (Py (B64.lit 0.20))
                (Some "call"%string)
              = Raise OverflowError
    else exists (c : curves B64.float) (evs : list (event B64.float)),
        script (A := binary64 L) log = Return (c, log ++ evs ++ [Plt_show]).
Proof.
  intros L log.
  destruct (B64.is_inf (B64.libm_sq L (B64.lit 0.20))) eqn:E.
  - assert (Ho : pow_overflow (A := binary64 L) (Py (B64.lit 0.20)) = true).
    { change (B64.is_inf (B64.libm_sq L (B64.lit 0.20))
              && negb (B64.is_inf (B64.lit 0.20))
              && negb (B64.is_nan (B64.lit 0.20)) = true).
      rewrite E. reflexivity. }
    split; [apply (script_raises (A := binary64 L)); exact Ho|].
    intros s. apply black_scholes_OverflowError_iff.
    split; [reflexivity | exact Ho].
  - rewrite (script_outcome (A := binary64 L) (square_ok_binary64 L E)).
    match goal with
    | |- exists c evs, Return (?c0, log ++ ?calls ++ ?rest) = _ =>
        exists c0, (calls ++ removelast rest)
    end.
    cbn [removelast]. rewrite <- (app_assoc (map _ _)). reflexivity.
Qed.

(** X7.  What the script asks of matplotlib, in order, once both curves are
    computed: a 10 by 6 figure, the prices against S in blue, the payoffs
    against S in green and dashed, the title "Call Option Price vs Payoff at
    Expiry", the two axis labels, the legend, the grid, and show().  Nothing
    is plotted before the last call of black_scholes and the call of
    option_payoff have returned. *)
Theorem script_plots_after_computing :
  forall (L : B64.Libm) (log : list (event B64.float)),
    B64.is_inf (B64.libm_sq L (B64.lit 0.20)) = false ->
    exists c : curves B64.float,
      script (A := binary64 L) log
      = Return
          (c,
           log
             ++ map (fun s =>
                       Call_black_scholes (Np s) (Py (B64.lit 100))
                         (Py (B64.lit 1.0)) (Py (B64.lit 0.05))
                         (Py (B64.lit 0.20)) "call")
                  (spots c)
             ++ [ Call_option_payoff (NdArray (spots c)) (Py (B64.lit 100))
                    "call";
                  Plt_figure 10 6;
                  Plt_plot (spots c) (map val (prices c))
                    "Option Price (Black–Scholes)" "blue" None;
                  Plt_plot (spots c) (ydata (payoffs c))
                    "Payoff at Expiry" "green" (Some "--"%string);
                  Plt_title "Call Option Price vs Payoff at Expiry";
                  Plt_xlabel "Underlying Stock Price ($)";
                  Plt_ylabel "Value ($)";
                  Plt_legend; Plt_grid true; Plt_show ]).
Proof.
  intros L log E.
  rewrite (script_outcome (A := binary64 L) (square_ok_binary64 L E)).
  match goal with
  | |- exists c, Return (?c0, _) = _ => exists c0
  end.
  cbn [spots prices payoffs ydata]. reflexivity.
Qed.

Lemma script_plots_after_computing_witness :
  B64.is_inf (B64.libm_sq Crude.libm (B64.lit 0.20)) = false
  /\ exists (c : curves B64.float) (evs : list (event B64.float)),
      script (A := binary64 Crude.libm) [] = Return (c, evs)
      /\ last evs Plt_legend = Plt_show.
Proof.
  assert (H : B64.is_inf (B64.libm_sq Crude.libm (B64.lit 0.20)) = false)
    by (vm_compute; reflexivity).
  split; [exact H|].
  destruct (script_plots_after_computing Crude.libm [] H) as (c & Hc).
  exists c. eexists. split; [exact Hc|].
  rewrite app_nil_l.
  match goal with
  | |- last (?calls ++ ?rest) _ = _ =>
      change (last (calls ++ removelast rest ++ [Plt_show]) Plt_legend
              = Plt_show)
  end.
  rewrite app_assoc. apply last_last.
Defined.

(** ** Bounds on the two prices, in exact arithmetic *)

Section PriceBounds.

Local Open Scope R_scope.

Variables (Phi : R -> R) (c : R).
Hypothesis c_pos : 0 < c.
Hypothesis Phi_density :
  forall x, derivable_pt_lim Phi x (gauss_kernel x / c).
Hypothesis Phi_symmetric : forall x, Phi x + Phi (- x) = 1.
Hypothesis Phi_left :
  forall eps, 0 < eps -> exists M, forall x, x < M -> Rabs (Phi x) < eps.

Lemma Phi_range x : 0 <= Phi x <= 1.
Proof.
  pose proof (Phi_nonneg Phi c c_pos Phi_density Phi_left x).
  pose proof (Phi_nonneg Phi c c_pos Phi_density Phi_left (- x)).
  pose proof (Phi_symmetric x). lra.
Qed.

Lemma put_lower_bound (S K T r sigma : R) :
  0 < S -> 0 < K -> 0 < T -> 0 < sigma ->
  let d1 := (ln (S / K) + (r + 1 / 2 * (sigma * sigma)) * T) / (sigma * sqrt T) in
  let d2 := d1 - sigma * sqrt T in
  Rmax (K * exp (- (r * T)) - S) 0
  <= K * exp (- (r * T)) * Phi (- d2) - S * Phi (- d1).
Proof.
  intros HS HK HT Hsigma d1 d2.
  pose proof (call_lower_bound Phi c c_pos Phi_density Phi_symmetric Phi_left
                S K T r sigma HS HK HT Hsigma) as H.
  cbv zeta in H. fold d1 in H. fold d2 in H.
  pose proof (Phi_symmetric d1) as H1. pose proof (Phi_symmetric d2) as H2.
  replace (Phi (- d1)) with (1 - Phi d1) by lra.
  replace (Phi (- d2)) with (1 - Phi d2) by lra.
  pose proof (Rmax_l (S - K * exp (- (r * T))) 0) as Hl.
  pose proof (Rmax_r (S - K * exp (- (r * T))) 0) as Hr.
  apply Rmax_lub; lra.
Qed.

Lemma price_upper_bounds (S K T r sigma : R) :
  0 < S -> 0 < K ->
  let d1 := (ln (S / K) + (r + 1 / 2 * (sigma * sigma)) * T) / (sigma * sqrt T) in
  let d2 := d1 - sigma * sqrt T in
  S * Phi d1 - K * exp (- (r * T)) * Phi d2 <= S
  /\ K * exp (- (r * T)) * Phi (- d2) - S * Phi (- d1) <= K * exp (- (r * T)).
Proof.
  intros HS HK d1 d2.
  pose proof (exp_pos (- (r * T))) as HE.
  assert (HKE : 0 < K * exp (- (r * T))) by (apply Rmult_lt_0_compat; assumption).
  pose proof (Phi_range d1). pose proof (Phi_range d2).
  pose proof (Phi_range (- d1)). pose proof (Phi_range (- d2)).
  split; nra.
Qed.

Lemma call_above_payoff (S K T r sigma : R) :
  0 < S -> 0 < K -> 0 < T -> 0 < sigma -> 0 <= r ->
  let d1 := (ln (S / K) + (r + 1 / 2 * (sigma * sigma)) * T) / (sigma * sqrt T) in
  let d2 := d1 - sigma * sqrt T in
  Rmax (S - K) 0 <= S * Phi d1 - K * exp (- (r * T)) * Phi d2.
Proof.
  intros HS HK HT Hsigma Hr d1 d2.
  pose proof (call_lower_bound Phi c c_pos Phi_density Phi_symmetric Phi_left
                S K T r sigma HS HK HT Hsigma) as H.
  cbv zeta in H. fold d1 in H. fold d2 in H.
  assert (HE : exp (- (r * T)) <= 1).
  { rewrite <- exp_0. assert (Hrt : 0 <= r * T) by nra.
    destruct (Req_dec (r * T) 0) as [-> | Hne].
    - rewrite Ropp_0. lra.
    - left. apply exp_increasing. lra. }
  pose proof (Rmax_l (S - K * exp (- (r * T))) 0) as Hl.
  pose proof (Rmax_r (S - K * exp (- (r * T))) 0) as Hr'.
  apply Rmax_lub; nra.
Qed.

End PriceBounds.

(** X8.  In exact arithmetic, for the standard normal distribution function
    and S, K, T, sigma > 0, the price of the put is at least
    max(K e^(-rT) - S, 0). *)
Theorem put_no_arbitrage_lower_bound :
  forall (Phi : R -> R) (c : R),
    (0 < c)%R ->
    (forall x : R, derivable_pt_lim Phi x (gauss_kernel x / c)%R) ->
    (forall x : R, Phi x + Phi (- x) = 1)%R ->
    (forall eps : R,
        0 < eps -> exists M : R, forall x : R, x < M -> Rabs (Phi x) < eps)%R ->
    forall S K T r sigma : scalar R,
      (0 < val S)%R -> (0 < val K)%R -> (0 < val T)%R -> (0 < val sigma)%R ->
      exists p : scalar R,
        black_scholes (A := exact Phi) S K T r sigma (Some "put"%string)
        = Return p
        /\ (Rmax (val K * exp (- (val r * val T)) - val S) 0 <= val p)%R.
Proof.
  intros Phi c Hc Hdens Hsym Hleft S K T r sigma HS HK HT Hsigma.
  assert (HK0 : val K <> 0%R) by lra.
  destruct (closed_form_exact Phi S K T r sigma HK0) as [_ Hput].
  cbv zeta in Hput.
  eexists. split; [exact Hput|]. cbn [val].
  apply (put_lower_bound Phi c Hc Hdens Hsym Hleft); assumption.
Qed.

Lemma put_no_arbitrage_lower_bound_witness :
  exists (Phi : R -> R) (p : scalar R),
    black_scholes (A := exact Phi)
      (Py 80%R) (Py 100%R) (Py 1%R) (Py 0.05%R) (Py 0.20%R)
      (Some "put"%string)
    = Return p
    /\ (Rmax (100 * exp (- (0.05 * 1)) - 80) 0 <= val p)%R.
Proof.
  destruct standard_normal_exists as (Phi & c & Hc & Hdens & Hsym & Hleft).
  exists Phi.
  apply (put_no_arbitrage_lower_bound Phi c Hc Hdens Hsym Hleft
           (Py 80%R) (Py 100%R) (Py 1%R) (Py 0.05%R) (Py 0.20%R));
    cbn [val]; lra.
Defined.

(** X9.  In exact arithmetic, for the standard normal distribution function
    and S, K, T, sigma > 0, the call is worth at most the stock and the put
    at most the discounted strike: call <= S and put <= K e^(-rT). *)
Theorem price_at_most_the_asset :
  forall (Phi : R -> R) (c : R),
    (0 < c)%R ->
    (forall x : R, derivable_pt_lim Phi x (gauss_kernel x / c)%R) ->
    (forall x : R, Phi x + Phi (- x) = 1)%R ->
    (forall eps : R,
        0 < eps -> exists M : R, forall x : R, x < M -> Rabs (Phi x) < eps)%R ->
    forall S K T r sigma : scalar R,
      (0 < val S)%R -> (0 < val K)%R -> (0 < val T)%R -> (0 < val sigma)%R ->
      exists call put : scalar R,
        black_scholes (A := exact Phi) S K T r sigma (Some "call"%string)
        = Return call
        /\ black_scholes (A := exact Phi) S K T r sigma (Some "put"%string)
           = Return put
        /\ (val call <= val S)%R
        /\ (val put <= val K * exp (- (val r * val T)))%R.
Proof.
  intros Phi c Hc Hdens Hsym Hleft S K T r sigma HS HK HT Hsigma.
  assert (HK0 : val K <> 0%R) by lra.
  destruct (closed_form_exact Phi S K T r sigma HK0) as [Hcall Hput].
  cbv zeta in Hcall, Hput.
  eexists. eexists. split; [exact Hcall|]. split; [exact Hput|]. cbn [val].
  apply (price_upper_bounds Phi c Hc Hdens Hsym Hleft); assumption.
Qed.

Lemma price_at_most_the_asset_witness :
  exists (Phi : R -> R) (call put : scalar R),
    black_scholes (A := exact Phi)
      (Py 120%R) (Py 100%R) (Py 1%R) (Py 0.05%R) (Py 0.20%R)
      (Some "call"%string) = Return call
    /\ black_scholes (A := exact Phi)
         (Py 120%R) (Py 100%R) (Py 1%R) (Py 0.05%R) (Py 0.20%R)
         (Some "put"%string) = Return put
    /\ (val call <= 120)%R
    /\ (val put <= 100 * exp (- (0.05 * 1)))%R.
Proof.
  destruct standard_normal_exists as (Phi & c & Hc & Hdens & Hsym & Hleft).
  exists Phi.
  apply (price_at_most_the_asset Phi c Hc Hdens Hsym Hleft
           (Py 120%R) (Py 100%R) (Py 1%R) (Py 0.05%R) (Py 0.20%R));
    cbn [val]; lra.
Defined.

(** X10.  In exact arithmetic, for the standard normal distribution function,
    S, K, T, sigma > 0 and r >= 0, what [black_scholes] returns for a call
    is at least what [option_payoff] returns for it: before expiry the call
    is worth at least its payoff. *)
Theorem call_price_at_least_payoff :
  forall (Phi : R -> R) (c : R),
    (0 < c)%R ->
    (forall x : R, derivable_pt_lim Phi x (gauss_kernel x / c)%R) ->
    (forall x : R, Phi x + Phi (- x) = 1)%R ->
    (forall eps : R,
        0 < eps -> exists M : R, forall x : R, x < M -> Rabs (Phi x) < eps)%R ->
    forall S K T r sigma : scalar R,
      (0 < val S)%R -> (0 < val K)%R -> (0 < val T)%R -> (0 < val sigma)%R ->
      (0 <= val r)%R ->
      exists price payoff : scalar R,
        black_scholes (A := exact Phi) S K T r sigma (Some "call"%string)
        = Return price
        /\ option_payoff (A := exact Phi) (Scalar S) K (Some "call"%string)
           = Return (Scalar payoff)
        /\ (val payoff <= val price)%R.
Proof.
  intros Phi c Hc Hdens Hsym Hleft S K T r sigma HS HK HT Hsigma Hr.
  assert (HK0 : val K <> 0%R) by lra.
  destruct (closed_form_exact Phi S K T r sigma HK0) as [Hcall _].
  cbv zeta in Hcall.
  eexists. eexists. split; [exact Hcall|].
  split; [apply payoff_call_scalar|]. cbn [val].
  rewrite (ExactFacts.exact_maximum_zero Phi). cbn [num_sub exact].
  apply (call_above_payoff Phi c Hc Hdens Hsym Hleft); assumption.
Qed.

Lemma call_price_at_least_payoff_witness :
  exists (Phi : R -> R) (price payoff : scalar R),
    black_scholes (A := exact Phi)
      (Py 120%R) (Py 100%R) (Py 1%R) (Py 0.05%R) (Py 0.20%R)
      (Some "call"%string) = Return price
    /\ option_payoff (A := exact Phi) (Scalar (Py 120%R)) (Py 100%R)
         (Some "call"%string) = Return (Scalar payoff)
    /\ (val payoff <= val price)%R.
Proof.
  destruct standard_normal_exists as (Phi & c & Hc & Hdens & Hsym & Hleft).
  exists Phi.
  apply (call_price_at_least_payoff Phi c Hc Hdens Hsym Hleft
           (Py 120%R) (Py 100%R) (Py 1%R) (Py 0.05%R) (Py 0.20%R));
    cbn [val]; lra.
Defined.

(** ** The curves of the script, in exact arithmetic *)

Lemma spec_grid_R_pos (i : nat) : (0 < spec_grid_R i)%R.
Proof. unfold spec_grid_R. pose proof (pos_INR i). nra. Qed.

Lemma Forall2_map_same {X Y Z : Type} (P : Y -> Z -> Prop)
      (f : X -> Y) (g : X -> Z) (l : list X) :
  Forall (fun x => P (f x) (g x)) l -> Forall2 P (map f l) (map g l).
Proof. induction 1; constructor; assumption. Qed.

(** X11.  In exact arithmetic, for the standard normal distribution
    function, the script runs to its end and the curve of the prices lies on
    or above the curve of the payoffs: at every one of the 100 spot values
    the price is at least the payoff. *)
Theorem script_prices_above_payoffs :
  forall (Phi : R -> R) (c : R),
    (0 < c)%R ->
    (forall x : R, derivable_pt_lim Phi x (gauss_kernel x / c)%R) ->
    (forall x : R, Phi x + Phi (- x) = 1)%R ->
    (forall eps : R,
        0 < eps -> exists M : R, forall x : R, x < M -> Rabs (Phi x) < eps)%R ->
    exists (cv : curves R) (log : list (event R)),
      script (A := exact Phi) [] = Return (cv, log)
      /\ length (prices cv) = 100%nat
      /\ length (ydata (payoffs cv)) = 100%nat
      /\ Forall2 (fun payoff price => (payoff <= val price)%R)
           (ydata (payoffs cv)) (prices cv).
Proof.
  intros Phi c Hc Hdens Hsym Hleft.
  rewrite (script_outcome (A := exact Phi)
             (ExactFacts.pow_overflow_never Phi _)).
  eexists. eexists. split; [reflexivity|]. cbn [prices payoffs ydata].
  change (@num_lit R (exact Phi)) with Q2R.
  rewrite linspace_exact. rewrite !length_map, length_seq.
  split; [reflexivity|]. split; [reflexivity|].
  apply Forall2_map_same, Forall_map, Forall_forall. intros i _.
  pose proof (spec_grid_R_pos i) as Hs.
  assert (H100 : Q2R 100 = 100%R) by (unfold Q2R; cbn; lra).
  assert (H1 : Q2R 1.0 = 1%R) by (unfold Q2R; cbn; lra).
  unfold price_at, payoff_at. change (@num_lit R (exact Phi)) with Q2R.
  rewrite H100, H1.
  assert (HK0 : val (Py 100%R) <> 0%R) by (cbn; lra).
  destruct (closed_form_exact Phi (Np (spec_grid_R i)) (Py 100%R) (Py 1%R)
              (Py 0.05%R) (Py 0.20%R) HK0) as [Hcall _].
  cbv zeta in Hcall. rewrite Hcall. cbn [val].
  rewrite (ExactFacts.exact_maximum_zero Phi). cbn [num_sub exact].
  apply (call_above_payoff Phi c Hc Hdens Hsym Hleft); lra.
Qed.

Lemma script_prices_above_payoffs_witness :
  exists (Phi : R -> R) (cv : curves R) (log : list (event R)),
    script (A := exact Phi) [] = Return (cv, log)
    /\ Forall2 (fun payoff price => (payoff <= val price)%R)
         (ydata (payoffs cv)) (prices cv).
Proof.
  destruct standard_normal_exists as (Phi & c & Hc & Hdens & Hsym & Hleft).
  exists Phi.
  destruct (script_prices_above_payoffs Phi c Hc Hdens Hsym Hleft)
    as (cv & log & Hrun & _ & _ & H).
  exists cv, log. split; assumption.
Defined.

(** ** Two identities of the closed form *)

(** X12.  In exact arithmetic, whatever the distribution function, and for
    S, K, T, sigma > 0: the price is homogeneous in the stock price and the
    strike.  Multiplying S and K by the same factor lam > 0 multiplies the
    price by it, for the call and for the put (a price in cents is a hundred
    times the price in dollars). *)
Theorem price_scales_with_the_unit :
  forall (Phi : R -> R) (lam : R) (S K T r sigma S' K' : scalar R)
         (option_type : string),
    (0 < lam)%R ->
    (0 < val S)%R -> (0 < val K)%R -> (0 < val T)%R -> (0 < val sigma)%R ->
    val S' = (lam * val S)%R -> val K' = (lam * val K)%R ->
    option_type = "call"%string \/ option_type = "put"%string ->
    exists p p' : scalar R,
      black_scholes (A := exact Phi) S K T r sigma (Some option_type)
      = Return p
      /\ black_scholes (A := exact Phi) S' K' T r sigma (Some option_type)
         = Return p'
      /\ val p' = (lam * val p)%R.
Proof.
  intros Phi lam S K T r sigma S' K' option_type
    Hlam0 HS0 HK0 HT0 Hsigma0 HS' HK' Hot.
  assert (Hlam : lam <> 0%R) by lra.
  assert (HK : val K <> 0%R) by lra.
  assert (HK'0 : val K' <> 0%R).
  { rewrite HK'. apply Rmult_integral_contrapositive_currified; assumption. }
  destruct (closed_form_exact Phi S K T r sigma HK) as [Hcall Hput].
  destruct (closed_form_exact Phi S' K' T r sigma HK'0) as [Hcall' Hput'].
  cbv zeta in Hcall, Hput, Hcall', Hput'.
  assert (Hq : (val S' / val K' = val S / val K)%R).
  { rewrite HS', HK'. field. split; assumption. }
  rewrite Hq in Hcall', Hput'.
  destruct Hot as [-> | ->].
  - eexists. eexists. split; [exact Hcall|]. split; [exact Hcall'|].
    cbn [val]. rewrite HS', HK'. ring.
  - eexists. eexists. split; [exact Hput|]. split; [exact Hput'|].
    cbn [val]. rewrite HS', HK'. ring.
Qed.

Lemma price_scales_with_the_unit_witness :
  exists p p' : scalar R,
    black_scholes (A := exact logistic)
      (Py 120%R) (Py 100%R) (Py 1%R) (Py 0.05%R) (Py 0.20%R)
      (Some "put"%string) = Return p
    /\ black_scholes (A := exact logistic)
         (Py 12000%R) (Py 10000%R) (Py 1%R) (Py 0.05%R) (Py 0.20%R)
         (Some "put"%string) = Return p'
    /\ val p' = (100 * val p)%R.
Proof.
  apply (price_scales_with_the_unit logistic 100%R
           (Py 120%R) (Py 100%R) (Py 1%R) (Py 0.05%R) (Py 0.20%R)
           (Py 12000%R) (Py 10000%R) "put"%string);
    cbn [val]; try lra.
  right; reflexivity.
Defined.

(** X13.  In exact arithmetic, whatever the distribution function: at a
    zero interest rate, and for S, K, T, sigma > 0, the put on a stock at S
    with strike K has the price of the call on a stock at K with strike S. *)
Theorem put_is_the_call_with_roles_exchanged :
  forall (Phi : R -> R) (S K T r sigma : scalar R),
    (0 < val S)%R -> (0 < val K)%R -> (0 < val T)%R -> (0 < val sigma)%R ->
    val r = 0%R ->
    exists put call : scalar R,
      black_scholes (A := exact Phi) S K T r sigma (Some "put"%string)
      = Return put
      /\ black_scholes (A := exact Phi) K S T r sigma (Some "call"%string)
         = Return call
      /\ val put = val call.
Proof.
  intros Phi S K T r sigma HS HK HT Hsigma Hr.
  assert (HK0 : val K <> 0%R) by lra.
  assert (HS0 : val S <> 0%R) by lra.
  destruct (closed_form_exact Phi S K T r sigma HK0) as [_ Hput].
  destruct (closed_form_exact Phi K S T r sigma HS0) as [Hcall _].
  cbv zeta in Hput, Hcall.
  eexists. eexists. split; [exact Hput|]. split; [exact Hcall|].
  cbn [val]. rewrite Hr.
  remember (val S) as s. remember (val K) as k.
  remember (val T) as t. remember (val sigma) as v.
  assert (Hst : (0 < sqrt t)%R) by (apply sqrt_lt_R0; exact HT).
  assert (Hsq : (sqrt t * sqrt t = t)%R) by (apply sqrt_sqrt; lra).
  assert (Hln : (ln (k / s) = - ln (s / k))%R).
  { unfold Rdiv. rewrite !ln_mult, !ln_Rinv; try assumption; try lra.
    - apply Rinv_0_lt_compat; assumption.
    - apply Rinv_0_lt_compat; assumption. }
  set (a := (v * sqrt t)%R).
  assert (Ha : (0 < a)%R) by (apply Rmult_lt_0_compat; assumption).
  assert (Ha2 : (a * a = v * v * t)%R).
  { unfold a. rewrite <- Hsq at 3. ring. }
  set (d1 := ((ln (s / k) + (0 + 1 / 2 * (v * v)) * t) / a)%R).
  assert (E1 : ((ln (k / s) + (0 + 1 / 2 * (v * v)) * t) / a
                = - (d1 - a))%R).
  { unfold d1. rewrite Hln.
    replace ((0 + 1 / 2 * (v * v)) * t)%R with (1 / 2 * (a * a))%R
      by (rewrite Ha2; ring).
    field. lra. }
  assert (E2 : ((ln (k / s) + (0 + 1 / 2 * (v * v)) * t) / a - a
                = - d1)%R).
  { rewrite E1. ring. }
  rewrite E2, E1. rewrite Rmult_0_l, Ropp_0, exp_0. ring.
Qed.

Lemma put_is_the_call_with_roles_exchanged_witness :
  exists put call : scalar R,
    black_scholes (A := exact logistic)
      (Py 120%R) (Py 100%R) (Py 1%R) (Py 0%R) (Py 0.20%R)
      (Some "put"%string) = Return put
    /\ black_scholes (A := exact logistic)
         (Py 100%R) (Py 120%R) (Py 1%R) (Py 0%R) (Py 0.20%R)
         (Some "call"%string) = Return call
    /\ val put = val call.
Proof.
  apply (put_is_the_call_with_roles_exchanged logistic
           (Py 120%R) (Py 100%R) (Py 1%R) (Py 0%R) (Py 0.20%R));
    cbn [val]; lra.
Defined.

(** ** The price as a function of the stock price *)

Section SpotMonotone.

Local Open Scope R_scope.

Variables (Phi : R -> R) (c : R).
Hypothesis c_pos : 0 < c.
Hypothesis Phi_density :
  forall x, derivable_pt_lim Phi x (gauss_kernel x / c).
Hypothesis Phi_symmetric : forall x, Phi x + Phi (- x) = 1.
Hypothesis Phi_left :
  forall eps, 0 < eps -> exists M, forall x, x < M -> Rabs (Phi x) < eps.

Variables (K T r sigma : R).
Hypothesis K_pos : 0 < K.
Hypothesis T_pos : 0 < T.
Hypothesis sigma_pos : 0 < sigma.

(** The call, as a function of x = ln S. *)
Let a : R := sigma * sqrt T.
Let u (x : R) : R := (x - ln K + (r + 1 / 2 * (sigma * sigma)) * T) / a.
Let call_of_log (x : R) : R :=
  exp x * Phi (u x) - K * exp (- (r * T)) * Phi (u x - a).

Lemma a_pos : 0 < a.
Proof.
  apply Rmult_lt_0_compat; [exact sigma_pos | apply sqrt_lt_R0; exact T_pos].
Qed.

Lemma a_square : a * a = sigma * sigma * T.
Proof.
  unfold a. replace (sigma * sqrt T * (sigma * sqrt T))
    with (sigma * sigma * (sqrt T * sqrt T)) by ring.
  rewrite sqrt_sqrt by lra. reflexivity.
Qed.

(** S phi(d1) = K e^(-rT) phi(d2) *)
Lemma kernel_identity x :
  exp x * gauss_kernel (u x) = K * exp (- (r * T)) * gauss_kernel (u x - a).
Proof.
  pose proof a_pos as Ha. pose proof a_square as Ha2.
  unfold gauss_kernel.
  rewrite <- (exp_ln K) at 1 by exact K_pos.
  rewrite <- !exp_plus. f_equal.
  assert (Hau : a * u x = x - ln K + (r + 1 / 2 * (sigma * sigma)) * T).
  { unfold u. field. lra. }
  replace ((u x - a) ^ 2) with (u x ^ 2 - 2 * (a * u x) + a * a) by ring.
  rewrite Hau, Ha2. field.
Qed.

(** The delta of the call is Phi(d1). *)
Lemma call_of_log_derivative x :
  derivable_pt_lim call_of_log x (exp x * Phi (u x)).
Proof.
  pose proof a_pos as Ha.
  unfold call_of_log. eapply dl_eq.
  { apply dl_minus.
    - apply dl_mult.
      + apply (dl_exp (fun t => t)). apply dl_id.
      + apply (dl_comp u Phi); [unfold u; derive | apply Phi_density].
    - apply dl_mult; [apply dl_const|].
      apply (dl_comp (fun t => u t - a) Phi);
        [unfold u; derive | apply Phi_density]. }
  cbv beta.
  pose proof (kernel_identity x) as Hk.
  set (g1 := gauss_kernel (u x)) in *.
  set (g2 := gauss_kernel (u x - a)) in *.
  set (E := exp (- (r * T))) in *.
  replace (K * E * (g2 / c * ((1 + 0 + 0) / a + 0)))
    with (K * E * g2 / (c * a)) by (field; lra).
  rewrite <- Hk. field. lra.
Qed.

Lemma call_of_log_increasing x y : x <= y -> call_of_log x <= call_of_log y.
Proof.
  apply monotone_from_derivative with (f' := fun t => exp t * Phi (u t)).
  - exact call_of_log_derivative.
  - intros t. apply Rmult_le_pos; [left; apply exp_pos|].
    apply (Phi_nonneg Phi c c_pos Phi_density Phi_left).
Qed.

(** The put is the call less S plus K e^(-rT); its delta is Phi(d1) - 1. *)
Lemma put_of_log_decreasing x y :
  x <= y -> exp x - call_of_log x <= exp y - call_of_log y.
Proof.
  apply monotone_from_derivative
    with (f := fun t => exp t - call_of_log t)
         (f' := fun t => exp t * (1 - Phi (u t))).
  - intros t. eapply dl_eq.
    { apply dl_minus; [|apply call_of_log_derivative].
      apply (dl_exp (fun t => t)). apply dl_id. }
    ring.
  - intros t. apply Rmult_le_pos; [left; apply exp_pos|].
    pose proof (Phi_nonneg Phi c c_pos Phi_density Phi_left (- u t)).
    pose proof (Phi_symmetric (u t)). lra.
Qed.

Lemma call_at_spot (S : R) :
  0 < S ->
  let d1 := (ln (S / K) + (r + 1 / 2 * (sigma * sigma)) * T) / (sigma * sqrt T) in
  let d2 := d1 - sigma * sqrt T in
  S * Phi d1 - K * exp (- (r * T)) * Phi d2 = call_of_log (ln S).
Proof.
  intros HS d1 d2. unfold call_of_log.
  rewrite exp_ln by exact HS.
  assert (E : d1 = u (ln S)).
  { unfold d1, u, a. unfold Rdiv at 2.
    rewrite ln_mult, ln_Rinv; try assumption.
    - reflexivity.
    - apply Rinv_0_lt_compat; assumption. }
  unfold d2. fold a. rewrite E. reflexivity.
Qed.

Lemma prices_monotone_in_spot (S1 S2 : R) :
  0 < S1 -> S1 <= S2 ->
  let d1 S := (ln (S / K) + (r + 1 / 2 * (sigma * sigma)) * T) / (sigma * sqrt T) in
  let d2 S := d1 S - sigma * sqrt T in
  let call S := S * Phi (d1 S) - K * exp (- (r * T)) * Phi (d2 S) in
  let put S := K * exp (- (r * T)) * Phi (- d2 S) - S * Phi (- d1 S) in
  call S1 <= call S2 /\ put S2 <= put S1.
Proof.
  intros H1 H12 d1 d2 call put.
  assert (H2 : 0 < S2) by lra.
  assert (Hln : ln S1 <= ln S2).
  { destruct (Rle_lt_or_eq_dec _ _ H12) as [Hlt | ->]; [|lra].
    left. apply ln_increasing; assumption. }
  assert (Hput : forall S, put S = K * exp (- (r * T)) - S + call S).
  { intros S. unfold put, call.
    pose proof (Phi_symmetric (d1 S)). pose proof (Phi_symmetric (d2 S)).
    replace (Phi (- d1 S)) with (1 - Phi (d1 S)) by lra.
    replace (Phi (- d2 S)) with (1 - Phi (d2 S)) by lra.
    ring. }
  assert (Hc1 : call S1 = call_of_log (ln S1)) by (apply call_at_spot; exact H1).
  assert (Hc2 : call S2 = call_of_log (ln S2)) by (apply call_at_spot; exact H2).
  pose proof (call_of_log_increasing _ _ Hln) as Hinc.
  pose proof (put_of_log_decreasing _ _ Hln) as Hdec.
  rewrite !exp_ln in Hdec by assumption.
  rewrite !Hput, Hc1, Hc2. split; lra.
Qed.

End SpotMonotone.

(** X14.  In exact arithmetic, for the standard normal distribution function
    and K, T, sigma > 0: as the stock price S > 0 grows, the price of the
    call does not fall and the price of the put does not rise. *)
Theorem prices_follow_the_spot :
  forall (Phi : R -> R) (c : R),
    (0 < c)%R ->
    (forall x : R, derivable_pt_lim Phi x (gauss_kernel x / c)%R) ->
    (forall x : R, Phi x + Phi (- x) = 1)%R ->
    (forall eps : R,
        0 < eps -> exists M : R, forall x : R, x < M -> Rabs (Phi x) < eps)%R ->
    forall S1 S2 K T r sigma : scalar R,
      (0 < val S1)%R -> (val S1 <= val S2)%R ->
      (0 < val K)%R -> (0 < val T)%R -> (0 < val sigma)%R ->
      exists call1 call2 put1 put2 : scalar R,
        black_scholes (A := exact Phi) S1 K T r sigma (Some "call"%string)
        = Return call1
        /\ black_scholes (A := exact Phi) S2 K T r sigma (Some "call"%string)
           = Return call2
        /\ black_scholes (A := exact Phi) S1 K T r sigma (Some "put"%string)
           = Return put1
        /\ black_scholes (A := exact Phi) S2 K T r sigma (Some "put"%string)
           = Return put2
        /\ (val call1 <= val call2)%R
        /\ (val put2 <= val put1)%R.
Proof.
  intros Phi c Hc Hdens Hsym Hleft S1 S2 K T r sigma H1 H12 HK HT Hsigma.
  assert (HK0 : val K <> 0%R) by lra.
  destruct (closed_form_exact Phi S1 K T r sigma HK0) as [Hcall1 Hput1].
  destruct (closed_form_exact Phi S2 K T r sigma HK0) as [Hcall2 Hput2].
  cbv zeta in Hcall1, Hput1, Hcall2, Hput2.
  do 4 eexists.
  split; [exact Hcall1|]. split; [exact Hcall2|].
  split; [exact Hput1|]. split; [exact Hput2|]. cbn [val].
  apply (prices_monotone_in_spot Phi c Hc Hdens Hsym Hleft
           (val K) (val T) (val r) (val sigma) HK HT Hsigma
           (val S1) (val S2) H1 H12).
Qed.

Lemma prices_follow_the_spot_witness :
  exists (Phi : R -> R) (call1 call2 put1 put2 : scalar R),
    black_scholes (A := exact Phi)
      (Py 80%R) (Py 100%R) (Py 1%R) (Py 0.05%R) (Py 0.20%R)
      (Some "call"%string) = Return call1
    /\ black_scholes (A := exact Phi)
         (Py 120%R) (Py 100%R) (Py 1%R) (Py 0.05%R) (Py 0.20%R)
         (Some "call"%string) = Return call2
    /\ black_scholes (A := exact Phi)
         (Py 80%R) (Py 100%R) (Py 1%R) (Py 0.05%R) (Py 0.20%R)
         (Some "put"%string) = Return put1
    /\ black_scholes (A := exact Phi)
         (Py 120%R) (Py 100%R) (Py 1%R) (Py 0.05%R) (Py 0.20%R)
         (Some "put"%string) = Return put2
    /\ (val call1 <= val call2)%R
    /\ (val put2 <= val put1)%R.
Proof.
  destruct standard_normal_exists as (Phi & c & Hc & Hdens & Hsym & Hleft).
  exists Phi.
  apply (prices_follow_the_spot Phi c Hc Hdens Hsym Hleft
           (Py 80%R) (Py 120%R) (Py 100%R) (Py 1%R) (Py 0.05%R) (Py 0.20%R));
    cbn [val]; lra.
Defined.

(** ** The price just before expiry *)

Section Expiry.

Local Open Scope R_scope.

Variables (Phi : R -> R) (c : R).
Hypothesis c_pos : 0 < c.
Hypothesis Phi_density :
  forall x, derivable_pt_lim Phi x (gauss_kernel x / c).
Hypothesis Phi_symmetric : forall x, Phi x + Phi (- x) = 1.
Hypothesis Phi_left :
  forall eps, 0 < eps -> exists M, forall x, x < M -> Rabs (Phi x) < eps.

Lemma gauss_kernel_le_1 x : gauss_kernel x <= 1.
Proof.
  unfold gauss_kernel.
  assert (H0 : 0 <= x ^ 2 / 2) by (pose proof (pow2_ge_0 x); lra).
  pose proof (exp_ineq1_le (x ^ 2 / 2)) as H1.
  pose proof (exp_pos (- (x ^ 2 / 2))) as H2.
  assert (H3 : exp (x ^ 2 / 2) * exp (- (x ^ 2 / 2)) = 1).
  { rewrite <- exp_plus, Rplus_opp_r, exp_0. reflexivity. }
  nra.
Qed.

(** The density is at most 1/c, so Phi rises by at most (y - x)/c. *)
Lemma Phi_lipschitz x y : x <= y -> Phi y - Phi x <= (y - x) / c.
Proof.
  intros Hxy.
  assert (H : (fun t => t / c - Phi t) x <= (fun t => t / c - Phi t) y).
  { apply monotone_from_derivative
      with (f := fun t => t / c - Phi t)
           (f' := fun t => 1 / c - gauss_kernel t / c); [| |exact Hxy].
    - intros t. apply dl_minus; [|apply Phi_density].
      apply dl_div_const, dl_id.
    - intros t. pose proof (gauss_kernel_le_1 t).
      replace (1 / c - gauss_kernel t / c) with ((1 - gauss_kernel t) * / c)
        by (field; lra).
      apply Rmult_le_pos; [lra|]. left. apply Rinv_0_lt_compat, c_pos. }
  cbv beta in H.
  replace ((y - x) / c) with (y / c - x / c) by (field; lra). lra.
Qed.

(** What the call is worth above max(S - K e^(-rT), 0). *)
Lemma time_value_bound (S K T r sigma : R) :
  0 < S -> 0 < K -> 0 < T -> 0 < sigma ->
  let d1 := (ln (S / K) + (r + 1 / 2 * (sigma * sigma)) * T) / (sigma * sqrt T) in
  let d2 := d1 - sigma * sqrt T in
  S * Phi d1 - K * exp (- (r * T)) * Phi d2
  <= Rmax (S - K * exp (- (r * T))) 0
     + (S + K * exp (- (r * T))) * (sigma * sqrt T / c).
Proof.
  intros HS HK HT Hsigma d1 d2.
  set (a := sigma * sqrt T) in *.
  assert (Ha : 0 < a).
  { apply Rmult_lt_0_compat; [exact Hsigma | apply sqrt_lt_R0; exact HT]. }
  set (KE := K * exp (- (r * T))).
  assert (HKE : 0 < KE).
  { apply Rmult_lt_0_compat; [exact HK | apply exp_pos]. }
  set (q := a / c).
  assert (Hq : 0 < q) by (apply Rdiv_lt_0_compat; assumption).
  pose proof (Phi_range Phi c c_pos Phi_density Phi_symmetric Phi_left d1)
    as [H1a H1b].
  pose proof (Phi_range Phi c c_pos Phi_density Phi_symmetric Phi_left d2)
    as [H2a H2b].
  assert (H21 : Phi d2 <= Phi d1).
  { apply (Phi_increasing Phi c c_pos Phi_density). unfold d2. lra. }
  assert (Hlip : Phi d1 - Phi d2 <= q).
  { unfold q. replace a with (d1 - d2) by (unfold d2; ring).
    apply Phi_lipschitz. unfold d2. lra. }
  pose proof (Rmax_l (S - KE) 0) as Hl. pose proof (Rmax_r (S - KE) 0) as Hr.
  destruct (Rle_or_lt S KE) as [Hle | Hlt].
  - assert (G1 : 0 <= (KE - S) * Phi d2) by (apply Rmult_le_pos; lra).
    assert (G2 : S * (Phi d1 - Phi d2) <= S * q)
      by (apply Rmult_le_compat_l; lra).
    assert (G3 : 0 <= KE * q) by (apply Rmult_le_pos; lra).
    nra.
  - assert (G1 : 0 <= (S - KE) * (1 - Phi d1)) by (apply Rmult_le_pos; lra).
    assert (G2 : KE * (Phi d1 - Phi d2) <= KE * q)
      by (apply Rmult_le_compat_l; lra).
    assert (G3 : 0 <= S * q) by (apply Rmult_le_pos; lra).
    nra.
Qed.

End Expiry.

Section Discount.

Local Open Scope R_scope.

(** e^(-x) is within 2|x| of 1, and at most 2, as long as |x| <= 1/2. *)
Lemma discount_near_one x :
  Rabs x <= 1 / 2 -> Rabs (exp (- x) - 1) <= 2 * Rabs x /\ exp (- x) <= 2.
Proof.
  intros Hx.
  destruct (Rle_or_lt 0 x) as [H0 | H0].
  - rewrite (Rabs_right x) in * by lra.
    pose proof (exp_neg_lower1 x) as Hlo.
    pose proof (exp_ineq1_le x) as Hup.
    pose proof (exp_pos (- x)) as Hp.
    assert (H1 : exp x * exp (- x) = 1).
    { rewrite <- exp_plus, Rplus_opp_r, exp_0. reflexivity. }
    assert (Hle : exp (- x) <= 1) by nra.
    rewrite Rabs_left1 by lra. lra.
  - rewrite (Rabs_left x) in * by lra.
    set (u := - x) in *.
    pose proof (exp_neg_lower1 u) as Hlo.
    pose proof (exp_ineq1_le u) as Hup.
    assert (H1 : exp u * exp (- u) = 1).
    { rewrite <- exp_plus, Rplus_opp_r, exp_0. reflexivity. }
    assert (Hu : 0 < u) by (unfold u; lra).
    assert (Hle : exp u <= 1 + 2 * u).
    { apply Rmult_le_reg_r with (1 - u); [lra|].
      pose proof (exp_pos u). nra. }
    rewrite Rabs_right by lra. lra.
Qed.

Lemma Rmax_0_lipschitz x y : Rabs (Rmax x 0 - Rmax y 0) <= Rabs (x - y).
Proof.
  unfold Rmax. destruct (Rle_dec x 0), (Rle_dec y 0);
    unfold Rabs; repeat destruct (Rcase_abs _); lra.
Qed.

End Discount.

Section ExpiryGap.

Local Open Scope R_scope.

Variables (Phi : R -> R) (c : R).
Hypothesis c_pos : 0 < c.
Hypothesis Phi_density :
  forall x, derivable_pt_lim Phi x (gauss_kernel x / c).
Hypothesis Phi_symmetric : forall x, Phi x + Phi (- x) = 1.
Hypothesis Phi_left :
  forall eps, 0 < eps -> exists M, forall x, x < M -> Rabs (Phi x) < eps.

Lemma expiry_gap (S K T r sigma : R) :
  0 < S -> 0 < K -> 0 < T -> 0 < sigma -> Rabs (r * T) <= 1 / 2 ->
  let d1 := (ln (S / K) + (r + 1 / 2 * (sigma * sigma)) * T) / (sigma * sqrt T) in
  let d2 := d1 - sigma * sqrt T in
  let call := S * Phi d1 - K * exp (- (r * T)) * Phi d2 in
  let put := K * exp (- (r * T)) * Phi (- d2) - S * Phi (- d1) in
  let gap := (S + 2 * K) * (sigma * sqrt T / c) + 4 * K * Rabs (r * T) in
  Rabs (call - Rmax (S - K) 0) <= gap /\ Rabs (put - Rmax (K - S) 0) <= gap.
Proof.
  intros HS HK HT Hsigma Hrt d1 d2 call put gap.
  pose proof (call_lower_bound Phi c c_pos Phi_density Phi_symmetric Phi_left
                S K T r sigma HS HK HT Hsigma) as Hlo.
  pose proof (time_value_bound Phi c c_pos Phi_density Phi_symmetric Phi_left
                S K T r sigma HS HK HT Hsigma) as Hup.
  cbv zeta in Hlo, Hup. fold d1 in Hlo, Hup. fold d2 in Hlo, Hup.
  fold call in Hlo, Hup.
  destruct (discount_near_one (r * T) Hrt) as [HE HE2].
  set (E := exp (- (r * T))) in *.
  assert (HE0 : 0 < E) by apply exp_pos.
  set (q := sigma * sqrt T / c) in *.
  assert (Hq : 0 < q).
  { unfold q. apply Rdiv_lt_0_compat; [|exact c_pos].
    apply Rmult_lt_0_compat; [exact Hsigma | apply sqrt_lt_R0; exact HT]. }
  pose proof (Rabs_pos (r * T)) as Hrt0.
  pose proof (Rmax_0_lipschitz (S - K * E) (S - K)) as Hm.
  replace (S - K * E - (S - K)) with (- (K * (E - 1))) in Hm by ring.
  rewrite Rabs_Ropp, Rabs_mult, (Rabs_right K) in Hm by lra.
  assert (HKE : K * Rabs (E - 1) <= 2 * K * Rabs (r * T)).
  { replace (2 * K * Rabs (r * T)) with (K * (2 * Rabs (r * T))) by ring.
    apply Rmult_le_compat_l; lra. }
  assert (Hq1 : (S + K * E) * q <= (S + 2 * K) * q).
  { apply Rmult_le_compat_r; [lra|]. nra. }
  assert (Hput : put = call - S + K * E).
  { unfold put, call.
    pose proof (Phi_symmetric d1). pose proof (Phi_symmetric d2).
    replace (Phi (- d1)) with (1 - Phi d1) by lra.
    replace (Phi (- d2)) with (1 - Phi d2) by lra.
    unfold E. ring. }
  assert (Hpay : Rmax (K - S) 0 = Rmax (S - K) 0 - (S - K)).
  { unfold Rmax. destruct (Rle_dec (K - S) 0), (Rle_dec (S - K) 0); lra. }
  assert (HEabs : - Rabs (E - 1) <= E - 1 <= Rabs (E - 1)).
  { unfold Rabs. destruct (Rcase_abs (E - 1)); lra. }
  assert (Hmabs : - (K * Rabs (E - 1))
                  <= Rmax (S - K * E) 0 - Rmax (S - K) 0
                  <= K * Rabs (E - 1)).
  { revert Hm. unfold Rabs at 1.
    destruct (Rcase_abs (Rmax (S - K * E) 0 - Rmax (S - K) 0)); lra. }
  assert (HKE' : K * (E - 1) <= K * Rabs (E - 1)
                 /\ - (K * Rabs (E - 1)) <= K * (E - 1)) by nra.
  unfold gap. split.
  - apply Rabs_le. lra.
  - rewrite Hput, Hpay. apply Rabs_le. lra.
Qed.

End ExpiryGap.

(** X15.  In exact arithmetic, for the standard normal distribution function
    and S, K, sigma > 0: as the time to maturity T > 0 goes to 0, what
    [black_scholes] returns tends to what [option_payoff] returns, for the
    call and for the put.  (At T = 0 itself the code divides by zero.) *)
Theorem price_tends_to_payoff_at_expiry :
  forall (Phi : R -> R) (c : R),
    (0 < c)%R ->
    (forall x : R, derivable_pt_lim Phi x (gauss_kernel x / c)%R) ->
    (forall x : R, Phi x + Phi (- x) = 1)%R ->
    (forall eps : R,
        0 < eps -> exists M : R, forall x : R, x < M -> Rabs (Phi x) < eps)%R ->
    forall S K r sigma : scalar R,
      (0 < val S)%R -> (0 < val K)%R -> (0 < val sigma)%R ->
      forall eps : R,
        (0 < eps)%R ->
        exists delta : R,
          (0 < delta)%R
          /\ forall T : scalar R,
               (0 < val T < delta)%R ->
               exists call put call_payoff put_payoff : scalar R,
                 black_scholes (A := exact Phi) S K T r sigma
                   (Some "call"%string) = Return call
                 /\ black_scholes (A := exact Phi) S K T r sigma
                      (Some "put"%string) = Return put
                 /\ option_payoff (A := exact Phi) (Scalar S) K
                      (Some "call"%string) = Return (Scalar call_payoff)
                 /\ option_payoff (A := exact Phi) (Scalar S) K
                      (Some "put"%string) = Return (Scalar put_payoff)
                 /\ (Rabs (val call - val call_payoff) < eps)%R
                 /\ (Rabs (val put - val put_payoff) < eps)%R.
Proof.
  intros Phi c Hc Hdens Hsym Hleft S K r sigma HS HK Hsigma eps Heps.
  set (B := ((val S + 2 * val K) * val sigma / c)%R).
  assert (HB : (0 < B)%R).
  { unfold B. apply Rdiv_lt_0_compat; [|exact Hc].
    apply Rmult_lt_0_compat; lra. }
  set (Rr := (Rabs (val r) + 1)%R).
  assert (HRr : (0 < Rr)%R) by (unfold Rr; pose proof (Rabs_pos (val r)); lra).
  set (eta := (eps / (2 * B))%R).
  assert (Heta : (0 < eta)%R).
  { unfold eta. apply Rdiv_lt_0_compat; lra. }
  set (d1 := (1 / (2 * Rr))%R).
  set (d2 := (eta * eta)%R).
  set (d3 := (eps / (8 * val K * Rr))%R).
  assert (Hd1 : (0 < d1)%R) by (unfold d1; apply Rdiv_lt_0_compat; lra).
  assert (Hd2 : (0 < d2)%R) by (unfold d2; apply Rmult_lt_0_compat; lra).
  assert (Hd3 : (0 < d3)%R).
  { unfold d3. apply Rdiv_lt_0_compat; [lra|].
    apply Rmult_lt_0_compat; lra. }
  exists (Rmin d1 (Rmin d2 d3)). split.
  { apply Rmin_glb_lt; [exact Hd1|]. apply Rmin_glb_lt; assumption. }
  intros T [HT0 HTd].
  assert (HT1 : (val T < d1)%R).
  { apply Rlt_le_trans with (1 := HTd). apply Rmin_l. }
  assert (HT2 : (val T < d2)%R).
  { apply Rlt_le_trans with (1 := HTd).
    apply Rle_trans with (1 := Rmin_r _ _). apply Rmin_l. }
  assert (HT3 : (val T < d3)%R).
  { apply Rlt_le_trans with (1 := HTd).
    apply Rle_trans with (1 := Rmin_r _ _). apply Rmin_r. }
  assert (HK0 : val K <> 0%R) by lra.
  destruct (closed_form_exact Phi S K T r sigma HK0) as [Hcall Hput].
  cbv zeta in Hcall, Hput.
  do 4 eexists.
  split; [exact Hcall|]. split; [exact Hput|].
  split; [apply payoff_call_scalar|]. split; [apply payoff_put_scalar|].
  cbn [val]. rewrite !(ExactFacts.exact_maximum_zero Phi). cbn [num_sub exact].
  (* |r T| < 1/2 *)
  assert (HrT : (Rabs (val r * val T) <= Rr * val T)%R).
  { rewrite Rabs_mult, (Rabs_right (val T)) by lra.
    apply Rmult_le_compat_r; [lra|]. unfold Rr. lra. }
  assert (Hhalf : (Rr * val T < 1 / 2)%R).
  { apply Rmult_lt_reg_l with (/ Rr)%R; [apply Rinv_0_lt_compat; exact HRr|].
    rewrite <- Rmult_assoc, Rinv_l, Rmult_1_l by lra.
    replace (/ Rr * (1 / 2))%R with d1 by (unfold d1; field; lra).
    exact HT1. }
  assert (Hsmall : (Rabs (val r * val T) <= 1 / 2)%R) by lra.
  (* sqrt T < eta *)
  assert (Hsqrt : (sqrt (val T) < eta)%R).
  { rewrite <- (sqrt_square eta) by lra.
    apply sqrt_lt_1_alt. split; [lra | exact HT2]. }
  assert (Hsqrt0 : (0 < sqrt (val T))%R) by (apply sqrt_lt_R0; exact HT0).
  assert (Hfirst : ((val S + 2 * val K) * (val sigma * sqrt (val T) / c)
                    < eps / 2)%R).
  { replace ((val S + 2 * val K) * (val sigma * sqrt (val T) / c))%R
      with (B * sqrt (val T))%R by (unfold B; field; lra).
    apply Rlt_le_trans with (B * eta)%R.
    - apply Rmult_lt_compat_l; assumption.
    - unfold eta. right. field. lra. }
  assert (Hsecond : (4 * val K * Rabs (val r * val T) < eps / 2)%R).
  { apply Rle_lt_trans with (4 * val K * (Rr * val T))%R.
    - apply Rmult_le_compat_l; [lra | exact HrT].
    - replace (eps / 2)%R with (4 * val K * Rr * d3)%R
        by (unfold d3; field; lra).
      replace (4 * val K * (Rr * val T))%R with (4 * val K * Rr * val T)%R
        by ring.
      apply Rmult_lt_compat_l; [|exact HT3].
      apply Rmult_lt_0_compat; [lra | exact HRr]. }
  destruct (expiry_gap Phi c Hc Hdens Hsym Hleft
              (val S) (val K) (val T) (val r) (val sigma)
              HS HK HT0 Hsigma Hsmall) as [G1 G2].
  split; [eapply Rle_lt_trans; [exact G1 | lra]
         | eapply Rle_lt_trans; [exact G2 | lra]].
Qed.

Lemma price_tends_to_payoff_at_expiry_witness :
  exists (Phi : R -> R) (delta : R),
    (0 < delta)%R
    /\ forall T : scalar R,
         (0 < val T < delta)%R ->
         exists call put call_payoff put_payoff : scalar R,
           black_scholes (A := exact Phi)
             (Py 120%R) (Py 100%R) T (Py 0.05%R) (Py 0.20%R)
             (Some "call"%string) = Return call
           /\ black_scholes (A := exact Phi)
                (Py 120%R) (Py 100%R) T (Py 0.05%R) (Py 0.20%R)
                (Some "put"%string) = Return put
           /\ option_payoff (A := exact Phi) (Scalar (Py 120%R)) (Py 100%R)
                (Some "call"%string) = Return (Scalar call_payoff)
           /\ option_payoff (A := exact Phi) (Scalar (Py 120%R)) (Py 100%R)
                (Some "put"%string) = Return (Scalar put_payoff)
           /\ (Rabs (val call - val call_payoff) < 1 / 100)%R
           /\ (Rabs (val put - val put_payoff) < 1 / 100)%R.
Proof.
  destruct standard_normal_exists as (Phi & c & Hc & Hdens & Hsym & Hleft).
  exists Phi.
  apply (price_tends_to_payoff_at_expiry Phi c Hc Hdens Hsym Hleft
           (Py 120%R) (Py 100%R) (Py 0.05%R) (Py 0.20%R));
    cbn [val]; lra.
Defined.
